(** * Shamir share verification: exact rationals, Vandermonde solving and
      subset search (shamir_verify.cpp)

    A shallow embedding of the program in [src/code.cpp] and of the older
    variant kept next to it, followed by the properties that the
    specification states about them.

    Conventions of the embedding:
    - [cpp_int] (Boost's unbounded integer) is [Z]; its [/] and [%] truncate
      towards zero, hence [Z.quot] and [Z.rem];
    - [int] and [long long] values are [Z] as well, narrowing casts are
      written out with [to_int];
    - [std::vector] is [list], indices are [nat], and an access past the
      end - undefined in C++ - is the error [undefined_behaviour];
    - a C++ function that can throw returns a [result]; [throw] is [Err];
    - [reserve] throws [std::length_error] when it is asked for more than
      [max_size()] elements; that the memory a container asks for is
      there is taken for granted ([std::bad_alloc] is outside the
      embedding);
    - the text sent to [cout] is recorded as far as the program flushes
      it: all of it when [main] returns, none of it before (see [run]);
    - a counted loop is a structural recursion on the number of iterations
      that are left, a scan of a string a recursion on the string; the
      three loops without a syntactic bound ([while (b != 0)] in [gcd_abs],
      [while (t > 0)] in [cpp_int_to_string] and the
      [do ... while (prev_permutation ...)] of [find_valid_constant]) carry
      a fuel counter, and running out of it is the distinguished error
      [out_of_fuel], which is shown below never to happen
      ([gcd_abs_spec], [cpp_int_to_string_total],
      [find_valid_constant_with_spec]). *)

From Stdlib Require Import String Ascii DecimalString.
From Stdlib Require Import ZArith Lia List ListDec Bool Arith FinFun Sorted.
From Stdlib Require Import QArith Qcanon Field.
Import ListNotations.

Local Open Scope Z_scope.

(** ** Exceptions and fallible computations *)

Inductive exception : Type :=
| runtime_error (what : string)     (* throw runtime_error(what) *)
| invalid_argument (what : string)  (* thrown by std::stoi / std::stoll *)
| out_of_range (what : string)      (* thrown by std::stoi / std::stoll *)
| length_error (what : string)      (* thrown by std::vector::reserve *)
| undefined_behaviour               (* operator[] past the end of a vector *)
| out_of_fuel.                      (* artefact of the embedding, see above *)

Inductive result (A : Type) : Type :=
| Ok (a : A)
| Err (e : exception).

Arguments Ok {A} a.
Arguments Err {A} e.

Definition bind {A B : Type} (m : result A) (f : A -> result B) : result B :=
  match m with
  | Ok a => f a
  | Err e => Err e
  end.

Notation "x <- m ;; k" := (bind m (fun x => k))
  (at level 61, m at next level, right associativity).

(** ** The fraction type *)

Record Frac : Type := MkFrac { num : Z; den : Z }.

(** [while (b != 0) { r = a % b; a = b; b = r; }] *)
Fixpoint gcd_loop (fuel : nat) (a b : Z) : result Z :=
  match fuel with
  | O => Err out_of_fuel
  | S fuel' => if b =? 0 then Ok a else gcd_loop fuel' b (Z.rem a b)
  end.

(** Two iterations of the loop at least halve [b], so twice the bit length
    of [b] plus one bounds the number of tests of the loop condition. *)
Definition gcd_fuel (b : Z) : nat := S (2 * Z.to_nat (Z.log2 b + 1)).

Definition gcd_abs (a b : Z) : result Z :=
  let a := if a <? 0 then - a else a in
  let b := if b <? 0 then - b else b in
  gcd_loop (gcd_fuel b) a b.

(** [Frac(cpp_int n = 0, cpp_int d = 1)] *)
Definition Frac_ctor (n d : Z) : result Frac :=
  if d =? 0 then Err (runtime_error "zero denominator") else
  let n1 := if d <? 0 then - n else n in
  let d1 := if d <? 0 then - d else d in
  g <- gcd_abs (if n1 <? 0 then - n1 else n1) d1 ;;
  Ok {| num := Z.quot n1 g; den := Z.quot d1 g |}.

Definition Frac_add (a o : Frac) : result Frac :=
  Frac_ctor (num a * den o + num o * den a) (den a * den o).

Definition Frac_sub (a o : Frac) : result Frac :=
  Frac_ctor (num a * den o - num o * den a) (den a * den o).

Definition Frac_mul (a o : Frac) : result Frac :=
  Frac_ctor (num a * num o) (den a * den o).

Definition Frac_div (a o : Frac) : result Frac :=
  if num o =? 0 then Err (runtime_error "division by zero fraction")
  else Frac_ctor (num a * den o) (den a * num o).

Definition isInteger (a : Frac) : bool := den a =? 1.

(** The invariant the comment [// always > 0] and the reduction in the
    constructor aim at. *)
Definition Frac_wf (f : Frac) : Prop :=
  0 < den f /\ Z.gcd (Z.abs (num f)) (den f) = 1.

(** The two messages that the specification files under [DivisionByZero]. *)
Definition DivisionByZero (e : exception) : Prop :=
  e = runtime_error "zero denominator" \/
  e = runtime_error "division by zero fraction".

(** ** The two operations that can fail, with their variables

    [Frac_ctor] and [Frac_div] give what a call returns. To state what a
    call leaves behind, the same lines are given once more together with
    the variables that they can reach, and which they could change.

    The constructor takes its arguments by value: its variables are its
    own copies [n] and [d] of the operands, which line 17 assigns to, and
    the members [num] and [den] of the object that it builds, which line
    19 assigns to. The operands of the caller are not among them, and
    the program has no global variable that a call could reach. *)
Record ctor_vars : Type := MkVars {
  var_n : Z; var_d : Z; this_num : Z; this_den : Z
}.

(** Lines 15-20: the exception thrown, or [tt], and the variables as the
    body leaves them. *)
Definition Frac_ctor_body (v : ctor_vars) : result unit * ctor_vars :=
  if var_d v =? 0 then (Err (runtime_error "zero denominator"), v) else
  let v1 := if var_d v <? 0
            then MkVars (- var_n v) (- var_d v) (this_num v) (this_den v)
            else v in
  match gcd_abs (if var_n v1 <? 0 then - var_n v1 else var_n v1) (var_d v1) with
  | Err e => (Err e, v1)
  | Ok g => (Ok tt, MkVars (var_n v1) (var_d v1)
                           (Z.quot (var_n v1) g) (Z.quot (var_d v1) g))
  end.

(** The operator [/] is a [const] member and takes [o] by reference to
    [const]: its variables are the two operands themselves, [*this] and
    [o]. *)
Record div_vars : Type := MkOperands { this_frac : Frac; o_frac : Frac }.

(** Lines 34-37: the exception thrown, or the fraction returned, and the
    operands as the body leaves them. The fraction returned is built by
    the constructor from copies of the two products; its members are
    [cpp_int]s that start at 0. *)
Definition Frac_div_body (v : div_vars) : result Frac * div_vars :=
  if num (o_frac v) =? 0
  then (Err (runtime_error "division by zero fraction"), v) else
  let built := Frac_ctor_body
                 (MkVars (num (this_frac v) * den (o_frac v))
                         (den (this_frac v) * num (o_frac v)) 0 0) in
  match fst built with
  | Err e => (Err e, v)
  | Ok _ => (Ok (MkFrac (this_num (snd built)) (this_den (snd built))), v)
  end.

(** ** Vectors and loops *)

(** [v[i]] as an rvalue; reading past the end is undefined in C++. *)
Definition vat {A : Type} (v : list A) (i : nat) : result A :=
  match nth_error v i with
  | Some a => Ok a
  | None => Err undefined_behaviour
  end.

Fixpoint upd {A : Type} (v : list A) (i : nat) (a : A) : list A :=
  match v, i with
  | [], _ => []
  | _ :: v', O => a :: v'
  | b :: v', S i' => b :: upd v' i' a
  end.

(** [v[i] = a] *)
Definition vset {A : Type} (v : list A) (i : nat) (a : A) : result (list A) :=
  if (i <? length v)%nat then Ok (upd v i a) else Err undefined_behaviour.

(** [for (int i = lo; i < lo + cnt; ++i) body], the loop variables other
    than the counter being the state [s]. A [continue] is a body that
    returns its state. *)
Fixpoint for_loop {St : Type} (body : nat -> St -> result St)
  (i cnt : nat) (s : St) : result St :=
  match cnt with
  | O => Ok s
  | S cnt' => s' <- body i s ;; for_loop body (S i) cnt' s'
  end.

Definition Matrix : Type := list (list Frac).

(** [A[r][c]] *)
Definition mget (A : Matrix) (r c : nat) : result Frac :=
  row <- vat A r ;; vat row c.

(** [A[r][c] = v] *)
Definition mset (A : Matrix) (r c : nat) (v : Frac) : result Matrix :=
  row <- vat A r ;; row' <- vset row c v ;; vset A r row'.

(** [swap(A[i], A[j])] *)
Definition swap_rows (A : Matrix) (i j : nat) : result Matrix :=
  ri <- vat A i ;; rj <- vat A j ;;
  A' <- vset A i rj ;; vset A' j ri.

(** ** Solving the Vandermonde system (code.cpp, lines 113-146) *)

(** Lines 116-121, the body of the loop over the rows. *)
Definition fill_row (xs ys : list Z) (k : nat) (i : nat) (A : Matrix)
  : result Matrix :=
  Ap <- for_loop
          (fun j (st : Matrix * Z) =>
             let (A, power) := st in
             f <- Frac_ctor power 1 ;;
             A' <- mset A i j f ;;
             x <- vat xs i ;;
             Ok (A', power * x))
          0 k (A, 1) ;;
  y <- vat ys i ;;
  f <- Frac_ctor y 1 ;;
  mset (fst Ap) i k f.

(** Lines 114-122. *)
Definition build_matrix (xs ys : list Z) : result Matrix :=
  let k := length xs in
  z <- Frac_ctor 0 1 ;;
  for_loop (fill_row xs ys k) 0 k (repeat (repeat z (k + 1)%nat) k).

(** Lines 125-128: the scan for a pivot, which leaves [sel] at its initial
    value when it finds none. *)
Fixpoint find_pivot (A : Matrix) (col : nat) (r cnt : nat) (sel : nat)
  : result nat :=
  match cnt with
  | O => Ok sel
  | S cnt' =>
      f <- mget A r col ;;
      if num f =? 0 then find_pivot A col (S r) cnt' sel else Ok r
  end.

(** Line 133. *)
Definition normalize_row (k row col : nat) (pivot : Frac) (A : Matrix)
  : result Matrix :=
  for_loop (fun c A => a <- mget A row c ;;
                       v <- Frac_div a pivot ;;
                       mset A row c v)
           col (k + 1 - col)%nat A.

(** Lines 136-141, the body of the loop over the rows. *)
Definition eliminate_row (k row col : nat) (r : nat) (A : Matrix)
  : result Matrix :=
  if (r =? row)%nat then Ok A else
  factor <- mget A r col ;;
  if num factor =? 0 then Ok A else
  for_loop (fun c A => a <- mget A r c ;;
                       b <- mget A row c ;;
                       t <- Frac_mul factor b ;;
                       v <- Frac_sub a t ;;
                       mset A r c v)
           col (k + 1 - col)%nat A.

(** Lines 125-142, the body of the loop over the columns; [None] is the
    [return false] of line 129. *)
Definition gauss_step (k col row : nat) (A : Matrix) : result (option Matrix) :=
  sel <- find_pivot A col row (k - row)%nat row ;;
  p <- mget A sel col ;;
  if num p =? 0 then Ok None else
  A1 <- (if (sel =? row)%nat then Ok A else swap_rows A sel row) ;;
  pivot <- mget A1 row col ;;
  A2 <- normalize_row k row col pivot A1 ;;
  A3 <- for_loop (eliminate_row k row col) 0 k A2 ;;
  Ok (Some A3).

(** Line 124: [for (int col = 0, row = 0; col < k && row < k; ++col, ++row)];
    [cnt] is the number of iterations left, [min (k - col) (k - row)]. *)
Fixpoint gauss_loop (k col row cnt : nat) (A : Matrix)
  : result (option Matrix) :=
  match cnt with
  | O => Ok (Some A)
  | S cnt' =>
      r <- gauss_step k col row A ;;
      match r with
      | None => Ok None
      | Some A' => gauss_loop k (S col) (S row) cnt' A'
      end
  end.

(** Lines 113-146: the matrix is built and reduced and the last column is
    copied to [out_coeff]; [None] when line 129 returned [false], in which
    case [out_coeff] has not been touched. *)
Definition solve_vandermonde (xs ys : list Z) : result (option (list Frac)) :=
  let k := length xs in
  A <- build_matrix xs ys ;;
  r <- gauss_loop k 0 0 (Nat.min (k - 0) (k - 0)) A ;;
  match r with
  | None => Ok None
  | Some A =>
      z <- Frac_ctor 0 1 ;;
      out <- for_loop (fun i out => v <- mget A i k ;; vset out i v)
                      0 k (repeat z k) ;;
      Ok (Some out)
  end.

(** The final loop of [interpolate_and_check], which returns [false] at the
    first coefficient that [rejected] refuses. *)
Fixpoint check_coeffs (rejected : Frac -> bool) (out_coeff : list Frac)
  (i cnt : nat) : result bool :=
  match cnt with
  | O => Ok true
  | S cnt' =>
      f <- vat out_coeff i ;;
      if rejected f then Ok false
      else check_coeffs rejected out_coeff (S i) cnt'
  end.

Definition interpolate_and_check_with (rejected : Frac -> bool)
  (xs ys : list Z) (out_coeff : list Frac) : result (bool * list Frac) :=
  r <- solve_vandermonde xs ys ;;
  match r with
  | None => Ok (false, out_coeff)
  | Some out =>
      b <- check_coeffs rejected out 0 (length xs) ;;
      Ok (b, out)
  end.

(** code.cpp, lines 148-152: [if (!out_coeff[i].isInteger()) return false;] *)
Definition rejected (f : Frac) : bool := negb (isInteger f).

(** code.cpp, lines 112-153. The result is the returned [bool] and the
    value of the reference parameter [out_coeff] at return. *)
Definition interpolate_and_check := interpolate_and_check_with rejected.

(** ** The search over the subsets (code.cpp, lines 156-177) *)

(** [sort(first, last, greater<int>())]: the sorted rearrangement, here
    computed by insertion. *)
Fixpoint insert_desc (x : Z) (l : list Z) : list Z :=
  match l with
  | [] => [x]
  | y :: l' => if y <? x then x :: l else y :: insert_desc x l'
  end.

Definition sort_desc (l : list Z) : list Z := fold_right insert_desc [] l.

(** [std::prev_permutation] on a suffix that is in ascending order and a
    pivot [x] greater than its head: the last element smaller than [x]
    takes the place of [x]. *)
Fixpoint swap_last_less (x : Z) (l : list Z) : option (Z * list Z) :=
  match l with
  | [] => None
  | y :: l' =>
      match swap_last_less x l' with
      | Some (z, l'') => Some (z, y :: l'')
      | None => if y <? x then Some (y, x :: l') else None
      end
  end.

(** The rearrangement of [std::prev_permutation] when there is a previous
    permutation: at the last position [i] with [a[i] > a[i+1]], [a[i]] is
    exchanged with the last element smaller than it and the suffix after
    [i] is reversed. *)
Fixpoint prev_perm (l : list Z) : option (list Z) :=
  match l with
  | [] => None
  | x :: l' =>
      match prev_perm l' with
      | Some l'' => Some (x :: l'')
      | None =>
          match l' with
          | [] => None
          | y :: _ =>
              if y <? x then
                match swap_last_less x l' with
                | Some (z, l'') => Some (z :: rev l'')
                | None => None
                end
              else None
          end
      end
  end.

(** [std::prev_permutation(first, last)]: the returned [bool] and the range
    afterwards; without a previous permutation the range is reversed. *)
Definition prev_permutation (l : list Z) : bool * list Z :=
  match prev_perm l with
  | Some l' => (true, l')
  | None => (false, rev l)
  end.

(** [v.reserve(n)], lines 167 and 212: the argument is converted to
    [size_t], and a request for more than [v.max_size()] elements throws
    [std::length_error], whose text in libstdc++ (line 6) is
    ["vector::reserve"]. [max_size()] is [PTRDIFF_MAX / sizeof(T)] there,
    on a target with 64-bit pointers. *)
Definition max_size (sizeof_T : Z) : Z := (2 ^ 63 - 1) / sizeof_T.

Definition sizeof_int : Z := 4.

(** Boost's [cpp_int] on such a target: two limbs or the pointer and
    capacity of the dynamic storage, the number of limbs and three flags,
    aligned like the 128-bit double limb. *)
Definition sizeof_cpp_int : Z := 32.

Definition reserve (sizeof_T n : Z) : result unit :=
  if (n mod 2 ^ 64) >? max_size sizeof_T
  then Err (length_error "vector::reserve") else Ok tt.

(** [reserve] with an argument of type [int], as in line 167: converted
    to [size_t] a negative [int] is [2^64 - 2^31] at least, above
    [max_size()], and an [int] that is not negative is below [2^31], far
    below [max_size()] of either vector ([reserve_int_spec]). *)
Definition reserve_int (k : Z) : result unit :=
  if k <? 0 then Err (length_error "vector::reserve") else Ok tt.

(** Line 168. *)
Definition select (xs_full ys_full choose : list Z) (n : nat)
  : result (list Z * list Z) :=
  for_loop (fun i (st : list Z * list Z) =>
              let (xs, ys) := st in
              c <- vat choose i ;;
              if c =? 0 then Ok (xs, ys) else
              x <- vat xs_full i ;;
              y <- vat ys_full i ;;
              Ok (xs ++ [x], ys ++ [y]))
           0 n ([], []).

(** What one run of [find_valid_constant] did: the selection masks that
    were handed to [interpolate_and_check], in order, and the value of
    [constant_out] when the function returned [true]. *)
Record search_result : Type := MkSearch {
  attempts : list (list Z);
  constant_out : option Z
}.

Section Search.

Variable check : list Z -> list Z -> list Frac -> result (bool * list Frac).

(** Lines 164-175, the [do ... while] loop; line 167 is
    [xs.reserve(k); ys.reserve(k);]. *)
Fixpoint search_loop (fuel : nat) (xs_full ys_full : list Z) (n : nat) (k : Z)
  (choose : list Z) (tried : list (list Z)) : result search_result :=
  match fuel with
  | O => Err out_of_fuel
  | S fuel' =>
      _ <- reserve_int k ;;
      _ <- reserve_int k ;;
      sub <- select xs_full ys_full choose n ;;
      r <- check (fst sub) (snd sub) [] ;;
      let tried' := tried ++ [choose] in
      if fst r then
        c <- vat (snd r) 0 ;;
        Ok (MkSearch tried' (Some (num c)))
      else
        let (more, choose') := prev_permutation choose in
        if more then search_loop fuel' xs_full ys_full n k choose' tried'
        else Ok (MkSearch tried' None)
  end.

End Search.

Fixpoint binomial (n k : nat) : nat :=
  match n, k with
  | _, O => 1
  | O, S _ => 0
  | S n', S k' => binomial n' k' + binomial n' k
  end.

(** Lines 156-177, parametrised by the variant of [interpolate_and_check]
    that is called. The loop body runs once per rearrangement of [choose],
    which has [k] ones among [n] entries. *)
Definition find_valid_constant_with
  (check : list Z -> list Z -> list Frac -> result (bool * list Frac))
  (xs_full ys_full : list Z) (k : Z) : result search_result :=
  let n := length xs_full in
  if k >? Z.of_nat n then Ok (MkSearch [] None) else
  choose <- for_loop (fun i choose => vset choose i 1)
                     0 (Z.to_nat k) (repeat 0 n) ;;
  let choose := sort_desc choose in
  search_loop check (binomial n (Z.to_nat k)) xs_full ys_full n k choose [].

Definition find_valid_constant := find_valid_constant_with interpolate_and_check.

(** ** Reading the input (code.cpp, lines 41-109 and 179-197)

    [std::string] is [string], a position is a [nat] and [string::npos] is
    [None]; [s.find(key, pos)] is [index pos key s] and [s.substr(pos, len)]
    is [substring pos len s] of the standard library. *)

Definition dquote : string := String "034"%char EmptyString.

Definition newline : string := String "010"%char EmptyString.

(** The text [s] between double quotes, as in a key of the input. *)
Definition quoted (s : string) : string := (dquote ++ s ++ dquote)%string.

Definition isspace (c : ascii) : bool :=
  let n := nat_of_ascii c in
  (n =? 32)%nat || ((9 <=? n)%nat && (n <=? 13)%nat).

Definition isdigit (c : ascii) : bool :=
  let n := nat_of_ascii c in (48 <=? n)%nat && (n <=? 57)%nat.

(** The narrowing cast [(int)] of a [long long] or of a [size_t]. *)
Definition to_int (z : Z) : Z := (z + 2 ^ 31) mod 2 ^ 32 - 2 ^ 31.

Fixpoint skip_while (p : ascii -> bool) (s : string) : string :=
  match s with
  | EmptyString => EmptyString
  | String c s' => if p c then skip_while p s' else s
  end.

Fixpoint take_while (p : ascii -> bool) (s : string) : string :=
  match s with
  | EmptyString => EmptyString
  | String c s' => if p c then String c (take_while p s') else EmptyString
  end.

Definition string_rev (s : string) : string :=
  string_of_list_ascii (rev (list_ascii_of_string s)).

(** Lines 42-46. *)
Definition trim (s : string) : string :=
  string_rev (skip_while isspace (string_rev (skip_while isspace s))).

Definition digit_value (c : ascii) : Z := Z.of_nat (nat_of_ascii c) - 48.

Definition decimal_value (s : string) : Z :=
  fold_left (fun v c => v * 10 + digit_value c) (list_ascii_of_string s) 0.

(** [std::stoll] and [std::stoi] in base 10: white space, an optional sign
    and the longest run of digits; [invalid_argument] without a digit,
    [out_of_range] when the value does not fit. *)
Definition parse_integer (name : string) (lo hi : Z) (s : string) : result Z :=
  let s1 := skip_while isspace s in
  let (neg, s2) :=
    match s1 with
    | String "-"%char r => (true, r)
    | String "+"%char r => (false, r)
    | _ => (false, s1)
    end in
  let ds := take_while isdigit s2 in
  match ds with
  | EmptyString => Err (invalid_argument name)
  | _ =>
      let v := if neg then - decimal_value ds else decimal_value ds in
      if (v <? lo) || (hi <? v) then Err (out_of_range name) else Ok v
  end.

Definition stoll : string -> result Z :=
  parse_integer "stoll" (- 2 ^ 63) (2 ^ 63 - 1).

Definition stoi : string -> result Z :=
  parse_integer "stoi" (- 2 ^ 31) (2 ^ 31 - 1).

(** [std::to_string] of an integer. *)
Definition to_string (z : Z) : string := NilZero.string_of_int (Z.to_int z).

(** The position after the white space from [p] on. *)
Definition skip_spaces (s : string) (p : nat) : nat :=
  (p + String.length (take_while isspace (substring p (String.length s) s)))%nat.

(** The position after the signs and digits from [p] on. *)
Definition skip_number (s : string) (p : nat) : nat :=
  (p + String.length
         (take_while (fun c => Ascii.eqb c "-"%char || isdigit c)
                     (substring p (String.length s) s)))%nat.

(** Lines 49-59. *)
Definition parse_small_int_after_key (s : string) (pos_key : nat) : result Z :=
  match index pos_key ":" s with
  | None => Err (runtime_error "invalid json structure (int)")
  | Some p =>
      let p := skip_spaces s (S p) in
      let q := skip_number s p in
      stoll (trim (substring p (q - p) s))
  end.

(** Lines 62-71. *)
Definition parse_quoted_after_key (s : string) (pos_key : nat) : result string :=
  match index pos_key ":" s with
  | None => Err (runtime_error "invalid json structure (str)")
  | Some p =>
      match index (S p) dquote s with
      | None => Err (runtime_error "invalid json: missing opening quote")
      | Some q =>
          match index (S q) dquote s with
          | None => Err (runtime_error "invalid json: missing closing quote")
          | Some r => Ok (substring (S q) (r - S q) s)
          end
      end
  end.

(** Lines 78-85, the body of the loop over the characters. *)
Definition parse_digit (base : Z) (val : Z) (ch : ascii) : result Z :=
  if isspace ch then Ok val else
  let n := Z.of_nat (nat_of_ascii ch) in
  d <- (if (48 <=? n) && (n <=? 57) then Ok (n - 48)
        else if (97 <=? n) && (n <=? 122) then Ok (n - 97 + 10)
        else if (65 <=? n) && (n <=? 90) then Ok (n - 65 + 10)
        else Err (runtime_error ("invalid digit: " ++ String ch EmptyString))) ;;
  if (d <? 0) || (d >=? base)
  then Err (runtime_error "digit >= base in parse_in_base_cpp")
  else Ok (val * base + d).

(** Lines 74-88. *)
Fixpoint parse_in_base_loop (base : Z) (s : string) (val : Z) : result Z :=
  match s with
  | EmptyString => Ok val
  | String ch s' => v <- parse_digit base val ch ;; parse_in_base_loop base s' v
  end.

Definition parse_in_base_cpp (s_raw : string) (base : Z) : result Z :=
  parse_in_base_loop base s_raw 0.

(** Lines 91-109; [rest] is the input from position [i] on. *)
Fixpoint split_loop (input rest : string) (i : nat) (depth start : Z)
  (objs : list string) : list string :=
  match rest with
  | EmptyString => objs
  | String c rest' =>
      if Ascii.eqb c "{"%char then
        split_loop input rest' (S i) (depth + 1)
                   (if depth =? 0 then Z.of_nat i else start) objs
      else if Ascii.eqb c "}"%char then
        if (depth - 1 =? 0) && negb (start =? -1) then
          split_loop input rest' (S i) (depth - 1) (-1)
            (objs ++ [substring (Z.to_nat start) (i - Z.to_nat start + 1) input])
        else split_loop input rest' (S i) (depth - 1) start objs
      else split_loop input rest' (S i) depth start objs
  end.

Definition split_json_objects (input : string) : list string :=
  split_loop input input 0 0 (-1) [].

(** Lines 189-193: [while (t > 0)], which divides [t] by ten each time. *)
Fixpoint digits_loop (fuel : nat) (t : Z) (s : string) : result string :=
  match fuel with
  | O => Err out_of_fuel
  | S fuel' =>
      if t >? 0 then
        digits_loop fuel' (Z.quot t 10)
          (s ++ String (ascii_of_nat (48 + Z.to_nat (Z.rem t 10))) EmptyString)
      else Ok s
  end.

(** Lines 183-197. *)
Definition cpp_int_to_string (v : Z) : result string :=
  if v =? 0 then Ok "0"%string else
  let neg := v <? 0 in
  let t := if neg then - v else v in
  s <- digits_loop (S (S (Z.to_nat (Z.log2 t)))) t EmptyString ;;
  Ok (string_rev (if neg then s ++ "-" else s)).

(** ** One request (code.cpp, lines 200-249) *)

(** Lines 221-232: the base, quoted or not. *)
Definition parse_base (obj_str : string) (pos_base_key : nat) (base_str : string)
  : result (option Z) :=
  match stoi base_str with
  | Ok base => Ok (Some base)
  | Err _ =>
      match index pos_base_key ":" obj_str with
      | None => Ok None
      | Some colon =>
          let p := skip_spaces obj_str (S colon) in
          let q := skip_number obj_str p in
          base <- stoi (trim (substring p (q - p) obj_str)) ;;
          Ok (Some base)
      end
  end.

(** Lines 214-240: the loop over the indices [idx .. n]; [None] is a
    [return false] from inside the loop. *)
Fixpoint parse_points (obj_str : string) (idx : Z) (cnt : nat)
  (xs ys : list Z) : result (option (list Z * list Z)) :=
  match cnt with
  | O => Ok (Some (xs, ys))
  | S cnt' =>
      let key := quoted (to_string idx) in
      match index 0 key obj_str with
      | None => parse_points obj_str (idx + 1) cnt' xs ys
      | Some pos =>
          match index pos (quoted "base") obj_str with
          | None => Ok None
          | Some pos_base_key =>
              base_str <- parse_quoted_after_key obj_str pos_base_key ;;
              b <- parse_base obj_str pos_base_key base_str ;;
              match b with
              | None => Ok None
              | Some base =>
                  match index pos (quoted "value") obj_str with
                  | None => Ok None
                  | Some pos_val_key =>
                      val <- parse_quoted_after_key obj_str pos_val_key ;;
                      y <- parse_in_base_cpp val base ;;
                      parse_points obj_str (idx + 1) cnt'
                                   (xs ++ [to_int idx]) (ys ++ [y])
                  end
              end
          end
      end
  end.

(** Lines 242-248: what is done with the points once they are read. The
    result is the returned [bool] with [out_constant_str], and the masks
    that the search tried. *)
Definition solve_points (xs ys : list Z) (k : Z)
  : result (list (list Z) * option string) :=
  if to_int (Z.of_nat (length xs)) <? k then Ok ([], None) else
  r <- find_valid_constant xs ys (to_int k) ;;
  match constant_out r with
  | None => Ok (attempts r, None)
  | Some constant =>
      s <- cpp_int_to_string constant ;; Ok (attempts r, Some s)
  end.

(** Lines 200-249; [None] is [return false]. Line 212 is
    [xs.reserve(n); ys.reserve(n);] with [n] as it was read from the
    request. *)
Definition solve_one_json_string (obj_str : string) : result (option string) :=
  match index 0 (quoted "keys") obj_str with
  | None => Ok None
  | Some pos_keys =>
      match index pos_keys (quoted "n") obj_str,
            index pos_keys (quoted "k") obj_str with
      | Some pos_n, Some pos_k =>
          n <- parse_small_int_after_key obj_str pos_n ;;
          k <- parse_small_int_after_key obj_str pos_k ;;
          if (n <=? 0) || (k <=? 0) then Ok None else
          _ <- reserve sizeof_int n ;;
          _ <- reserve sizeof_cpp_int n ;;
          pts <- parse_points obj_str 1 (Z.to_nat n) [] [] ;;
          match pts with
          | None => Ok None
          | Some (xs, ys) => r <- solve_points xs ys k ;; Ok (snd r)
          end
      | _, _ => Ok None
      end
  end.

(** ** The program (code.cpp, lines 252-286) *)

(** What a run leaves behind: the text that the program has flushed to
    the standard output, and how the process ended, with an exit code or
    with an exception that nothing caught.

    Lines 253-254 detach [cout] from C's [stdout] and from [cin], every
    line is ended with ["\n"] and not with [endl], and nothing calls
    [flush]: what is sent to [cout] stays in the buffer of the stream until
    [main] returns and the stream is flushed with the program's exit. An
    exception that nothing catches ends the process through
    [std::terminate], which flushes nothing: the buffer is lost. (A
    buffer that is full passes its content on by itself; when that
    happens is the library's matter and is not recorded: the buffer is
    taken to hold the lines of a run.) *)
Record run : Type := MkRun { stdout : string; ending : result Z }.

(** Lines 273-285; [out] is what the buffer of [cout] holds. *)
Fixpoint main_loop (objects : list string) (out : string) (anyPrinted : bool)
  : run :=
  match objects with
  | [] => MkRun out (Ok (if anyPrinted then 0 else 1))
  | obj :: objects' =>
      match solve_one_json_string obj with
      | Err e => MkRun EmptyString (Err e)
      | Ok (Some cstr) =>
          main_loop objects' (out ++ cstr ++ newline)%string true
      | Ok None =>
          main_loop objects' (out ++ "ERROR" ++ newline)%string anyPrinted
      end
  end.

(** Lines 252-286; the messages on the standard error are left out. *)
Definition main (input : string) : run :=
  if (String.length input =? 0)%nat then MkRun EmptyString (Ok 1) else
  let objects := split_json_objects input in
  match objects with
  | [] => MkRun EmptyString (Ok 1)
  | _ => main_loop objects EmptyString false
  end.

(** ** The older variant (src/unnamed/part_000)

    It differs from code.cpp in the last loop of [interpolate_and_check]
    only, lines 163-168:
    [if (!out_coeff[i].isInteger()) return false;]
    [if (out_coeff[i].num <= 0) return false;] *)
Module Original.

Definition rejected (f : Frac) : bool :=
  if negb (isInteger f) then true else num f <=? 0.

Definition interpolate_and_check := interpolate_and_check_with rejected.

Definition find_valid_constant := find_valid_constant_with interpolate_and_check.

End Original.

(* ================================================================== *)
(** * Notions in which the properties are stated *)

(** ** The rational number that a fraction stands for *)

Definition ZtoQc (z : Z) : Qc := Q2Qc (inject_Z z).

Definition toQc (f : Frac) : Qc := (ZtoQc (num f) / ZtoQc (den f))%Qc.

(** ** Matrices of fractions *)

Definition Frac0 : Frac := MkFrac 0 1.

Definition entry (A : Matrix) (r c : nat) : Frac := nth c (nth r A []) Frac0.

Definition mxq (A : Matrix) (r c : nat) : Qc := toQc (entry A r c).

(** [k] rows of [k + 1] fractions that satisfy the invariant. *)
Definition mx_wf (k : nat) (A : Matrix) : Prop :=
  length A = k /\
  forall r, (r < k)%nat ->
    length (nth r A []) = (k + 1)%nat /\
    forall c, (c <= k)%nat -> Frac_wf (entry A r c).

(** ** The row operations on matrices of rationals *)

Definition QMatrix : Type := nat -> nat -> Qc.

Definition swap_index (i j r : nat) : nat :=
  if (r =? i)%nat then j else if (r =? j)%nat then i else r.

Definition q_swap (i j : nat) (M : QMatrix) : QMatrix :=
  fun r c => M (swap_index i j r) c.

(** Row [row] is divided by its entry in column [col], from column [col]
    on. *)
Definition q_normalize (row col : nat) (M : QMatrix) : QMatrix :=
  fun r c =>
    if (r =? row)%nat && (col <=? c)%nat then (M r c / M row col)%Qc
    else M r c.

(** From every other row, its entry in column [col] times row [row] is
    subtracted, from column [col] on. *)
Definition q_eliminate (row col : nat) (M : QMatrix) : QMatrix :=
  fun r c =>
    if negb (r =? row)%nat && (col <=? c)%nat
    then (M r c - M r col * M row c)%Qc
    else M r c.

Definition q_step (row col sel : nat) (M : QMatrix) : QMatrix :=
  q_eliminate row col (q_normalize row col (q_swap sel row M)).

(** [A] holds the rationals [M]. *)
Definition mx_is (k : nat) (A : Matrix) (M : QMatrix) : Prop :=
  forall r c, (r < k)%nat -> (c <= k)%nat -> mxq A r c = M r c.

(** ** Sums and polynomials over the rationals *)

Fixpoint sumQc (n : nat) (f : nat -> Qc) : Qc :=
  match n with
  | O => 0%Qc
  | S n' => (sumQc n' f + f n')%Qc
  end.

(** Horner evaluation of the polynomial with coefficient list [p], constant
    term first. *)
Fixpoint peval (p : list Qc) (x : Qc) : Qc :=
  match p with
  | [] => 0%Qc
  | c :: p' => (c + x * peval p' x)%Qc
  end.

(** Division of [p] by [X - a]: quotient and remainder. *)
Fixpoint sdiv (a : Qc) (p : list Qc) : list Qc * Qc :=
  match p with
  | [] => ([], 0%Qc)
  | c :: p' =>
      match p' with
      | [] => ([], c)
      | _ :: _ => let (q, r) := sdiv a p' in (r :: q, (c + a * r)%Qc)
      end
  end.

(** ** What the elimination maintains

    After [col] columns, the first [col] columns are those of the identity
    matrix; a vector that solved the system still solves it; and only the
    zero vector is sent to zero by the left [k] columns. *)

Definition delta (r j : nat) : Qc := if (r =? j)%nat then 1%Qc else 0%Qc.

Definition dot (k : nat) (M : QMatrix) (r : nat) (v : nat -> Qc) : Qc :=
  sumQc k (fun j => (M r j * v j)%Qc).

Definition reduced_upto (k col : nat) (M : QMatrix) : Prop :=
  forall r j, (r < k)%nat -> (j < col)%nat -> M r j = delta r j.

Definition solves (k : nat) (M : QMatrix) (v : nat -> Qc) : Prop :=
  forall r, (r < k)%nat -> dot k M r v = M r k.

Definition regular (k : nat) (M : QMatrix) : Prop :=
  forall v, (forall r, (r < k)%nat -> dot k M r v = 0%Qc) ->
            forall j, (j < k)%nat -> v j = 0%Qc.

(** ** Polynomials with integer coefficients *)

(** [c_j * x^j + c_(j+1) * x^(j+1) + ...] for the coefficients [cs] from
    degree [j] on. *)
Fixpoint eval_poly_from (cs : list Z) (j : nat) (x : Z) : Z :=
  match cs with
  | [] => 0
  | c :: cs' => c * x ^ Z.of_nat j + eval_poly_from cs' (S j) x
  end.

(** The value at [x] of the polynomial [c_0 + c_1 x + ... ]. *)
Definition eval_poly (cs : list Z) (x : Z) : Z := eval_poly_from cs 0 x.

(** ** Subsets as selection masks *)

(** The entries of [l] at the positions where [mask] is not zero. *)
Fixpoint pick (mask l : list Z) : list Z :=
  match mask, l with
  | m :: mask', x :: l' =>
      if m =? 0 then pick mask' l' else x :: pick mask' l'
  | _, _ => []
  end.

(** The masks of length [n] with [k] ones, those that select the first
    position first: the [k]-element subsets of the [n] positions in
    lexicographic order. *)
Fixpoint masks (n k : nat) : list (list Z) :=
  match n with
  | O => match k with O => [[]] | S _ => [] end
  | S n' =>
      match k with
      | O => []
      | S k' => map (cons 1) (masks n' k')
      end ++ map (cons 0) (masks n' k)
  end.

(** [l] comes before [l'] in the enumeration: at the first position where
    they differ, [l] selects and [l'] does not. *)
Inductive selects_first : list Z -> list Z -> Prop :=
| selects_here (x y : Z) (l l' : list Z) :
    y < x -> selects_first (x :: l) (y :: l')
| selects_later (x : Z) (l l' : list Z) :
    selects_first l l' -> selects_first (x :: l) (x :: l').

Definition ones (mask : list Z) : nat :=
  length (filter (fun m => negb (m =? 0)) mask).

Definition is_mask (n k : nat) (mask : list Z) : Prop :=
  length mask = n /\ Forall (fun m => m = 0 \/ m = 1) mask /\ ones mask = k.

(** Consecutive elements of [l] are linked by [prev_perm], and [final] is
    what [prev_perm] gives on the last one. *)
Fixpoint chain_to (final : option (list Z)) (l : list (list Z)) : Prop :=
  match l with
  | [] => True
  | m :: l' =>
      match l' with
      | [] => prev_perm m = final
      | m' :: _ => prev_perm m = Some m' /\ chain_to final l'
      end
  end.

(** The search as the specification words it: the subsets are tried in the
    order of the list [ms]; the first one that validates gives the result
    and ends the search. *)
Fixpoint first_accepted
  (check : list Z -> list Z -> list Frac -> result (bool * list Frac))
  (xs_full ys_full : list Z) (ms : list (list Z)) (tried : list (list Z))
  : result search_result :=
  match ms with
  | [] => Ok (MkSearch tried None)
  | m :: ms' =>
      r <- check (pick m xs_full) (pick m ys_full) [] ;;
      if fst r then
        c <- vat (snd r) 0 ;;
        Ok (MkSearch (tried ++ [m]) (Some (num c)))
      else first_accepted check xs_full ys_full ms' (tried ++ [m])
  end.

(** ** Input texts

    One request in the format of the program's input: an object with the
    entry [keys], which holds [n] and [k], and one entry per share, which
    holds the base and the digits of the value. *)

Definition json_share (idx base value : string) : string :=
  (quoted idx ++ ": {" ++ quoted "base" ++ ": " ++ quoted base ++ ", "
   ++ quoted "value" ++ ": " ++ quoted value ++ "}")%string.

Definition json_request (n k : string) (shares : list string) : string :=
  ("{" ++ quoted "keys" ++ ": {" ++ quoted "n" ++ ": " ++ n ++ ", "
   ++ quoted "k" ++ ": " ++ k ++ "}"
   ++ fold_right (fun sh acc => ", " ++ sh ++ acc) EmptyString shares
   ++ "}")%string.

(** ** The polynomial with given roots *)

(** The coefficients of [carry + (X - a) * p]. *)
Fixpoint plin (a carry : Qc) (p : list Qc) : list Qc :=
  match p with
  | [] => [carry]
  | c :: p' => (carry - a * c)%Qc :: plin a c p'
  end.

(** The coefficients of the product of the [X - a] for [a] in [l]. *)
Definition roots_poly (l : list Qc) : list Qc :=
  fold_right (fun a p => plin a 0%Qc p) [1%Qc] l.

(** ** Strings *)

Fixpoint string_forallb (p : ascii -> bool) (s : string) : bool :=
  match s with
  | EmptyString => true
  | String c s' => p c && string_forallb p s'
  end.

Fixpoint string_map (f : ascii -> ascii) (s : string) : string :=
  match s with
  | EmptyString => EmptyString
  | String c s' => String (f c) (string_map f s')
  end.

(** The upper-case letter for a lower-case one, every other character
    unchanged. *)
Definition toupper (c : ascii) : ascii :=
  let n := nat_of_ascii c in
  if (97 <=? n)%nat && (n <=? 122)%nat then ascii_of_nat (n - 32) else c.

(** The number of characters of [s] that are not white space. *)
Fixpoint digit_count (s : string) : nat :=
  match s with
  | EmptyString => O
  | String c s' => if isspace c then digit_count s' else S (digit_count s')
  end.

(** ** Objects in the input text *)





(** ** The lines of the output *)



(** No white space at the head of [s]. *)
Definition starts_clean (s : string) : bool :=
  match s with
  | EmptyString => true
  | String c _ => negb (isspace c)
  end.

(** ** Texts without a given character *)

Definition char_free (c : ascii) (s : string) : bool :=
  string_forallb (fun x => negb (Ascii.eqb x c)) s.

(** The characters that line 55 takes for part of a number. *)
Definition number_char (c : ascii) : bool :=
  Ascii.eqb c "-"%char || isdigit c.

(** The head of [s], if any, is not a character that [p] holds of. *)
Definition stops (p : ascii -> bool) (s : string) : bool :=
  match s with
  | EmptyString => true
  | String c _ => negb (p c)
  end.

(** ** Case analysis on comparisons of indices *)

Ltac nat_cases :=
  repeat match goal with
  | |- context [(?a =? ?b)%nat] => destruct (Nat.eqb_spec a b)
  | |- context [(?a <=? ?b)%nat] => destruct (Nat.leb_spec a b)
  | |- context [(?a <? ?b)%nat] => destruct (Nat.ltb_spec a b)
  end; cbn [andb negb]; try lia.

(* ================================================================== *)
(** * Properties *)

Lemma bind_Ok_inv {A B : Type} (m : result A) (f : A -> result B) (b : B) :
  bind m f = Ok b -> exists a, m = Ok a /\ f a = Ok b.
Proof.
  destruct m as [a|e]; simpl; intros H; [eauto | discriminate].
Qed.

(** ** Euclid's loop *)

Lemma rem_halves (a b : Z) : 0 < b <= a -> 2 * (a mod b) < a.
Proof.
  intros H.
  pose proof (Z.mod_pos_bound a b ltac:(lia)) as Hm.
  pose proof (Z.div_mod a b ltac:(lia)) as Hd.
  assert (1 <= a / b) by (apply Z.div_le_lower_bound; lia).
  nia.
Qed.

Lemma gcd_loop_S (fuel : nat) (a b : Z) :
  gcd_loop (S fuel) a b = if b =? 0 then Ok a else gcd_loop fuel b (Z.rem a b).
Proof. reflexivity. Qed.

Lemma gcd_loop_spec (n : nat) : forall a b,
  0 <= a -> 0 <= b < 2 ^ Z.of_nat n ->
  gcd_loop (S (2 * n)) a b = Ok (Z.gcd a b).
Proof.
  induction n as [|n IH]; intros a b Ha Hb.
  - assert (b = 0) by (simpl in Hb; lia). subst b. simpl.
    rewrite Z.gcd_0_r, Z.abs_eq by lia. reflexivity.
  - replace (S (2 * S n)) with (S (S (S (2 * n)))) by lia.
    rewrite 2 gcd_loop_S.
    destruct (Z.eqb_spec b 0) as [->|Hb0].
    + rewrite Z.gcd_0_r, Z.abs_eq by lia. reflexivity.
    + rewrite Z.rem_mod_nonneg by lia.
      pose proof (Z.mod_pos_bound a b ltac:(lia)) as Hr.
      assert (Hg : Z.gcd b (a mod b) = Z.gcd a b).
      { rewrite (Z.gcd_comm a b), (Z.gcd_comm b (a mod b)).
        apply Z.gcd_mod; lia. }
      destruct (Z.eqb_spec (a mod b) 0) as [Hr0|Hr0].
      * rewrite <- Hg, Hr0, Z.gcd_0_r, Z.abs_eq by lia. reflexivity.
      * rewrite Z.rem_mod_nonneg by lia.
        rewrite IH.
        -- f_equal. rewrite <- Hg.
           rewrite (Z.gcd_comm b (a mod b)), (Z.gcd_comm (a mod b) (b mod _)).
           apply Z.gcd_mod; lia.
        -- lia.
        -- pose proof (Z.mod_pos_bound b (a mod b) ltac:(lia)).
           pose proof (rem_halves b (a mod b) ltac:(lia)).
           rewrite Nat2Z.inj_succ, Z.pow_succ_r in Hb by lia. lia.
Qed.

Lemma gcd_abs_spec (a b : Z) : gcd_abs a b = Ok (Z.gcd a b).
Proof.
  unfold gcd_abs, gcd_fuel.
  set (a' := if a <? 0 then - a else a).
  set (b' := if b <? 0 then - b else b).
  assert (Ha : a' = Z.abs a) by (subst a'; destruct (Z.ltb_spec a 0); lia).
  assert (Hb : b' = Z.abs b) by (subst b'; destruct (Z.ltb_spec b 0); lia).
  rewrite gcd_loop_spec.
  - rewrite Ha, Hb, Z.gcd_abs_l, Z.gcd_abs_r. reflexivity.
  - lia.
  - split; [lia|].
    rewrite Z2Nat.id by (pose proof (Z.log2_nonneg b'); lia).
    destruct (Z.eq_dec b' 0) as [->|Hn]; [reflexivity|].
    apply Z.log2_spec. lia.
Qed.


(** ** The constructor and the operators *)

Lemma Frac_ctor_ok (n d : Z) :
  d <> 0 ->
  exists f, Frac_ctor n d = Ok f /\ Frac_wf f /\ num f * d = n * den f.
Proof.
  intros Hd. unfold Frac_ctor.
  destruct (Z.eqb_spec d 0) as [|_]; [contradiction|].
  rewrite gcd_abs_spec. cbn [bind].
  set (n1 := if d <? 0 then - n else n).
  set (d1 := if d <? 0 then - d else d).
  set (a := if n1 <? 0 then - n1 else n1).
  assert (Ha : a = Z.abs n1) by (subst a; destruct (Z.ltb_spec n1 0); lia).
  assert (Hd1 : 0 < d1) by (subst d1; destruct (Z.ltb_spec d 0); lia).
  assert (Hnd : n1 * d = n * d1)
    by (subst n1 d1; destruct (Z.ltb_spec d 0); lia).
  rewrite Ha, Z.gcd_abs_l. clearbody n1 d1. clear a Ha.
  set (g := Z.gcd n1 d1).
  assert (Hg : 0 < g).
  { pose proof (Z.gcd_nonneg n1 d1).
    assert (g <> 0) by (intros E; apply Z.gcd_eq_0_r in E; lia). lia. }
  destruct (Z.gcd_divide_l n1 d1) as [qn Hqn].
  destruct (Z.gcd_divide_r n1 d1) as [qd Hqd].
  fold g in Hqn, Hqd.
  assert (Hone : Z.gcd (n1 / g) (d1 / g) = 1)
    by (apply Z.gcd_div_gcd; [lia | reflexivity]).
  clearbody g. subst n1 d1.
  rewrite !Z.div_mul in Hone by lia.
  eexists. split; [reflexivity|].
  unfold Frac_wf. cbn [num den].
  rewrite !Z.quot_mul by lia.
  repeat split.
  - nia.
  - rewrite Z.gcd_abs_l. exact Hone.
  - apply (Z.mul_reg_r _ _ g); [lia|].
    replace (qn * d * g) with (qn * g * d) by ring.
    replace (n * qd * g) with (n * (qd * g)) by ring.
    exact Hnd.
Qed.

Lemma Frac_ctor_wf (n d : Z) (f : Frac) : Frac_ctor n d = Ok f -> Frac_wf f.
Proof.
  intros H. destruct (Z.eq_dec d 0) as [->|Hd].
  - discriminate H.
  - destruct (Frac_ctor_ok n d Hd) as (f' & E & Hwf & _). congruence.
Qed.

Lemma Frac_wf_den_mul (a b : Frac) :
  Frac_wf a -> Frac_wf b -> den a * den b <> 0.
Proof. unfold Frac_wf. intros [Ha _] [Hb _]. nia. Qed.

Lemma Frac_wf_zero_num (f : Frac) : Frac_wf f -> num f = 0 -> den f = 1.
Proof.
  intros [Hd Hg] Hn. rewrite Hn in Hg. simpl in Hg.
  rewrite Z.abs_eq in Hg; lia.
Qed.

(** C4. Every fraction that the constructor or one of the four operators
    produces is in lowest terms with a positive denominator: the constructor
    succeeds on every non-zero denominator, the operators succeed on
    operands that satisfy the invariant (division on a divisor with a
    non-zero numerator), and whatever any of them returns satisfies
    [gcd(|num|, den) = 1] and [den > 0]; a zero numerator comes with
    denominator 1, and the sign of the value is the sign of the numerator. *)
Theorem frac_always_reduced :
  (forall n d, d <> 0 ->
     exists f, Frac_ctor n d = Ok f /\
       Z.gcd (Z.abs (num f)) (den f) = 1 /\ 0 < den f /\
       (n = 0 -> num f = 0 /\ den f = 1) /\
       Z.sgn (num f) = Z.sgn n * Z.sgn d) /\
  (forall a b, Frac_wf a -> Frac_wf b ->
     (exists f, Frac_add a b = Ok f) /\
     (exists f, Frac_sub a b = Ok f) /\
     (exists f, Frac_mul a b = Ok f) /\
     (num b <> 0 -> exists f, Frac_div a b = Ok f)) /\
  (forall n d a b f,
     Frac_ctor n d = Ok f \/ Frac_add a b = Ok f \/ Frac_sub a b = Ok f \/
     Frac_mul a b = Ok f \/ Frac_div a b = Ok f ->
     Z.gcd (Z.abs (num f)) (den f) = 1 /\ 0 < den f /\
     (num f = 0 -> den f = 1)).
Proof.
  split; [|split].
  - intros n d Hd.
    destruct (Frac_ctor_ok n d Hd) as (f & E & [Hpos Hg] & Hx).
    exists f. repeat split; try assumption.
    + subst n. nia.
    + subst n. assert (num f = 0) by nia.
      apply Frac_wf_zero_num; [split|]; assumption.
    + assert (Z.sgn (num f) * Z.sgn d = Z.sgn n * Z.sgn (den f))
        by (rewrite <- !Z.sgn_mul; congruence).
      rewrite (Z.sgn_pos (den f)) in H by lia.
      destruct (Z.sgn_spec d) as [[? E1]|[[? E1]|[? E1]]]; rewrite E1 in *; lia.
  - intros a b Ha Hb. pose proof (Frac_wf_den_mul a b Ha Hb) as Hab.
    repeat split.
    + destruct (Frac_ctor_ok (num a * den b + num b * den a) _ Hab)
        as (f & E & _). exists f. exact E.
    + destruct (Frac_ctor_ok (num a * den b - num b * den a) _ Hab)
        as (f & E & _). exists f. exact E.
    + destruct (Frac_ctor_ok (num a * num b) _ Hab) as (f & E & _).
      exists f. exact E.
    + intros Hn. unfold Frac_div.
      destruct (Z.eqb_spec (num b) 0) as [|_]; [contradiction|].
      destruct Ha as [Ha _].
      destruct (Frac_ctor_ok (num a * den b) (den a * num b)) as (f & E & _);
        [nia|]. exists f. exact E.
  - intros n d a b f H.
    assert (Hwf : Frac_wf f).
    { destruct H as [H|[H|[H|[H|H]]]].
      - exact (Frac_ctor_wf _ _ _ H).
      - exact (Frac_ctor_wf _ _ _ H).
      - exact (Frac_ctor_wf _ _ _ H).
      - exact (Frac_ctor_wf _ _ _ H).
      - unfold Frac_div in H. destruct (num b =? 0); [discriminate|].
        exact (Frac_ctor_wf _ _ _ H). }
    destruct Hwf as [Hpos Hg]. repeat split; try assumption.
    intros Hn. apply Frac_wf_zero_num; [split|]; assumption.
Qed.

(** ** Fractions as rational numbers *)

Lemma ZtoQc_add (a b : Z) : ZtoQc (a + b) = (ZtoQc a + ZtoQc b)%Qc.
Proof.
  unfold ZtoQc, Qcplus. apply Q2Qc_eq_iff. cbn [this Q2Qc].
  rewrite !Qred_correct, inject_Z_plus. reflexivity.
Qed.

Lemma ZtoQc_mul (a b : Z) : ZtoQc (a * b) = (ZtoQc a * ZtoQc b)%Qc.
Proof.
  unfold ZtoQc, Qcmult. apply Q2Qc_eq_iff. cbn [this Q2Qc].
  rewrite !Qred_correct, inject_Z_mult. reflexivity.
Qed.

Lemma ZtoQc_opp (a : Z) : ZtoQc (- a) = (- ZtoQc a)%Qc.
Proof.
  assert (H : (ZtoQc (- a) + ZtoQc a = 0)%Qc).
  { rewrite <- ZtoQc_add. replace (- a + a) with 0 by ring. reflexivity. }
  transitivity (ZtoQc (- a) + ZtoQc a - ZtoQc a)%Qc; [ring|].
  rewrite H. ring.
Qed.

Lemma ZtoQc_sub (a b : Z) : ZtoQc (a - b) = (ZtoQc a - ZtoQc b)%Qc.
Proof.
  unfold Z.sub, Qcminus. rewrite ZtoQc_add, ZtoQc_opp. reflexivity.
Qed.

Lemma ZtoQc_inj (a b : Z) : ZtoQc a = ZtoQc b -> a = b.
Proof.
  unfold ZtoQc. intros H. apply Q2Qc_eq_iff in H.
  apply inject_Z_injective. exact H.
Qed.

Lemma ZtoQc_0 : ZtoQc 0 = 0%Qc.
Proof. reflexivity. Qed.

Lemma ZtoQc_1 : ZtoQc 1 = 1%Qc.
Proof. apply Qc_is_canon. reflexivity. Qed.

Lemma ZtoQc_nonzero (a : Z) : a <> 0 -> ZtoQc a <> 0%Qc.
Proof. intros Ha E. apply Ha, ZtoQc_inj. exact E. Qed.

Lemma ZtoQc_pow (x : Z) (j : nat) : ZtoQc (x ^ Z.of_nat j) = (ZtoQc x ^ j)%Qc.
Proof.
  induction j as [|j IH].
  - simpl. apply ZtoQc_1.
  - rewrite Nat2Z.inj_succ, Z.pow_succ_r by lia.
    rewrite ZtoQc_mul, IH. reflexivity.
Qed.

Lemma toQc_cross (f : Frac) (n d : Z) :
  den f <> 0 -> d <> 0 -> num f * d = n * den f ->
  toQc f = (ZtoQc n / ZtoQc d)%Qc.
Proof.
  intros Hf Hd H. unfold toQc.
  apply (f_equal ZtoQc) in H. rewrite !ZtoQc_mul in H.
  pose proof (ZtoQc_nonzero _ Hf). pose proof (ZtoQc_nonzero _ Hd).
  transitivity (ZtoQc (num f) * ZtoQc d / (ZtoQc (den f) * ZtoQc d))%Qc.
  - field. split; assumption.
  - rewrite H. field. split; assumption.
Qed.

Lemma Frac_ctor_val (n d : Z) :
  d <> 0 ->
  exists f, Frac_ctor n d = Ok f /\ Frac_wf f /\
            toQc f = (ZtoQc n / ZtoQc d)%Qc.
Proof.
  intros Hd. destruct (Frac_ctor_ok n d Hd) as (f & E & Hwf & Hx).
  exists f. repeat split; try assumption; try apply Hwf.
  apply toQc_cross; [destruct Hwf; lia | exact Hd | exact Hx].
Qed.

Lemma Frac_wf_den (f : Frac) : Frac_wf f -> ZtoQc (den f) <> 0%Qc.
Proof. intros [H _]. apply ZtoQc_nonzero. lia. Qed.

Lemma Frac_ctor_int (z : Z) :
  exists f, Frac_ctor z 1 = Ok f /\ Frac_wf f /\ toQc f = ZtoQc z.
Proof.
  destruct (Frac_ctor_val z 1 ltac:(lia)) as (f & E & Hwf & Hv).
  exists f. repeat split; try assumption; try apply Hwf.
  rewrite Hv, ZtoQc_1. field. apply Q_apart_0_1.
Qed.

Lemma Frac_sub_val (a b : Frac) :
  Frac_wf a -> Frac_wf b ->
  exists f, Frac_sub a b = Ok f /\ Frac_wf f /\
            toQc f = (toQc a - toQc b)%Qc.
Proof.
  intros Ha Hb. unfold Frac_sub.
  destruct (Frac_ctor_val (num a * den b - num b * den a) (den a * den b))
    as (f & E & Hwf & Hv); [apply Frac_wf_den_mul; assumption|].
  exists f. repeat split; try assumption; try apply Hwf.
  rewrite Hv. unfold toQc. rewrite ZtoQc_sub, !ZtoQc_mul.
  pose proof (Frac_wf_den a Ha). pose proof (Frac_wf_den b Hb).
  field. split; assumption.
Qed.

Lemma Frac_mul_val (a b : Frac) :
  Frac_wf a -> Frac_wf b ->
  exists f, Frac_mul a b = Ok f /\ Frac_wf f /\
            toQc f = (toQc a * toQc b)%Qc.
Proof.
  intros Ha Hb. unfold Frac_mul.
  destruct (Frac_ctor_val (num a * num b) (den a * den b))
    as (f & E & Hwf & Hv); [apply Frac_wf_den_mul; assumption|].
  exists f. repeat split; try assumption; try apply Hwf.
  rewrite Hv. unfold toQc. rewrite !ZtoQc_mul.
  pose proof (Frac_wf_den a Ha). pose proof (Frac_wf_den b Hb).
  field. split; assumption.
Qed.

Lemma Frac_div_val (a b : Frac) :
  Frac_wf a -> Frac_wf b -> num b <> 0 ->
  exists f, Frac_div a b = Ok f /\ Frac_wf f /\
            toQc f = (toQc a / toQc b)%Qc.
Proof.
  intros Ha Hb Hn. unfold Frac_div.
  destruct (Z.eqb_spec (num b) 0) as [|_]; [contradiction|].
  destruct (Frac_ctor_val (num a * den b) (den a * num b))
    as (f & E & Hwf & Hv); [destruct Ha; nia|].
  exists f. repeat split; try assumption; try apply Hwf.
  rewrite Hv. unfold toQc. rewrite !ZtoQc_mul.
  pose proof (Frac_wf_den a Ha). pose proof (Frac_wf_den b Hb).
  pose proof (ZtoQc_nonzero _ Hn).
  field. repeat split; assumption.
Qed.

Lemma toQc_zero_iff (f : Frac) : Frac_wf f -> (num f = 0 <-> toQc f = 0%Qc).
Proof.
  intros Hwf. pose proof (Frac_wf_den f Hwf) as Hd. unfold toQc. split.
  - intros ->. rewrite ZtoQc_0. field. exact Hd.
  - intros E. apply ZtoQc_inj. rewrite ZtoQc_0.
    transitivity (ZtoQc (den f) * (ZtoQc (num f) / ZtoQc (den f)))%Qc.
    + field. exact Hd.
    + rewrite E. ring.
Qed.

(** A fraction in lowest terms is an integer exactly when its denominator
    is 1, and then the numerator is that integer. *)
Lemma toQc_integer (f : Frac) (z : Z) :
  Frac_wf f -> toQc f = ZtoQc z -> num f = z /\ den f = 1.
Proof.
  intros Hwf E. pose proof (Frac_wf_den f Hwf) as Hd.
  assert (Hx : num f = z * den f).
  { apply ZtoQc_inj. rewrite ZtoQc_mul, <- E. unfold toQc. field. exact Hd. }
  destruct Hwf as [Hpos Hg].
  assert (Hone : den f = 1).
  { rewrite Hx, Z.gcd_abs_l in Hg.
    rewrite Z.gcd_comm, (Z.mul_comm z), Z.gcd_mul_diag_l in Hg; lia. }
  split; [rewrite Hx, Hone; ring | exact Hone].
Qed.

Lemma isInteger_iff (f : Frac) :
  Frac_wf f -> (isInteger f = true <-> exists z, toQc f = ZtoQc z).
Proof.
  intros Hwf. unfold isInteger. rewrite Z.eqb_eq. split.
  - intros H. exists (num f). unfold toQc. rewrite H, ZtoQc_1.
    field. apply Q_apart_0_1.
  - intros [z E]. apply (toQc_integer f z Hwf E).
Qed.

(** ** Vectors, matrices and counted loops *)

Lemma vat_nth {A : Type} (v : list A) (i : nat) (d : A) :
  (i < length v)%nat -> vat v i = Ok (nth i v d).
Proof.
  intros H. unfold vat.
  rewrite (nth_error_nth' v d H). reflexivity.
Qed.

Lemma length_upd {A : Type} (v : list A) (i : nat) (a : A) :
  length (upd v i a) = length v.
Proof.
  revert i. induction v as [|b v IH]; intros [|i]; simpl; auto.
Qed.

Lemma nth_upd_same {A : Type} (v : list A) (i : nat) (a d : A) :
  (i < length v)%nat -> nth i (upd v i a) d = a.
Proof.
  revert i. induction v as [|b v IH]; intros [|i] H; simpl in *;
    try lia; auto. apply IH. lia.
Qed.

Lemma nth_upd_other {A : Type} (v : list A) (i j : nat) (a d : A) :
  i <> j -> nth j (upd v i a) d = nth j v d.
Proof.
  revert i j. induction v as [|b v IH]; intros [|i] [|j] H; simpl;
    try reflexivity; try congruence. apply IH. congruence.
Qed.

Lemma vset_ok {A : Type} (v : list A) (i : nat) (a : A) :
  (i < length v)%nat -> vset v i a = Ok (upd v i a).
Proof.
  intros H. unfold vset.
  destruct (Nat.ltb_spec i (length v)); [reflexivity | lia].
Qed.

(** The invariant rule for counted loops. *)
Lemma for_loop_inv {St : Type} (body : nat -> St -> result St)
  (P : nat -> St -> Prop) (cnt : nat) : forall (i : nat) (s : St),
  P i s ->
  (forall j t, (i <= j < i + cnt)%nat -> P j t ->
     exists t', body j t = Ok t' /\ P (S j) t') ->
  exists s', for_loop body i cnt s = Ok s' /\ P (i + cnt)%nat s'.
Proof.
  induction cnt as [|cnt IH]; intros i s Hs Hbody.
  - exists s. rewrite Nat.add_0_r. split; [reflexivity | exact Hs].
  - destruct (Hbody i s ltac:(lia) Hs) as (t & Et & Ht).
    destruct (IH (S i) t Ht) as (s' & Es & Hs').
    { intros j u Hj Hu. apply Hbody; [lia | exact Hu]. }
    exists s'. cbn [for_loop]. rewrite Et. cbn [bind].
    split; [exact Es|]. replace (i + S cnt)%nat with (S i + cnt)%nat by lia.
    exact Hs'.
Qed.

Lemma mx_wf_row (k : nat) (A : Matrix) (r : nat) :
  mx_wf k A -> (r < k)%nat ->
  (r < length A)%nat /\ length (nth r A []) = (k + 1)%nat.
Proof.
  intros [HA Hrows] Hr. split; [lia | apply Hrows, Hr].
Qed.

Lemma mget_ok (k : nat) (A : Matrix) (r c : nat) :
  mx_wf k A -> (r < k)%nat -> (c <= k)%nat -> mget A r c = Ok (entry A r c).
Proof.
  intros Hwf Hr Hc. destruct (mx_wf_row k A r Hwf Hr) as [H1 H2].
  unfold mget, entry. rewrite (vat_nth A r [] H1). cbn [bind].
  apply vat_nth. lia.
Qed.

Lemma entry_wf (k : nat) (A : Matrix) (r c : nat) :
  mx_wf k A -> (r < k)%nat -> (c <= k)%nat -> Frac_wf (entry A r c).
Proof. intros [_ H] Hr Hc. apply H; assumption. Qed.

Lemma mx_wf_upd (k : nat) (A : Matrix) (r : nat) (row : list Frac) :
  mx_wf k A -> (r < k)%nat -> length row = (k + 1)%nat ->
  (forall c, (c <= k)%nat -> Frac_wf (nth c row Frac0)) ->
  mx_wf k (upd A r row).
Proof.
  intros [HA Hrows] Hr Hlen Hrow. split; [rewrite length_upd; exact HA|].
  intros r' Hr'. unfold entry. destruct (Nat.eq_dec r r') as [<-|Hne].
  - rewrite nth_upd_same by lia. split; [exact Hlen | exact Hrow].
  - rewrite nth_upd_other by exact Hne. apply Hrows, Hr'.
Qed.

Lemma mset_ok (k : nat) (A : Matrix) (r c : nat) (v : Frac) :
  mx_wf k A -> (r < k)%nat -> (c <= k)%nat -> Frac_wf v ->
  exists A', mset A r c v = Ok A' /\ mx_wf k A' /\
    entry A' r c = v /\
    forall r' c', r' <> r \/ c' <> c -> entry A' r' c' = entry A r' c'.
Proof.
  intros Hwf Hr Hc Hv. destruct (mx_wf_row k A r Hwf Hr) as [H1 H2].
  exists (upd A r (upd (nth r A []) c v)).
  unfold mset. rewrite (vat_nth A r [] H1). cbn [bind].
  rewrite vset_ok by lia. cbn [bind]. rewrite vset_ok by exact H1.
  split; [reflexivity|]. split; [|split].
  - apply mx_wf_upd; try assumption.
    + rewrite length_upd. exact H2.
    + intros c' Hc'. destruct (Nat.eq_dec c c') as [<-|Hne].
      * rewrite nth_upd_same by lia. exact Hv.
      * rewrite nth_upd_other by exact Hne.
        apply (entry_wf k A r c' Hwf Hr Hc').
  - unfold entry. rewrite !nth_upd_same by lia. reflexivity.
  - intros r' c' Hne. unfold entry.
    destruct (Nat.eq_dec r r') as [<-|Hr'].
    + rewrite nth_upd_same by exact H1.
      rewrite nth_upd_other by (intros ->; destruct Hne; congruence).
      reflexivity.
    + rewrite nth_upd_other by exact Hr'. reflexivity.
Qed.

Lemma swap_rows_ok (k : nat) (A : Matrix) (i j : nat) :
  mx_wf k A -> (i < k)%nat -> (j < k)%nat ->
  exists A', swap_rows A i j = Ok A' /\ mx_wf k A' /\
    forall r c, entry A' r c = entry A (swap_index i j r) c.
Proof.
  intros Hwf Hi Hj.
  destruct (mx_wf_row k A i Hwf Hi) as [Hi1 Hi2].
  destruct (mx_wf_row k A j Hwf Hj) as [Hj1 Hj2].
  exists (upd (upd A i (nth j A [])) j (nth i A [])).
  unfold swap_rows.
  rewrite (vat_nth A i [] Hi1), (vat_nth A j [] Hj1). cbn [bind].
  rewrite vset_ok by exact Hi1. cbn [bind].
  rewrite vset_ok by (rewrite length_upd; exact Hj1).
  split; [reflexivity|]. split.
  - apply mx_wf_upd; try assumption.
    + apply mx_wf_upd; try assumption.
      intros c Hc. apply (entry_wf k A j c Hwf Hj Hc).
    + intros c Hc. apply (entry_wf k A i c Hwf Hi Hc).
  - intros r c. unfold entry, swap_index.
    destruct (Nat.eqb_spec r j) as [->|Hrj].
    + rewrite nth_upd_same by (rewrite length_upd; exact Hj1).
      destruct (Nat.eqb_spec j i) as [->|_]; reflexivity.
    + rewrite nth_upd_other by congruence.
      destruct (Nat.eqb_spec r i) as [->|Hri].
      * rewrite nth_upd_same by exact Hi1. reflexivity.
      * rewrite nth_upd_other by congruence. reflexivity.
Qed.

(** ** Building the augmented Vandermonde matrix *)

Lemma mx_wf_repeat (k : nat) (z : Frac) :
  Frac_wf z -> mx_wf k (repeat (repeat z (k + 1)%nat) k).
Proof.
  intros Hz. split; [apply repeat_length|].
  intros r Hr. unfold entry.
  assert (E : nth r (repeat (repeat z (k + 1)%nat) k) [] = repeat z (k + 1)%nat).
  { apply nth_repeat_lt. exact Hr. }
  rewrite E. split; [apply repeat_length|].
  intros c Hc. rewrite nth_repeat_lt by lia. exact Hz.
Qed.

Lemma fill_row_ok (xs ys : list Z) (k i : nat) (A : Matrix) :
  mx_wf k A -> (i < k)%nat -> (i < length xs)%nat -> (i < length ys)%nat ->
  exists A', fill_row xs ys k i A = Ok A' /\ mx_wf k A' /\
    (forall c, (c < k)%nat -> mxq A' i c = Qcpower (ZtoQc (nth i xs 0)) c) /\
    mxq A' i k = ZtoQc (nth i ys 0) /\
    (forall r c, r <> i -> entry A' r c = entry A r c).
Proof.
  intros Hwf Hi Hxs Hys. unfold fill_row.
  set (x := nth i xs 0).
  set (body := fun (j : nat) (st : Matrix * Z) =>
     let (A0, power) := st in
     f <- Frac_ctor power 1 ;;
     A' <- mset A0 i j f ;; x0 <- vat xs i ;; Ok (A', power * x0)).
  destruct (for_loop_inv body
    (fun j st => mx_wf k (fst st) /\ snd st = x ^ Z.of_nat j /\
       (forall c, (c < j)%nat -> mxq (fst st) i c = (ZtoQc x ^ c)%Qc) /\
       (forall r c, r <> i -> entry (fst st) r c = entry A r c))
    k 0%nat (A, 1)) as ([A1 p] & E1 & Hwf1 & _ & Hpow & Hoth).
  { cbn [fst snd]. split; [exact Hwf|]. split; [reflexivity|].
    split; [intros c Hc; lia | reflexivity]. }
  { intros j [A0 p] Hj (Hwf0 & Hp & Hrow & Hoth). cbn [fst snd] in *.
    destruct (Frac_ctor_int p) as (f & Ef & Hf & Hval).
    destruct (mset_ok k A0 i j f Hwf0 Hi ltac:(lia) Hf)
      as (A' & EA' & Hwf' & Hsame & Hdiff).
    exists (A', p * x). unfold body. rewrite Ef. cbn [bind].
    rewrite EA'. cbn [bind]. rewrite (vat_nth xs i 0 Hxs). cbn [bind fst snd].
    split; [reflexivity|]. split; [exact Hwf'|]. split; [|split].
    - rewrite Hp, Nat2Z.inj_succ, Z.pow_succ_r by lia. ring.
    - intros c Hc. unfold mxq. destruct (Nat.eq_dec c j) as [->|Hne].
      + rewrite Hsame, Hval, Hp. apply ZtoQc_pow.
      + rewrite Hdiff by (right; exact Hne). apply Hrow. lia.
    - intros r c Hr. rewrite Hdiff by (left; exact Hr). apply Hoth, Hr. }
  cbn [fst snd] in *. rewrite E1. cbn [bind fst].
  rewrite (vat_nth ys i 0 Hys). cbn [bind].
  destruct (Frac_ctor_int (nth i ys 0)) as (f & Ef & Hf & Hval).
  rewrite Ef. cbn [bind].
  destruct (mset_ok k A1 i k f Hwf1 Hi ltac:(lia) Hf)
    as (A' & EA' & Hwf' & Hsame & Hdiff).
  exists A'. split; [exact EA'|]. split; [exact Hwf'|]. split; [|split].
  - intros c Hc. unfold mxq. rewrite Hdiff by (right; lia). apply Hpow, Hc.
  - unfold mxq. rewrite Hsame. exact Hval.
  - intros r c Hr. rewrite Hdiff by (left; exact Hr). apply Hoth, Hr.
Qed.

Lemma build_matrix_ok (xs ys : list Z) :
  length ys = length xs ->
  exists A, build_matrix xs ys = Ok A /\ mx_wf (length xs) A /\
    forall r, (r < length xs)%nat ->
      (forall c, (c < length xs)%nat ->
         mxq A r c = Qcpower (ZtoQc (nth r xs 0)) c) /\
      mxq A r (length xs) = ZtoQc (nth r ys 0).
Proof.
  intros Hlen. unfold build_matrix. set (k := length xs).
  destruct (Frac_ctor_int 0) as (z & Ez & Hz & _). rewrite Ez. cbn [bind].
  destruct (for_loop_inv (fill_row xs ys k)
    (fun i A => mx_wf k A /\
       forall r, (r < i)%nat ->
         (forall c, (c < k)%nat -> mxq A r c = Qcpower (ZtoQc (nth r xs 0)) c) /\
         mxq A r k = ZtoQc (nth r ys 0))
    k 0%nat (repeat (repeat z (k + 1)%nat) k)) as (A & E & Hwf & HA).
  { split; [apply mx_wf_repeat, Hz | intros r Hr; lia]. }
  { intros i A0 Hi [Hwf0 Hrows].
    destruct (fill_row_ok xs ys k i A0 Hwf0) as (A' & E' & Hwf' & Hp & Hy & Ho);
      try (subst k; lia).
    exists A'. split; [exact E'|]. split; [exact Hwf'|].
    intros r Hr. destruct (Nat.eq_dec r i) as [->|Hne].
    - split; assumption.
    - unfold mxq. split; [intros c Hc|]; rewrite Ho by exact Hne;
        apply Hrows; lia. }
  exists A. split; [exact E|]. split; [exact Hwf|]. exact HA.
Qed.

(** ** Sums *)

Lemma sumQc_ext (n : nat) (f g : nat -> Qc) :
  (forall j, (j < n)%nat -> f j = g j) -> sumQc n f = sumQc n g.
Proof.
  induction n as [|n IH]; intros H; simpl; [reflexivity|].
  rewrite IH by (intros j Hj; apply H; lia). rewrite H by lia. reflexivity.
Qed.

Lemma sumQc_scale (n : nat) (a : Qc) (f : nat -> Qc) :
  sumQc n (fun j => (a * f j)%Qc) = (a * sumQc n f)%Qc.
Proof.
  induction n as [|n IH]; simpl; [ring|]. rewrite IH. ring.
Qed.

Lemma sumQc_add (n : nat) (f g : nat -> Qc) :
  sumQc n (fun j => (f j + g j)%Qc) = (sumQc n f + sumQc n g)%Qc.
Proof.
  induction n as [|n IH]; simpl; [ring|]. rewrite IH. ring.
Qed.

Lemma sumQc_sub (n : nat) (f g : nat -> Qc) :
  sumQc n (fun j => (f j - g j)%Qc) = (sumQc n f - sumQc n g)%Qc.
Proof.
  induction n as [|n IH]; simpl; [ring|]. rewrite IH. ring.
Qed.

Lemma sumQc_zero (n : nat) (f : nat -> Qc) :
  (forall j, (j < n)%nat -> f j = 0%Qc) -> sumQc n f = 0%Qc.
Proof.
  induction n as [|n IH]; intros H; simpl; [reflexivity|].
  rewrite IH by (intros j Hj; apply H; lia). rewrite H by lia. ring.
Qed.

Lemma sumQc_delta (n i : nat) (f : nat -> Qc) :
  (i < n)%nat -> (forall j, (j < n)%nat -> j <> i -> f j = 0%Qc) ->
  sumQc n f = f i.
Proof.
  induction n as [|n IH]; intros Hi H; [lia|]. simpl.
  destruct (Nat.eq_dec i n) as [->|Hne].
  - rewrite sumQc_zero by (intros j Hj; apply H; lia). ring.
  - rewrite IH by (try lia; intros j Hj Hji; apply H; lia).
    rewrite (H n) by lia. ring.
Qed.

(** ** One column of the elimination, on rationals *)

Section Step.

Variables (k col sel : nat) (M : QMatrix).
Hypothesis Hcol : (col < k)%nat.
Hypothesis Hsel : (col <= sel < k)%nat.
Hypothesis Hpivot : M sel col <> 0%Qc.
Hypothesis Hred : reduced_upto k col M.

Local Abbreviation SW := (q_swap sel col M).
Local Abbreviation NM := (q_normalize col col (q_swap sel col M)).
Local Abbreviation EL := (q_step col col sel M).

Lemma swap_index_lt (r : nat) : (r < k)%nat -> (swap_index sel col r < k)%nat.
Proof. unfold swap_index. intros Hr. nat_cases. Qed.

Lemma swap_index_invol (r : nat) :
  swap_index sel col (swap_index sel col r) = r.
Proof.
  unfold swap_index.
  destruct (Nat.eqb_spec r sel) as [->|H1];
    [|destruct (Nat.eqb_spec r col) as [->|H2]]; nat_cases.
Qed.

Lemma step_pivot : SW col col = M sel col.
Proof. unfold q_swap, swap_index. nat_cases; congruence. Qed.

Lemma step_below_zero (r j : nat) :
  (col <= r < k)%nat -> (j < col)%nat -> M r j = 0%Qc.
Proof.
  intros Hr Hj. rewrite Hred by lia. unfold delta. nat_cases. reflexivity.
Qed.

Lemma step_pivot_row (c : nat) : NM col c = (SW col c / SW col col)%Qc.
Proof.
  unfold q_normalize. nat_cases; try reflexivity.
  assert (Hz : SW col c = 0%Qc).
  { unfold q_swap, swap_index. nat_cases; apply step_below_zero; lia. }
  rewrite Hz. field. rewrite step_pivot. exact Hpivot.
Qed.

Lemma step_E_pivot_row (c : nat) : EL col c = NM col c.
Proof.
  unfold q_step, q_eliminate. nat_cases; reflexivity.
Qed.

Lemma step_E_other (r c : nat) :
  r <> col -> EL r c = (SW r c - SW r col * NM col c)%Qc.
Proof.
  intros Hr. unfold q_step, q_eliminate.
  assert (HN : forall c', NM r c' = SW r c')
    by (intros c'; unfold q_normalize; nat_cases; reflexivity).
  nat_cases.
  - rewrite !HN. reflexivity.
  - rewrite HN, step_pivot_row.
    assert (Hz : SW col c = 0%Qc).
    { unfold q_swap, swap_index. nat_cases; apply step_below_zero; lia. }
    rewrite Hz. field. rewrite step_pivot. exact Hpivot.
Qed.

Lemma step_dot_pivot (v : nat -> Qc) :
  dot k EL col v = (dot k SW col v / SW col col)%Qc.
Proof.
  unfold dot.
  rewrite (sumQc_ext k _ (fun j => (/ SW col col * (SW col j * v j))%Qc)).
  - rewrite sumQc_scale. field. rewrite step_pivot. exact Hpivot.
  - intros j Hj. rewrite step_E_pivot_row, step_pivot_row.
    field. rewrite step_pivot. exact Hpivot.
Qed.

Lemma step_dot_other (r : nat) (v : nat -> Qc) :
  r <> col -> dot k EL r v = (dot k SW r v - SW r col * dot k EL col v)%Qc.
Proof.
  intros Hr. unfold dot.
  rewrite <- sumQc_scale, <- sumQc_sub. apply sumQc_ext. intros j Hj.
  rewrite step_E_other by exact Hr. rewrite step_E_pivot_row. ring.
Qed.

Lemma step_dot_swap (r : nat) (v : nat -> Qc) :
  dot k SW r v = dot k M (swap_index sel col r) v.
Proof. reflexivity. Qed.

Lemma step_reduced : reduced_upto k (S col) EL.
Proof.
  intros r j Hr Hj. destruct (Nat.eq_dec r col) as [->|Hne].
  - rewrite step_E_pivot_row, step_pivot_row.
    destruct (Nat.eq_dec j col) as [->|Hjc].
    + unfold delta. rewrite Nat.eqb_refl. field.
      rewrite step_pivot. exact Hpivot.
    + assert (Hz : SW col j = 0%Qc).
      { unfold q_swap, swap_index. nat_cases; apply step_below_zero; lia. }
      rewrite Hz. unfold delta. nat_cases. field.
      rewrite step_pivot. exact Hpivot.
  - rewrite step_E_other by exact Hne. rewrite step_pivot_row.
    destruct (Nat.eq_dec j col) as [->|Hjc].
    + unfold delta. nat_cases. field. rewrite step_pivot. exact Hpivot.
    + assert (Hz : SW col j = 0%Qc).
      { unfold q_swap, swap_index. nat_cases; apply step_below_zero; lia. }
      rewrite Hz.
      assert (Hs : SW r j = delta r j).
      { unfold q_swap, swap_index. nat_cases.
        - rewrite step_below_zero by lia. unfold delta. nat_cases. reflexivity.
        - apply Hred; lia. }
      rewrite Hs. field. rewrite step_pivot. exact Hpivot.
Qed.

Lemma step_solves (v : nat -> Qc) : solves k M v -> solves k EL v.
Proof.
  intros Hv.
  assert (HS : forall r, (r < k)%nat -> dot k SW r v = SW r k).
  { intros r Hr. rewrite step_dot_swap. apply Hv, swap_index_lt, Hr. }
  assert (Hp : dot k EL col v = EL col k).
  { rewrite step_dot_pivot, step_E_pivot_row, step_pivot_row, HS by lia.
    reflexivity. }
  intros r Hr. destruct (Nat.eq_dec r col) as [->|Hne]; [exact Hp|].
  rewrite step_dot_other, step_E_other, Hp, HS, step_E_pivot_row by assumption.
  reflexivity.
Qed.

Lemma step_regular : regular k M -> regular k EL.
Proof.
  intros Hreg v Hv. apply Hreg.
  assert (Hp : dot k SW col v = 0%Qc).
  { pose proof (Hv col Hcol) as H. rewrite step_dot_pivot in H.
    transitivity (SW col col * (dot k SW col v / SW col col))%Qc.
    - field. rewrite step_pivot. exact Hpivot.
    - rewrite H. ring. }
  assert (HS : forall r, (r < k)%nat -> dot k SW r v = 0%Qc).
  { intros r Hr. destruct (Nat.eq_dec r col) as [->|Hne]; [exact Hp|].
    pose proof (Hv r Hr) as H. rewrite step_dot_other in H by exact Hne.
    rewrite (Hv col Hcol) in H.
    transitivity (dot k SW r v - SW r col * 0)%Qc; [ring | exact H]. }
  intros r Hr. rewrite <- (swap_index_invol r), <- step_dot_swap.
  apply HS, swap_index_lt, Hr.
Qed.

Lemma step_solves_back (v : nat -> Qc) : solves k EL v -> solves k M v.
Proof.
  intros Hv.
  assert (Hp : dot k SW col v = SW col k).
  { pose proof (Hv col Hcol) as H.
    rewrite step_dot_pivot, step_E_pivot_row, step_pivot_row in H.
    transitivity (SW col col * (dot k SW col v / SW col col))%Qc.
    - field. rewrite step_pivot. exact Hpivot.
    - rewrite H. field. rewrite step_pivot. exact Hpivot. }
  assert (HS : forall r, (r < k)%nat -> dot k SW r v = SW r k).
  { intros r Hr. destruct (Nat.eq_dec r col) as [->|Hne]; [exact Hp|].
    pose proof (Hv r Hr) as H.
    rewrite step_dot_other, step_E_other in H by exact Hne.
    rewrite (Hv col Hcol), step_E_pivot_row in H.
    transitivity (dot k SW r v - SW r col * NM col k + SW r col * NM col k)%Qc;
      [ring|]. rewrite H. ring. }
  intros r Hr. rewrite <- (swap_index_invol r) at 1 2.
  rewrite <- step_dot_swap. apply (HS _ (swap_index_lt r Hr)).
Qed.

End Step.

(** Without a pivot in column [col] a non-zero vector would be sent to
    zero. *)
Lemma regular_has_pivot (k col : nat) (M : QMatrix) :
  (col < k)%nat -> reduced_upto k col M -> regular k M ->
  (forall r, (col <= r < k)%nat -> M r col = 0%Qc) -> False.
Proof.
  intros Hcol Hred Hreg Hzero.
  set (v := fun j : nat =>
    if (j <? col)%nat then (- M j col)%Qc
    else if (j =? col)%nat then 1%Qc else 0%Qc).
  assert (Hv : v col = 0%Qc).
  { apply Hreg; [|exact Hcol]. intros r Hr. unfold dot.
    destruct (Nat.lt_ge_cases r col) as [Hlt|Hge].
    - rewrite (sumQc_ext k _
        (fun j => ((if (j =? r)%nat then - M r col else 0) +
                   (if (j =? col)%nat then M r col else 0))%Qc)).
      + rewrite sumQc_add.
        rewrite (sumQc_delta k r) by (try lia; intros j Hj Hne; nat_cases; reflexivity).
        rewrite (sumQc_delta k col) by (try lia; intros j Hj Hne; nat_cases; reflexivity).
        rewrite !Nat.eqb_refl. ring.
      + intros j Hj. unfold v. nat_cases; subst; try ring.
        * rewrite (Hred r r) by lia. unfold delta. rewrite Nat.eqb_refl. ring.
        * rewrite (Hred r j) by lia. unfold delta. nat_cases. ring.
    - apply sumQc_zero. intros j Hj. unfold v. nat_cases.
      + subst j. rewrite Hzero by lia. ring.
      + rewrite (Hred r j) by lia. unfold delta. nat_cases. ring.
      + ring. }
  unfold v in Hv. revert Hv. nat_cases. intros Hv.
  exact (Q_apart_0_1 Hv).
Qed.

(** ** One column of the elimination, on the matrix of fractions *)

Lemma find_pivot_ok (k : nat) (A : Matrix) (col : nat) :
  mx_wf k A -> (col <= k)%nat ->
  forall cnt r sel0, (r + cnt <= k)%nat ->
  exists sel, find_pivot A col r cnt sel0 = Ok sel /\
    (((r <= sel < r + cnt)%nat /\ num (entry A sel col) <> 0) \/
     (sel = sel0 /\
      forall r', (r <= r' < r + cnt)%nat -> num (entry A r' col) = 0)).
Proof.
  intros Hwf Hcol. induction cnt as [|cnt IH]; intros r sel0 Hr.
  - exists sel0. split; [reflexivity|]. right. split; [reflexivity|].
    intros r' Hr'. lia.
  - cbn [find_pivot]. rewrite (mget_ok k) by (try assumption; lia).
    cbn [bind]. destruct (Z.eqb_spec (num (entry A r col)) 0) as [Hz|Hnz].
    + destruct (IH (S r) sel0 ltac:(lia)) as (sel & E & H).
      exists sel. split; [exact E|]. destruct H as [[H1 H2]|[H1 H2]].
      * left. split; [lia | exact H2].
      * right. split; [exact H1|]. intros r' Hr'.
        destruct (Nat.eq_dec r' r) as [->|Hne]; [exact Hz | apply H2; lia].
    + exists r. split; [reflexivity|]. left. split; [lia | exact Hnz].
Qed.

Lemma normalize_row_ok (k row col : nat) (pivot : Frac) (A : Matrix) :
  mx_wf k A -> (row < k)%nat -> (col <= k)%nat ->
  Frac_wf pivot -> num pivot <> 0 -> toQc pivot = mxq A row col ->
  exists A', normalize_row k row col pivot A = Ok A' /\ mx_wf k A' /\
             mx_is k A' (q_normalize row col (mxq A)).
Proof.
  intros Hwf Hrow Hcol Hp Hpn Hpv. unfold normalize_row.
  destruct (for_loop_inv
    (fun c A0 => a <- mget A0 row c ;; v <- Frac_div a pivot ;; mset A0 row c v)
    (fun j A0 => mx_wf k A0 /\
       forall r c, (r < k)%nat -> (c <= k)%nat ->
         mxq A0 r c =
         if (r =? row)%nat && (col <=? c)%nat && (c <? j)%nat
         then (mxq A r c / mxq A row col)%Qc else mxq A r c)
    (k + 1 - col)%nat col A) as (A' & E & Hwf' & HA').
  { split; [exact Hwf|]. intros r c Hr Hc. nat_cases; subst; reflexivity. }
  { intros j A0 Hj [Hwf0 H0].
    rewrite (mget_ok k) by (try assumption; lia). cbn [bind].
    destruct (Frac_div_val (entry A0 row j) pivot) as (f & Ef & Hf & Hv);
      [apply (entry_wf k); try assumption; lia | exact Hp | exact Hpn |].
    rewrite Ef. cbn [bind].
    destruct (mset_ok k A0 row j f Hwf0 Hrow ltac:(lia) Hf)
      as (A1 & E1 & Hwf1 & Hsame & Hdiff).
    exists A1. split; [exact E1|]. split; [exact Hwf1|].
    intros r c Hr Hc. unfold mxq.
    destruct (Nat.eq_dec r row) as [->|Hr'];
      [destruct (Nat.eq_dec c j) as [->|Hc']|].
    - rewrite Hsame, Hv, Hpv. fold (mxq A0 row j).
      rewrite H0 by lia. nat_cases; subst; reflexivity.
    - rewrite Hdiff by (right; exact Hc'). fold (mxq A0 row c).
      rewrite H0 by lia. nat_cases; subst; reflexivity.
    - rewrite Hdiff by (left; exact Hr'). fold (mxq A0 r c).
      rewrite H0 by lia. nat_cases; subst; reflexivity. }
  exists A'. split; [exact E|]. split; [exact Hwf'|].
  intros r c Hr Hc. rewrite HA' by assumption.
  unfold q_normalize. nat_cases; subst; reflexivity.
Qed.

Lemma eliminate_row_ok (k row col r : nat) (A : Matrix) :
  mx_wf k A -> (row < k)%nat -> (r < k)%nat -> (col <= k)%nat ->
  exists A', eliminate_row k row col r A = Ok A' /\ mx_wf k A' /\
    forall r' c, (r' < k)%nat -> (c <= k)%nat ->
      mxq A' r' c =
      if (r' =? r)%nat && negb (r =? row)%nat && (col <=? c)%nat
      then (mxq A r c - mxq A r col * mxq A row c)%Qc else mxq A r' c.
Proof.
  intros Hwf Hrow Hr Hcol. unfold eliminate_row.
  destruct (Nat.eqb_spec r row) as [->|Hne].
  { exists A. split; [reflexivity|]. split; [exact Hwf|].
    intros r' c Hr' Hc. nat_cases; subst; reflexivity. }
  rewrite (mget_ok k) by (try assumption; lia). cbn [bind].
  pose proof (entry_wf k A r col Hwf Hr Hcol) as Hfwf.
  destruct (Z.eqb_spec (num (entry A r col)) 0) as [Hz|Hnz].
  { exists A. split; [reflexivity|]. split; [exact Hwf|].
    intros r' c Hr' Hc. nat_cases; try reflexivity. subst r'.
    apply (toQc_zero_iff _ Hfwf) in Hz. fold (mxq A r col) in Hz.
    rewrite Hz. ring. }
  set (factor := entry A r col).
  destruct (for_loop_inv
    (fun c A0 => a <- mget A0 r c ;; b <- mget A0 row c ;;
                 t <- Frac_mul factor b ;; v <- Frac_sub a t ;; mset A0 r c v)
    (fun j A0 => mx_wf k A0 /\
       forall r' c, (r' < k)%nat -> (c <= k)%nat ->
         mxq A0 r' c =
         if (r' =? r)%nat && (col <=? c)%nat && (c <? j)%nat
         then (mxq A r c - mxq A r col * mxq A row c)%Qc else mxq A r' c)
    (k + 1 - col)%nat col A) as (A' & E & Hwf' & HA').
  { split; [exact Hwf|]. intros r' c Hr' Hc. nat_cases; subst; reflexivity. }
  { intros j A0 Hj [Hwf0 H0].
    rewrite !(mget_ok k) by (try assumption; lia). cbn [bind].
    destruct (Frac_mul_val factor (entry A0 row j)) as (t & Et & Ht & Htv);
      [exact Hfwf | apply (entry_wf k); try assumption; lia |].
    rewrite Et. cbn [bind].
    destruct (Frac_sub_val (entry A0 r j) t) as (f & Ef & Hf & Hv);
      [apply (entry_wf k); try assumption; lia | exact Ht |].
    rewrite Ef. cbn [bind].
    destruct (mset_ok k A0 r j f Hwf0 Hr ltac:(lia) Hf)
      as (A1 & E1 & Hwf1 & Hsame & Hdiff).
    exists A1. split; [exact E1|]. split; [exact Hwf1|].
    intros r' c Hr' Hc. unfold mxq.
    destruct (Nat.eq_dec r' r) as [->|Hr''];
      [destruct (Nat.eq_dec c j) as [->|Hc']|].
    - rewrite Hsame, Hv, Htv. fold (mxq A0 r j). fold (mxq A0 row j).
      rewrite !H0 by lia. unfold factor. fold (mxq A r col).
      nat_cases; subst; reflexivity.
    - rewrite Hdiff by (right; exact Hc'). fold (mxq A0 r c).
      rewrite H0 by lia. nat_cases; subst; reflexivity.
    - rewrite Hdiff by (left; exact Hr''). fold (mxq A0 r' c).
      rewrite H0 by lia. nat_cases; subst; reflexivity. }
  exists A'. split; [exact E|]. split; [exact Hwf'|].
  intros r' c Hr' Hc. rewrite HA' by assumption. nat_cases; subst; reflexivity.
Qed.

Lemma eliminate_all_ok (k row col : nat) (A : Matrix) :
  mx_wf k A -> (row < k)%nat -> (col <= k)%nat ->
  exists A', for_loop (eliminate_row k row col) 0 k A = Ok A' /\
             mx_wf k A' /\ mx_is k A' (q_eliminate row col (mxq A)).
Proof.
  intros Hwf Hrow Hcol.
  destruct (for_loop_inv (eliminate_row k row col)
    (fun j A0 => mx_wf k A0 /\
       forall r c, (r < k)%nat -> (c <= k)%nat ->
         mxq A0 r c =
         if (r <? j)%nat && negb (r =? row)%nat && (col <=? c)%nat
         then (mxq A r c - mxq A r col * mxq A row c)%Qc else mxq A r c)
    k 0%nat A) as (A' & E & Hwf' & HA').
  { split; [exact Hwf|]. intros r c Hr Hc. nat_cases; subst; reflexivity. }
  { intros j A0 Hj [Hwf0 H0].
    destruct (eliminate_row_ok k row col j A0 Hwf0 Hrow ltac:(lia) Hcol)
      as (A1 & E1 & Hwf1 & H1).
    exists A1. split; [exact E1|]. split; [exact Hwf1|].
    intros r c Hr Hc. rewrite H1 by assumption.
    rewrite !H0 by lia. nat_cases; subst; reflexivity. }
  exists A'. split; [exact E|]. split; [exact Hwf'|].
  intros r c Hr Hc. rewrite HA' by assumption.
  unfold q_eliminate. nat_cases; subst; reflexivity.
Qed.

Lemma gauss_step_ok (k col : nat) (A : Matrix) :
  mx_wf k A -> (col < k)%nat ->
  (exists sel A', (col <= sel < k)%nat /\ mxq A sel col <> 0%Qc /\
     gauss_step k col col A = Ok (Some A') /\ mx_wf k A' /\
     mx_is k A' (q_step col col sel (mxq A))) \/
  (gauss_step k col col A = Ok None /\
   forall r, (col <= r < k)%nat -> mxq A r col = 0%Qc).
Proof.
  intros Hwf Hcol. unfold gauss_step.
  destruct (find_pivot_ok k A col Hwf ltac:(lia) (k - col)%nat col col ltac:(lia))
    as (sel & Esel & Hsel).
  rewrite Esel. cbn [bind].
  destruct Hsel as [[Hrange Hnz]|[-> Hall]].
  - left.
    rewrite (mget_ok k) by (try assumption; lia). cbn [bind].
    destruct (Z.eqb_spec (num (entry A sel col)) 0) as [|_]; [contradiction|].
    assert (Hq : mxq A sel col <> 0%Qc).
    { intros E. apply Hnz. apply toQc_zero_iff; [|exact E].
      apply (entry_wf k); try assumption; lia. }
    assert (H1 : exists A1,
      (if (sel =? col)%nat then Ok A else swap_rows A sel col) = Ok A1 /\
      mx_wf k A1 /\ mx_is k A1 (q_swap sel col (mxq A))).
    { destruct (Nat.eqb_spec sel col) as [->|Hne].
      - exists A. split; [reflexivity|]. split; [exact Hwf|].
        intros r c Hr Hc. unfold q_swap, swap_index. nat_cases; congruence.
      - destruct (swap_rows_ok k A sel col Hwf ltac:(lia) Hcol)
          as (A1 & E1 & Hwf1 & H1).
        exists A1. split; [exact E1|]. split; [exact Hwf1|].
        intros r c Hr Hc. unfold mxq, q_swap. rewrite H1. reflexivity. }
    destruct H1 as (A1 & E1 & Hwf1 & H1). rewrite E1. cbn [bind].
    rewrite (mget_ok k) by (try assumption; lia). cbn [bind].
    assert (Hpq : mxq A1 col col = mxq A sel col).
    { rewrite H1 by lia. unfold q_swap, swap_index. nat_cases; congruence. }
    destruct (normalize_row_ok k col col (entry A1 col col) A1)
      as (A2 & E2 & Hwf2 & H2); try assumption; try lia.
    { apply (entry_wf k); try assumption; lia. }
    { intros Hz. apply Hq. rewrite <- Hpq. apply toQc_zero_iff; [|exact Hz].
      apply (entry_wf k); try assumption; lia. }
    { reflexivity. }
    rewrite E2. cbn [bind].
    destruct (eliminate_all_ok k col col A2 Hwf2 Hcol ltac:(lia))
      as (A3 & E3 & Hwf3 & H3).
    rewrite E3. cbn [bind].
    exists sel, A3. split; [lia|]. split; [exact Hq|].
    split; [reflexivity|]. split; [exact Hwf3|].
    intros r c Hr Hc. rewrite H3 by assumption. unfold q_step.
    assert (HN : forall r c, (r < k)%nat -> (c <= k)%nat ->
              mxq A2 r c = q_normalize col col (q_swap sel col (mxq A)) r c).
    { intros r0 c0 Hr0 Hc0. rewrite H2 by assumption. unfold q_normalize.
      rewrite !(H1 r0 c0), !(H1 col col) by lia. reflexivity. }
    unfold q_eliminate. rewrite !(HN r c), !(HN r col), !(HN col c) by lia.
    reflexivity.
  - right.
    rewrite (mget_ok k) by (try assumption; lia). cbn [bind].
    rewrite (Hall col) by lia. cbn [Z.eqb]. split; [reflexivity|].
    intros r Hr. apply toQc_zero_iff.
    + apply (entry_wf k); try assumption; lia.
    + apply Hall. lia.
Qed.

(** ** A polynomial of degree below [n] with [n] roots is zero *)

Lemma sdiv_cons (a c : Qc) (d : Qc) (p : list Qc) :
  sdiv a (c :: d :: p) =
  (snd (sdiv a (d :: p)) :: fst (sdiv a (d :: p)),
   (c + a * snd (sdiv a (d :: p)))%Qc).
Proof.
  cbn [sdiv]. destruct p as [|e p]; [reflexivity|].
  destruct (sdiv a (e :: p)) as [q r]. reflexivity.
Qed.

Lemma sdiv_spec (a : Qc) (p : list Qc) :
  (forall x, peval p x =
             ((x - a) * peval (fst (sdiv a p)) x + snd (sdiv a p))%Qc) /\
  length (fst (sdiv a p)) = pred (length p).
Proof.
  induction p as [|c p IH].
  - split; [intros x; simpl; ring | reflexivity].
  - destruct p as [|d p].
    + split; [intros x; simpl; ring | reflexivity].
    + destruct IH as [IH1 IH2]. rewrite sdiv_cons. cbn [fst snd]. split.
      * intros x. cbn [peval] in *. rewrite (IH1 x). ring.
      * cbn [length] in *. rewrite IH2. reflexivity.
Qed.

Lemma sdiv_zero (a : Qc) (p : list Qc) :
  Forall (fun c => c = 0%Qc) (fst (sdiv a p)) -> snd (sdiv a p) = 0%Qc ->
  Forall (fun c => c = 0%Qc) p.
Proof.
  induction p as [|c p IH]; intros Hq Hr; [constructor|].
  destruct p as [|d p].
  - constructor; [exact Hr | constructor].
  - rewrite sdiv_cons in Hq. rewrite sdiv_cons in Hr.
    cbn [fst snd] in Hq, Hr.
    pose proof (Forall_inv Hq) as Hr'. pose proof (Forall_inv_tail Hq) as Hq'.
    cbn beta in Hr'.
    constructor; [|apply IH; assumption].
    rewrite Hr' in Hr. rewrite <- Hr. ring.
Qed.

Lemma poly_roots (n : nat) : forall (p xs : list Qc),
  length p = n -> length xs = n -> NoDup xs ->
  (forall x, In x xs -> peval p x = 0%Qc) ->
  Forall (fun c => c = 0%Qc) p.
Proof.
  induction n as [|n IH]; intros p xs Hp Hxs Hnd Hroot.
  - destruct p; [constructor | discriminate].
  - destruct xs as [|a xs]; [discriminate|].
    destruct (sdiv_spec a p) as [Hev Hlen].
    inversion Hnd as [|? ? Hnotin Hnd']; subst.
    assert (Hr : snd (sdiv a p) = 0%Qc).
    { pose proof (Hroot a (or_introl eq_refl)) as H. rewrite Hev in H.
      rewrite <- H. ring. }
    apply (sdiv_zero a); [|exact Hr].
    apply (IH _ xs); [rewrite Hlen, Hp; reflexivity | | exact Hnd' |].
    + simpl in Hxs. lia.
    + intros x Hx. pose proof (Hroot x (or_intror Hx)) as H.
      rewrite Hev, Hr in H.
      apply (Qcmult_integral_l (x - a)%Qc).
      * intros E. apply Hnotin.
        assert (x = a) by (transitivity (x - a + a)%Qc; [ring | rewrite E; ring]).
        subst. exact Hx.
      * rewrite <- H. ring.
Qed.

Lemma sumQc_shift (n : nat) (f : nat -> Qc) :
  sumQc (S n) f = (f 0%nat + sumQc n (fun j => f (S j)))%Qc.
Proof.
  induction n as [|n IH]; [simpl; ring|].
  change (sumQc (S (S n)) f) with (sumQc (S n) f + f (S n))%Qc.
  rewrite IH. simpl. ring.
Qed.

Lemma peval_map_seq (v : nat -> Qc) (x : Qc) (n : nat) : forall i,
  peval (map v (seq i n)) x = sumQc n (fun j => (v (i + j)%nat * x ^ j)%Qc).
Proof.
  induction n as [|n IH]; intros i; [reflexivity|].
  cbn [seq map peval]. rewrite IH, sumQc_shift, <- sumQc_scale.
  rewrite Nat.add_0_r. f_equal; [simpl; ring|].
  apply sumQc_ext. intros j Hj.
  replace (S i + j)%nat with (i + S j)%nat by lia. simpl. ring.
Qed.

(** The Vandermonde matrix of pairwise distinct abscissas is regular. *)
Lemma vandermonde_regular (xs : list Z) (M : QMatrix) :
  NoDup xs ->
  (forall r j, (r < length xs)%nat -> (j < length xs)%nat ->
     M r j = Qcpower (ZtoQc (nth r xs 0)) j) ->
  regular (length xs) M.
Proof.
  intros Hnd HM v Hv. set (k := length xs) in *.
  assert (Hall : Forall (fun c => c = 0%Qc) (map v (seq 0 k))).
  { apply (poly_roots k _ (map ZtoQc xs)).
    - rewrite length_map, length_seq. reflexivity.
    - apply length_map.
    - apply Injective_map_NoDup_in; [|exact Hnd].
      intros a b _ _. apply ZtoQc_inj.
    - intros x Hx. apply in_map_iff in Hx. destruct Hx as (z & <- & Hz).
      destruct (In_nth xs z 0 Hz) as (r & Hr & <-).
      rewrite peval_map_seq. rewrite <- (Hv r Hr). unfold dot.
      apply sumQc_ext. intros j Hj. rewrite HM by assumption. simpl. ring. }
  intros j Hj. rewrite Forall_forall in Hall. apply Hall.
  apply in_map_iff. exists j. split; [reflexivity|]. apply in_seq. lia.
Qed.

(** ** The whole elimination *)

Lemma dot_ext (k : nat) (M M' : QMatrix) (r : nat) (v : nat -> Qc) :
  (forall c, (c < k)%nat -> M' r c = M r c) -> dot k M' r v = dot k M r v.
Proof.
  intros H. unfold dot. apply sumQc_ext. intros j Hj. rewrite H by exact Hj.
  reflexivity.
Qed.

Lemma reduced_upto_ext (k col : nat) (A : Matrix) (M : QMatrix) :
  (col <= k)%nat -> mx_is k A M ->
  reduced_upto k col M -> reduced_upto k col (mxq A).
Proof.
  intros Hcol HA H r j Hr Hj. rewrite HA by lia. apply H; assumption.
Qed.

Lemma solves_ext (k : nat) (A : Matrix) (M : QMatrix) (v : nat -> Qc) :
  mx_is k A M -> solves k M v -> solves k (mxq A) v.
Proof.
  intros HA H r Hr. rewrite HA by lia. rewrite <- (H r Hr).
  apply dot_ext. intros c Hc. apply HA; lia.
Qed.

Lemma solves_ext_back (k : nat) (A : Matrix) (M : QMatrix) (v : nat -> Qc) :
  mx_is k A M -> solves k (mxq A) v -> solves k M v.
Proof.
  intros HA H r Hr. rewrite <- HA by lia. rewrite <- (H r Hr).
  symmetry. apply dot_ext. intros c Hc. apply HA; lia.
Qed.

Lemma regular_ext (k : nat) (A : Matrix) (M : QMatrix) :
  mx_is k A M -> regular k M -> regular k (mxq A).
Proof.
  intros HA H v Hv. apply H. intros r Hr. rewrite <- (Hv r Hr).
  symmetry. apply dot_ext. intros c Hc. apply HA; lia.
Qed.

Lemma gauss_loop_total (k : nat) : forall cnt col A,
  (col + cnt = k)%nat -> mx_wf k A ->
  exists r, gauss_loop k col col cnt A = Ok r /\
            forall A', r = Some A' -> mx_wf k A'.
Proof.
  induction cnt as [|cnt IH]; intros col A Hk Hwf.
  - exists (Some A). split; [reflexivity|]. intros A' E. congruence.
  - cbn [gauss_loop].
    destruct (gauss_step_ok k col A Hwf ltac:(lia))
      as [(sel & A1 & _ & _ & E1 & Hwf1 & _)|[E1 _]]; rewrite E1; cbn [bind].
    + apply IH; [lia | exact Hwf1].
    + exists None. split; [reflexivity|]. intros A' E. discriminate.
Qed.

Lemma gauss_loop_regular (k : nat) : forall cnt col A,
  (col + cnt = k)%nat -> mx_wf k A ->
  reduced_upto k col (mxq A) -> regular k (mxq A) ->
  exists A', gauss_loop k col col cnt A = Ok (Some A') /\ mx_wf k A' /\
    reduced_upto k k (mxq A') /\
    forall v, solves k (mxq A) v <-> solves k (mxq A') v.
Proof.
  induction cnt as [|cnt IH]; intros col A Hk Hwf Hred Hreg.
  - assert (col = k) by lia. subst col. exists A.
    split; [reflexivity|]. split; [exact Hwf|]. split; [exact Hred|].
    intros v. reflexivity.
  - cbn [gauss_loop].
    destruct (gauss_step_ok k col A Hwf ltac:(lia))
      as [(sel & A1 & Hsel & Hp & E1 & Hwf1 & H1)|[_ Hz]].
    + rewrite E1. cbn [bind].
      destruct (IH (S col) A1) as (A' & E' & Hwf' & Hred' & Hsol');
        [lia | exact Hwf1 | | |].
      * apply (reduced_upto_ext k (S col) A1 _ ltac:(lia) H1).
        apply step_reduced; try assumption; lia.
      * apply (regular_ext k A1 _ H1).
        apply step_regular; try assumption; lia.
      * exists A'. split; [exact E'|]. split; [exact Hwf'|].
        split; [exact Hred'|]. intros v. rewrite <- Hsol'. split; intros Hv.
        -- apply (solves_ext k A1 _ v H1).
           apply step_solves; try assumption; lia.
        -- apply (step_solves_back k col sel); try assumption; try lia.
           apply (solves_ext_back k A1 _ v H1 Hv).
    + exfalso. apply (regular_has_pivot k col (mxq A)); try assumption. lia.
Qed.

Lemma extract_ok (k : nat) (A : Matrix) :
  mx_wf k A ->
  exists out,
    (z <- Frac_ctor 0 1 ;;
     out <- for_loop (fun i out => v <- mget A i k ;; vset out i v)
                     0 k (repeat z k) ;;
     Ok (Some out)) = Ok (Some out) /\
    length out = k /\
    forall i, (i < k)%nat -> nth i out Frac0 = entry A i k.
Proof.
  intros Hwf.
  destruct (Frac_ctor_int 0) as (z & Ez & _). rewrite Ez. cbn [bind].
  destruct (for_loop_inv (fun i out => v <- mget A i k ;; vset out i v)
    (fun j out => length out = k /\
       forall i, (i < j)%nat -> nth i out Frac0 = entry A i k)
    k 0%nat (repeat z k)) as (out & E & Hlen & Hout).
  { split; [apply repeat_length | intros i Hi; lia]. }
  { intros j out Hj [Hlen Hout].
    rewrite (mget_ok k) by (try assumption; lia). cbn [bind].
    rewrite vset_ok by lia. eexists. split; [reflexivity|].
    split; [rewrite length_upd; exact Hlen|].
    intros i Hi. destruct (Nat.eq_dec j i) as [->|Hne].
    - apply nth_upd_same. lia.
    - rewrite nth_upd_other by exact Hne. apply Hout. lia. }
  exists out. rewrite E. cbn [bind]. split; [reflexivity|].
  split; [exact Hlen | exact Hout].
Qed.

(** The solver always returns: no exception, whatever the points. *)
Lemma solve_vandermonde_total (xs ys : list Z) :
  length ys = length xs ->
  exists r, solve_vandermonde xs ys = Ok r /\
    forall cs, r = Some cs ->
      length cs = length xs /\
      forall i, (i < length xs)%nat -> Frac_wf (nth i cs Frac0).
Proof.
  intros Hlen. unfold solve_vandermonde.
  destruct (build_matrix_ok xs ys Hlen) as (A & EA & Hwf & _).
  rewrite EA. cbn [bind]. rewrite Nat.sub_0_r, Nat.min_id.
  destruct (gauss_loop_total (length xs) (length xs) 0%nat A eq_refl Hwf)
    as ([A'|] & E & HA'); rewrite E; cbn [bind].
  - destruct (extract_ok (length xs) A' (HA' A' eq_refl)) as (out & Eo & Hl & Ho).
    rewrite Eo. exists (Some out). split; [reflexivity|].
    intros cs Hcs. injection Hcs as <-. split; [exact Hl|].
    intros i Hi. rewrite Ho by exact Hi.
    apply (entry_wf (length xs)); [apply HA'; reflexivity | exact Hi | lia].
  - exists None. split; [reflexivity|]. intros cs Hcs. discriminate.
Qed.

(** On pairwise distinct abscissas line 129 is never reached, and the
    coefficients returned are those of every solution of the system. *)
Lemma solve_vandermonde_regular (xs ys : list Z) :
  length ys = length xs -> NoDup xs ->
  exists cs, solve_vandermonde xs ys = Ok (Some cs) /\
    length cs = length xs /\
    (forall i, (i < length xs)%nat -> Frac_wf (nth i cs Frac0)) /\
    (forall r, (r < length xs)%nat ->
       sumQc (length xs)
             (fun j => Qcmult (Qcpower (ZtoQc (nth r xs 0)) j)
                              (toQc (nth j cs Frac0)))
       = ZtoQc (nth r ys 0)) /\
    forall v : nat -> Qc,
      (forall r, (r < length xs)%nat ->
         sumQc (length xs) (fun j => Qcmult (Qcpower (ZtoQc (nth r xs 0)) j) (v j))
         = ZtoQc (nth r ys 0)) ->
      forall i, (i < length xs)%nat -> toQc (nth i cs Frac0) = v i.
Proof.
  intros Hlen Hnd. unfold solve_vandermonde.
  destruct (build_matrix_ok xs ys Hlen) as (A & EA & Hwf & HA).
  rewrite EA. cbn [bind]. rewrite Nat.sub_0_r, Nat.min_id.
  set (k := length xs) in *.
  destruct (gauss_loop_regular k k 0%nat A eq_refl Hwf)
    as (A' & E & Hwf' & Hred & Hsol).
  { intros r j Hr Hj. lia. }
  { apply (vandermonde_regular xs). exact Hnd.
    intros r j Hr Hj. apply HA; assumption. }
  rewrite E. cbn [bind].
  destruct (extract_ok k A' Hwf') as (out & Eo & Hl & Ho).
  assert (Hdiag : forall (v : nat -> Qc) i, (i < k)%nat ->
            dot k (mxq A') i v = v i).
  { intros v i Hi. unfold dot.
    rewrite (sumQc_delta k i) by
      (try exact Hi; intros j Hj Hne; rewrite Hred by assumption;
       unfold delta; nat_cases; ring).
    rewrite Hred by assumption. unfold delta. rewrite Nat.eqb_refl. ring. }
  rewrite Eo. exists out. split; [reflexivity|]. split; [exact Hl|].
  split; [|split].
  - intros i Hi. rewrite Ho by exact Hi.
    apply (entry_wf k); [exact Hwf' | exact Hi | lia].
  - assert (Hs : solves k (mxq A) (fun j => mxq A' j k)).
    { apply (proj2 (Hsol _)). intros r Hr.
      exact (Hdiag (fun j => mxq A' j k) r Hr). }
    intros r Hr. destruct (HA r Hr) as [Hp Hy].
    rewrite <- Hy, <- (Hs r Hr). unfold dot. apply sumQc_ext.
    intros j Hj. rewrite Hp, Ho by exact Hj. reflexivity.
  - intros v Hv i Hi. rewrite Ho by exact Hi. fold (mxq A' i k).
    assert (Hs : solves k (mxq A') v).
    { apply (proj1 (Hsol v)). intros r Hr. destruct (HA r Hr) as [Hp Hy].
      rewrite Hy, <- (Hv r Hr). unfold dot. apply sumQc_ext.
      intros j Hj. rewrite Hp by exact Hj. reflexivity. }
    rewrite <- (Hs i Hi). apply Hdiag, Hi.
Qed.

(** ** The acceptance test *)

Lemma check_coeffs_ok (rej : Frac -> bool) (out : list Frac) :
  forall cnt i, (i + cnt <= length out)%nat ->
  exists b, check_coeffs rej out i cnt = Ok b /\
    (b = true <->
     forall j, (i <= j < i + cnt)%nat -> rej (nth j out Frac0) = false).
Proof.
  induction cnt as [|cnt IH]; intros i Hi.
  - exists true. split; [reflexivity|]. split; [intros _ j Hj; lia | reflexivity].
  - cbn [check_coeffs]. rewrite (vat_nth out i Frac0) by lia. cbn [bind].
    destruct (rej (nth i out Frac0)) eqn:Hrej.
    + exists false. split; [reflexivity|]. split; [discriminate|].
      intros H. rewrite H in Hrej by lia. discriminate.
    + destruct (IH (S i) ltac:(lia)) as (b & E & Hb).
      exists b. split; [exact E|]. rewrite Hb. split.
      * intros H j Hj. destruct (Nat.eq_dec j i) as [->|Hne];
          [exact Hrej | apply H; lia].
      * intros H j Hj. apply H. lia.
Qed.

Lemma interpolate_and_check_with_ok (rej : Frac -> bool)
  (xs ys : list Z) (out0 : list Frac) :
  length ys = length xs ->
  exists r, solve_vandermonde xs ys = Ok r /\
    match r with
    | None => interpolate_and_check_with rej xs ys out0 = Ok (false, out0)
    | Some cs =>
        length cs = length xs /\
        (forall i, (i < length xs)%nat -> Frac_wf (nth i cs Frac0)) /\
        exists b, interpolate_and_check_with rej xs ys out0 = Ok (b, cs) /\
          (b = true <->
           forall i, (i < length xs)%nat -> rej (nth i cs Frac0) = false)
    end.
Proof.
  intros Hlen.
  destruct (solve_vandermonde_total xs ys Hlen) as (r & E & Hr).
  exists r. split; [exact E|]. unfold interpolate_and_check_with.
  rewrite E. cbn [bind]. destruct r as [cs|]; [|reflexivity].
  destruct (Hr cs eq_refl) as [Hl Hwf]. split; [exact Hl|]. split; [exact Hwf|].
  destruct (check_coeffs_ok rej cs (length xs) 0%nat ltac:(lia)) as (b & Eb & Hb).
  exists b. rewrite Eb. cbn [bind]. split; [reflexivity|].
  rewrite Hb. split; intros H i Hi; apply H; lia.
Qed.

(** What the final loop of code.cpp decides, on whatever the elimination
    has returned. *)
Lemma check_decides_integrality (xs ys : list Z) (out0 : list Frac) :
  length ys = length xs ->
  exists r, solve_vandermonde xs ys = Ok r /\
    match r with
    | None => interpolate_and_check xs ys out0 = Ok (false, out0)
    | Some cs =>
        length cs = length xs /\
        exists b, interpolate_and_check xs ys out0 = Ok (b, cs) /\
          (b = true <->
           forall i, (i < length xs)%nat -> den (nth i cs Frac0) = 1) /\
          (b = true <->
           forall i, (i < length xs)%nat ->
             exists z, toQc (nth i cs Frac0) = ZtoQc z) /\
          ((exists i, (i < length xs)%nat /\
              forall z, toQc (nth i cs Frac0) <> ZtoQc z) -> b = false)
    end.
Proof.
  intros Hlen.
  destruct (interpolate_and_check_with_ok rejected xs ys out0 Hlen)
    as (r & E & Hr).
  exists r. split; [exact E|]. destruct r as [cs|]; [|exact Hr].
  destruct Hr as (Hl & Hwf & b & Eb & Hb). split; [exact Hl|].
  exists b. split; [exact Eb|].
  assert (H1 : b = true <->
            forall i, (i < length xs)%nat -> den (nth i cs Frac0) = 1).
  { rewrite Hb. unfold rejected, isInteger.
    split; intros H i Hi; specialize (H i Hi).
    - apply negb_false_iff in H. apply Z.eqb_eq. exact H.
    - apply negb_false_iff, Z.eqb_eq. exact H. }
  assert (H2 : b = true <->
            forall i, (i < length xs)%nat ->
              exists z, toQc (nth i cs Frac0) = ZtoQc z).
  { rewrite H1. split; intros H i Hi.
    - apply isInteger_iff; [apply Hwf, Hi|]. apply Z.eqb_eq, H, Hi.
    - apply Z.eqb_eq. apply (isInteger_iff _ (Hwf i Hi)). apply H, Hi. }
  split; [exact H1|]. split; [exact H2|].
  intros (i & Hi & Hnot). destruct b; [|reflexivity].
  destruct (proj1 H2 eq_refl i Hi) as [z Hz]. exfalso. exact (Hnot z Hz).
Qed.

(** C7. The constructor fails exactly on a zero denominator and the
    division of fractions with a non-zero denominator exactly on a divisor
    whose numerator is zero, each with the message that the specification
    files under [DivisionByZero]; a division never fails with anything
    else. The failing call changes nothing: the constructor throws before
    it has assigned to any of its variables - its own copies of the
    operands and the members of the object that it was to build, which a
    call that succeeds does change, as the call [Frac(3, -6)] shows - and
    the operator [/], failing or not, leaves both operands as they were. The two descriptions of each
    operation agree on what is returned. Inside the engine there is
    nothing to contain: for every subset, [interpolate_and_check] returns,
    and an exception of either operation never comes out of it. *)
Theorem division_by_zero_contained :
  (forall n d, d = 0 ->
     Frac_ctor n d = Err (runtime_error "zero denominator")) /\
  (forall n d e, Frac_ctor n d = Err e -> d = 0 /\ DivisionByZero e) /\
  (forall a b, num b = 0 ->
     Frac_div a b = Err (runtime_error "division by zero fraction")) /\
  (forall a b e, Frac_div a b = Err e ->
     DivisionByZero e /\ (num b = 0 \/ den a = 0)) /\
  (forall v, var_d v = 0 ->
     Frac_ctor_body v = (Err (runtime_error "zero denominator"), v)) /\
  (forall v, num (o_frac v) = 0 ->
     Frac_div_body v = (Err (runtime_error "division by zero fraction"), v)) /\
  (forall v, snd (Frac_div_body v) = v) /\
  Frac_ctor_body (MkVars 3 (-6) 0 0) = (Ok tt, MkVars (-3) 6 (-1) 2) /\
  (forall n d num0 den0,
     match Frac_ctor n d with
     | Ok f => exists w, Frac_ctor_body (MkVars n d num0 den0) = (Ok tt, w) /\
                         this_num w = num f /\ this_den w = den f
     | Err e => exists w, Frac_ctor_body (MkVars n d num0 den0) = (Err e, w)
     end) /\
  (forall a b, fst (Frac_div_body (MkOperands a b)) = Frac_div a b) /\
  (forall xs ys out0, length ys = length xs ->
     exists r, interpolate_and_check xs ys out0 = Ok r).
Proof.
  assert (Hctor : forall n d e, Frac_ctor n d = Err e ->
            d = 0 /\ e = runtime_error "zero denominator").
  { intros n d e E. destruct (Z.eq_dec d 0) as [->|Hd].
    - split; [reflexivity|]. cbn in E. congruence.
    - destruct (Frac_ctor_ok n d Hd) as (f & Ef & _). congruence. }
  assert (Hagree : forall n d num0 den0,
     match Frac_ctor n d with
     | Ok f => exists w, Frac_ctor_body (MkVars n d num0 den0) = (Ok tt, w) /\
                         this_num w = num f /\ this_den w = den f
     | Err e => exists w, Frac_ctor_body (MkVars n d num0 den0) = (Err e, w)
     end).
  { intros n d num0 den0. unfold Frac_ctor, Frac_ctor_body. cbn [var_d var_n].
    destruct (d =? 0); [eexists; reflexivity|].
    destruct (d <? 0); cbn [var_d var_n];
      match goal with
      | |- context [gcd_abs ?x ?y] => destruct (gcd_abs x y) as [g|e]
      end; cbn [bind]; eexists;
      repeat split; reflexivity. }
  split; [intros n d ->; reflexivity|].
  split.
  { intros n d e E. destruct (Hctor n d e E) as [-> ->].
    split; [reflexivity | left; reflexivity]. }
  split; [intros a b Hb; unfold Frac_div; rewrite Hb; reflexivity|].
  split.
  { intros a b e E. unfold Frac_div in E.
    destruct (Z.eqb_spec (num b) 0) as [Hb|Hb].
    - injection E as <-. split; [right; reflexivity | left; exact Hb].
    - destruct (Hctor _ _ _ E) as [Hz ->].
      split; [left; reflexivity | right; nia]. }
  split.
  { intros v Hd. unfold Frac_ctor_body. rewrite Hd. reflexivity. }
  split.
  { intros v Hb. unfold Frac_div_body. rewrite Hb. reflexivity. }
  split.
  { intros v. unfold Frac_div_body. destruct (num (o_frac v) =? 0);
      [reflexivity|].
    match goal with |- context [fst ?b] => destruct (fst b) end; reflexivity. }
  split; [vm_compute; reflexivity|].
  split; [exact Hagree|].
  split.
  { intros a b. unfold Frac_div_body, Frac_div. cbn [this_frac o_frac].
    destruct (num b =? 0); [reflexivity|].
    pose proof (Hagree (num a * den b) (den a * num b) 0 0) as H.
    destruct (Frac_ctor (num a * den b) (den a * num b)) as [f|e].
    - destruct H as (w & -> & Hn & Hd). cbn [fst snd].
      rewrite Hn, Hd. destruct f; reflexivity.
    - destruct H as (w & ->). reflexivity. }
  intros xs ys out0 Hlen.
  destruct (interpolate_and_check_with_ok rejected xs ys out0 Hlen)
    as (r & _ & Hr).
  destruct r as [cs|].
  - destruct Hr as (_ & _ & b & Eb & _). eexists. exact Eb.
  - eexists. exact Hr.
Qed.

Lemma division_by_zero_contained_witness :
  Frac_div (MkFrac 1 2) (MkFrac 0 1)
  = Err (runtime_error "division by zero fraction") /\
  Frac_div_body (MkOperands (MkFrac 1 2) (MkFrac 0 1))
  = (Err (runtime_error "division by zero fraction"),
     MkOperands (MkFrac 1 2) (MkFrac 0 1)) /\
  Frac_ctor_body (MkVars 3 0 0 0)
  = (Err (runtime_error "zero denominator"), MkVars 3 0 0 0).
Proof.
  destruct division_by_zero_contained
    as (_ & _ & Hdiv & _ & Hctor & Hbody & _).
  split; [apply Hdiv; reflexivity|].
  split; [apply Hbody; reflexivity | apply Hctor; reflexivity].
Defined.

(** The older variant accepts less: whatever it accepts has integer
    coefficients that are all positive. *)
Lemma original_accepts_positive_integers
  (xs ys : list Z) (out0 cs : list Frac) :
  length ys = length xs ->
  Original.interpolate_and_check xs ys out0 = Ok (true, cs) ->
  forall i, (i < length xs)%nat ->
    den (nth i cs Frac0) = 1 /\ 0 < num (nth i cs Frac0).
Proof.
  intros Hlen E.
  destruct (interpolate_and_check_with_ok Original.rejected xs ys out0 Hlen)
    as (r & _ & Hr).
  unfold Original.interpolate_and_check in E. destruct r as [cs'|].
  - destruct Hr as (_ & _ & b & Eb & Hb). rewrite Eb in E.
    injection E as -> ->. intros i Hi.
    pose proof (proj1 Hb eq_refl i Hi) as H.
    unfold Original.rejected, isInteger in H.
    destruct (Z.eqb_spec (den (nth i cs Frac0)) 1) as [Hd|Hd];
      simpl in H; [|discriminate].
    split; [exact Hd | lia].
  - rewrite Hr in E. discriminate.
Qed.

(** C8. On a subset with pairwise distinct abscissas
    [interpolate_and_check] raises no exception - in particular no division
    by a zero pivot and no zero denominator, the two cases of
    [DivisionByZero] - and the [return false] of the singular branch is not
    taken: the elimination finds a non-zero pivot in every column and runs
    to the end, so that the solved coefficients reach the acceptance
    test. *)
Theorem distinct_abscissas_never_singular
  (xs ys : list Z) (out0 : list Frac) :
  length ys = length xs -> NoDup xs ->
  exists cs b,
    solve_vandermonde xs ys = Ok (Some cs) /\
    interpolate_and_check xs ys out0 = Ok (b, cs) /\
    length cs = length xs /\
    (forall e, DivisionByZero e -> interpolate_and_check xs ys out0 <> Err e).
Proof.
  intros Hlen Hnd.
  destruct (solve_vandermonde_regular xs ys Hlen Hnd) as (cs & E & Hl & _).
  destruct (interpolate_and_check_with_ok rejected xs ys out0 Hlen)
    as (r & E' & Hr).
  rewrite E in E'. injection E' as <-.
  destruct Hr as (_ & _ & b & Eb & _).
  exists cs, b. split; [exact E|]. split; [exact Eb|]. split; [exact Hl|].
  intros e _ H. unfold interpolate_and_check in H. rewrite Eb in H.
  discriminate.
Qed.

(** ** Interpolating the values of an integer polynomial *)

Lemma eval_poly_from_Qc (x : Z) (cs : list Z) : forall i,
  ZtoQc (eval_poly_from cs i x) =
  sumQc (length cs)
        (fun j => Qcmult (Qcpower (ZtoQc x) (i + j)) (ZtoQc (nth j cs 0))).
Proof.
  induction cs as [|c cs IH]; intros i; [reflexivity|].
  cbn [eval_poly_from length]. rewrite sumQc_shift.
  rewrite ZtoQc_add, ZtoQc_mul, ZtoQc_pow, IH, Nat.add_0_r. cbn [nth].
  f_equal; [ring|]. apply sumQc_ext. intros j Hj.
  replace (S i + j)%nat with (i + S j)%nat by lia. reflexivity.
Qed.

Lemma Frac_of_integer (f : Frac) (z : Z) :
  Frac_wf f -> toQc f = ZtoQc z -> f = MkFrac z 1.
Proof.
  intros Hwf E. destruct (toQc_integer f z Hwf E) as [Hn Hd].
  destruct f as [n d]. simpl in *. subst. reflexivity.
Qed.

Lemma solve_vandermonde_exact (cs xs : list Z) :
  length cs = length xs -> NoDup xs ->
  exists out, solve_vandermonde xs (map (eval_poly cs) xs) = Ok (Some out) /\
    length out = length xs /\
    forall i, (i < length xs)%nat -> nth i out Frac0 = MkFrac (nth i cs 0) 1.
Proof.
  intros Hlen Hnd.
  destruct (solve_vandermonde_regular xs (map (eval_poly cs) xs))
    as (out & E & Hl & Hwf & _ & Hsol); [apply length_map | exact Hnd |].
  exists out. split; [exact E|]. split; [exact Hl|].
  intros i Hi. apply Frac_of_integer; [apply Hwf, Hi|].
  apply (Hsol (fun j => ZtoQc (nth j cs 0))); [|exact Hi].
  intros r Hr.
  rewrite (nth_indep (map (eval_poly cs) xs) 0 (eval_poly cs 0))
    by (rewrite length_map; exact Hr).
  rewrite map_nth. unfold eval_poly. rewrite eval_poly_from_Qc, Hlen.
  reflexivity.
Qed.

(** ** The selection of a subset *)

Lemma vat_app_middle {A : Type} (pre : list A) (a : A) (post : list A)
  (i : nat) :
  i = length pre -> vat (pre ++ a :: post) i = Ok a.
Proof.
  intros ->. unfold vat.
  rewrite nth_error_app2 by lia. rewrite Nat.sub_diag. reflexivity.
Qed.

Lemma select_from (crest : list Z) :
  forall (cpre xpre ypre xrest yrest ax ay : list Z) (i : nat),
  i = length cpre -> length xpre = i -> length ypre = i ->
  length xrest = length crest -> length yrest = length crest ->
  for_loop (fun i (st : list Z * list Z) =>
              let (xs, ys) := st in
              c <- vat (cpre ++ crest) i ;;
              if c =? 0 then Ok (xs, ys) else
              x <- vat (xpre ++ xrest) i ;;
              y <- vat (ypre ++ yrest) i ;;
              Ok (xs ++ [x], ys ++ [y]))
           i (length crest) (ax, ay)
  = Ok (ax ++ pick crest xrest, ay ++ pick crest yrest).
Proof.
  induction crest as [|c crest IH];
    intros cpre xpre ypre xrest yrest ax ay i Hi Hx Hy Hxr Hyr.
  - simpl. rewrite !app_nil_r. reflexivity.
  - destruct xrest as [|x xrest]; [discriminate|].
    destruct yrest as [|y yrest]; [discriminate|].
    cbn [length for_loop]. rewrite !vat_app_middle by congruence.
    cbn [bind pick].
    replace (cpre ++ c :: crest) with ((cpre ++ [c]) ++ crest)
      by (rewrite <- app_assoc; reflexivity).
    replace (xpre ++ x :: xrest) with ((xpre ++ [x]) ++ xrest)
      by (rewrite <- app_assoc; reflexivity).
    replace (ypre ++ y :: yrest) with ((ypre ++ [y]) ++ yrest)
      by (rewrite <- app_assoc; reflexivity).
    simpl in Hxr, Hyr.
    destruct (c =? 0); cbn [bind]; rewrite IH;
      try (rewrite ?length_app; simpl; lia);
      rewrite <- ?app_assoc; reflexivity.
Qed.

Lemma select_ok (xs_full ys_full choose : list Z) (n : nat) :
  length choose = n -> length xs_full = n -> length ys_full = n ->
  select xs_full ys_full choose n = Ok (pick choose xs_full, pick choose ys_full).
Proof.
  intros Hc Hx Hy. unfold select. subst n.
  apply (select_from choose [] [] [] xs_full ys_full [] [] 0%nat);
    try reflexivity; assumption.
Qed.

Lemma pick_length (mask xs ys : list Z) :
  length xs = length ys -> length (pick mask xs) = length (pick mask ys).
Proof.
  revert xs ys. induction mask as [|m mask IH]; intros [|x xs] [|y ys] H;
    simpl in *; try reflexivity; try discriminate.
  destruct (m =? 0); simpl; rewrite (IH xs ys) by lia; reflexivity.
Qed.

Lemma pick_all (xs : list Z) : pick (repeat 1 (length xs)) xs = xs.
Proof.
  induction xs as [|x xs IH]; [reflexivity|]. simpl. rewrite IH. reflexivity.
Qed.

(** ** The initial mask *)

Lemma upd_app_middle {A : Type} (pre : list A) (a b : A) (post : list A)
  (i : nat) :
  i = length pre -> upd (pre ++ a :: post) i b = pre ++ b :: post.
Proof.
  intros ->.
  induction pre as [|c pre IH]; [reflexivity|]. simpl. rewrite IH. reflexivity.
Qed.

Lemma choose_init (n k : nat) :
  (k <= n)%nat ->
  for_loop (fun i choose => vset choose i 1) 0 k (repeat 0 n)
  = Ok (repeat 1 k ++ repeat 0 (n - k)).
Proof.
  intros Hk.
  destruct (for_loop_inv (fun i choose => vset choose i 1)
    (fun j choose => choose = repeat 1 j ++ repeat 0 (n - j))
    k 0%nat (repeat 0 n)) as (ch & E & Hch).
  { rewrite Nat.sub_0_r. reflexivity. }
  { intros j ch Hj ->. eexists. split.
    - apply vset_ok. rewrite length_app, !repeat_length. lia.
    - replace (n - j)%nat with (S (n - S j)) by lia. cbn [repeat].
      rewrite upd_app_middle by (rewrite repeat_length; reflexivity).
      change (1 :: repeat 0 (n - S j)) with ([1] ++ repeat 0 (n - S j)).
      rewrite app_assoc. f_equal. symmetry. apply repeat_cons. }
  rewrite E. f_equal. exact Hch.
Qed.

Lemma insert_desc_zeros (m : nat) :
  insert_desc 0 (repeat 0 m) = repeat 0 (S m).
Proof.
  induction m as [|m IH]; [reflexivity|]. cbn [repeat insert_desc].
  cbn [Z.ltb Z.compare]. rewrite IH. reflexivity.
Qed.

Lemma insert_desc_ones (a m : nat) :
  insert_desc 1 (repeat 1 a ++ repeat 0 m) = repeat 1 (S a) ++ repeat 0 m.
Proof.
  induction a as [|a IH].
  - destruct m; reflexivity.
  - cbn [repeat app insert_desc]. cbn [Z.ltb Z.compare Pos.compare].
    rewrite IH. reflexivity.
Qed.

Lemma sort_desc_mask (k m : nat) :
  sort_desc (repeat 1 k ++ repeat 0 m) = repeat 1 k ++ repeat 0 m.
Proof.
  unfold sort_desc. induction k as [|k IH].
  - induction m as [|m IHm]; [reflexivity|]. simpl in *.
    rewrite IHm. apply insert_desc_zeros.
  - cbn [repeat app fold_right]. rewrite IH. apply insert_desc_ones.
Qed.

(** ** The enumeration of the masks *)

Lemma masks_gt (n : nat) : forall k, (n < k)%nat -> masks n k = [].
Proof.
  induction n as [|n IH]; intros [|k] Hk; try lia; [reflexivity|].
  cbn [masks]. rewrite !IH by lia. reflexivity.
Qed.

Lemma binomial_0 (n : nat) : binomial n 0 = 1%nat.
Proof. destruct n; reflexivity. Qed.

Lemma masks_length (n : nat) : forall k, length (masks n k) = binomial n k.
Proof.
  induction n as [|n IH]; intros [|k]; try reflexivity.
  - cbn [masks binomial app]. rewrite length_map, IH. apply binomial_0.
  - cbn [masks binomial]. rewrite length_app, !length_map, !IH. reflexivity.
Qed.

Lemma masks_hd (n : nat) : forall k, (k <= n)%nat ->
  exists rest, masks n k = (repeat 1 k ++ repeat 0 (n - k)) :: rest.
Proof.
  induction n as [|n IH]; intros [|k] Hk; try lia.
  - exists []. reflexivity.
  - destruct (IH 0%nat ltac:(lia)) as (rest & E).
    cbn [masks app]. rewrite E. cbn [map]. rewrite Nat.sub_0_r.
    eexists. reflexivity.
  - destruct (IH k ltac:(lia)) as (rest & E).
    cbn [masks]. rewrite E. cbn [map app]. eexists. reflexivity.
Qed.

Lemma masks_last (n : nat) : forall k, (k <= n)%nat ->
  exists pre, masks n k = pre ++ [repeat 0 (n - k) ++ repeat 1 k].
Proof.
  induction n as [|n IH]; intros [|k] Hk; try lia.
  - exists []. reflexivity.
  - destruct (IH 0%nat ltac:(lia)) as (pre & E).
    cbn [masks app]. rewrite E, map_app. cbn [map]. rewrite Nat.sub_0_r.
    eexists. reflexivity.
  - cbn [masks]. destruct (Nat.eq_dec k n) as [->|Hne].
    + destruct (IH n ltac:(lia)) as (pre & E).
      rewrite (masks_gt n (S n)) by lia. rewrite E, map_app, app_nil_r.
      cbn [map]. rewrite !Nat.sub_diag. eexists. reflexivity.
    + destruct (IH (S k) ltac:(lia)) as (pre & E).
      rewrite E, map_app, app_assoc. cbn [map].
      replace (S n - S k)%nat with (S (n - S k)) by lia.
      eexists. reflexivity.
Qed.

Lemma masks_is_mask (n : nat) : forall k m,
  In m (masks n k) <-> is_mask n k m.
Proof.
  unfold is_mask, ones.
  induction n as [|n IH]; intros k m.
  - destruct k; simpl; split.
    + intros [<-|[]]. repeat split. constructor.
    + intros (Hl & _ & _). destruct m; [left; reflexivity | discriminate].
    + intros [].
    + intros (Hl & _ & Ho). destruct m; discriminate.
  - cbn [masks]. rewrite in_app_iff. split.
    + intros [H|H].
      * destruct k as [|k]; [destruct H|].
        apply in_map_iff in H. destruct H as (m' & <- & H).
        apply IH in H. destruct H as (Hl & Hf & Ho).
        simpl. repeat split; [lia | constructor; auto | lia].
      * apply in_map_iff in H. destruct H as (m' & <- & H).
        apply IH in H. destruct H as (Hl & Hf & Ho).
        simpl. repeat split; [lia | constructor; auto | exact Ho].
    + intros (Hl & Hf & Ho). destruct m as [|x m]; [discriminate|].
      pose proof (Forall_inv Hf) as Hx. pose proof (Forall_inv_tail Hf) as Hf'.
      simpl in Hl, Hx. destruct Hx as [-> | ->]; simpl in Ho.
      * right. apply in_map. apply IH. repeat split; [lia | assumption | assumption].
      * destruct k as [|k]; [discriminate|].
        left. apply in_map. apply IH. repeat split; [lia | assumption | lia].
Qed.

(** ** [prev_permutation] on the masks *)

Lemma prev_perm_ones (b : nat) : prev_perm (repeat 1 b) = None.
Proof.
  induction b as [|b IH]; [reflexivity|].
  cbn [repeat prev_perm]. rewrite IH. destruct b; reflexivity.
Qed.

Lemma prev_perm_ascending (a b : nat) :
  prev_perm (repeat 0 a ++ repeat 1 b) = None.
Proof.
  induction a as [|a IH]; [apply prev_perm_ones|].
  cbn [repeat app prev_perm]. rewrite IH.
  destruct a; [destruct b|]; reflexivity.
Qed.

Lemma swap_last_less_ones (b : nat) : swap_last_less 1 (repeat 1 b) = None.
Proof.
  induction b as [|b IH]; [reflexivity|].
  cbn [repeat swap_last_less]. rewrite IH. reflexivity.
Qed.

Lemma swap_last_less_zeros (a b : nat) :
  swap_last_less 1 (repeat 0 (S a) ++ repeat 1 b)
  = Some (0, repeat 0 a ++ repeat 1 (S b)).
Proof.
  induction a as [|a IH].
  - cbn [repeat app swap_last_less]. rewrite swap_last_less_ones. reflexivity.
  - change (repeat 0 (S (S a)) ++ repeat 1 b)
      with (0 :: (repeat 0 (S a) ++ repeat 1 b)).
    cbn [swap_last_less]. rewrite IH. reflexivity.
Qed.

Lemma prev_perm_boundary (a b : nat) :
  prev_perm (1 :: repeat 0 (S a) ++ repeat 1 b)
  = Some (0 :: repeat 1 (S b) ++ repeat 0 a).
Proof.
  cbn [prev_perm]. rewrite prev_perm_ascending.
  change (repeat 0 (S a) ++ repeat 1 b)
    with (0 :: (repeat 0 a ++ repeat 1 b)) at 1.
  cbn -[swap_last_less repeat]. rewrite swap_last_less_zeros.
  rewrite rev_app_distr, !rev_repeat. reflexivity.
Qed.

Lemma prev_perm_zero_cons (m : list Z) :
  Forall (fun x => x = 0 \/ x = 1) m -> prev_perm m = None ->
  prev_perm (0 :: m) = None.
Proof.
  intros Hm Hp. cbn [prev_perm]. rewrite Hp.
  destruct m as [|y m]; [reflexivity|].
  inversion Hm as [|? ? [->| ->] _]; reflexivity.
Qed.

Lemma chain_map_cons (x : Z) (fin : option (list Z)) (l : list (list Z)) :
  chain_to None l -> prev_perm (x :: last l []) = fin ->
  chain_to fin (map (cons x) l).
Proof.
  induction l as [|m l IH]; intros Hc Hlast; [exact I|].
  destruct l as [|m' l].
  - exact Hlast.
  - destruct Hc as [Hm Hc]. cbn [map chain_to]. split.
    + cbn [prev_perm]. rewrite Hm. reflexivity.
    + apply IH; assumption.
Qed.

Lemma chain_app (fin : option (list Z)) (m2 : list Z) (l2 : list (list Z)) :
  forall l1, chain_to (Some m2) l1 -> chain_to fin (m2 :: l2) ->
  chain_to fin (l1 ++ m2 :: l2).
Proof.
  induction l1 as [|m l1 IH]; intros H1 H2; [exact H2|].
  destruct l1 as [|m' l1].
  - cbn [app chain_to]. split; [exact H1 | exact H2].
  - destruct H1 as [Hm H1]. split; [exact Hm | apply IH; assumption].
Qed.

Lemma masks_chain (n : nat) : forall k, (k <= n)%nat ->
  chain_to None (masks n k).
Proof.
  induction n as [|n IH]; intros [|k] Hk; try lia.
  - reflexivity.
  - cbn [masks app]. apply chain_map_cons; [apply IH; lia|].
    destruct (masks_last n 0 ltac:(lia)) as (pre & E).
    rewrite E, last_last.
    apply (prev_perm_ascending (S (n - 0)) 0).
  - cbn [masks]. destruct (masks_last n k ltac:(lia)) as (pre & E).
    destruct (Nat.eq_dec k n) as [->|Hne].
    + rewrite (masks_gt n (S n)) by lia. cbn [map]. rewrite app_nil_r.
      apply chain_map_cons; [apply IH; lia|].
      rewrite E, last_last, Nat.sub_diag. apply (prev_perm_ones (S n)).
    + destruct (masks_hd n (S k) ltac:(lia)) as (rest & Eh).
      destruct (masks_last n (S k) ltac:(lia)) as (pre' & El).
      assert (Hc2 : chain_to None (map (cons 0) (masks n (S k)))).
      { apply chain_map_cons; [apply IH; lia|].
        rewrite El, last_last.
        apply (prev_perm_ascending (S (n - S k)) (S k)). }
      rewrite Eh in Hc2 |- *. cbn [map] in Hc2 |- *.
      apply chain_app; [|exact Hc2].
      apply chain_map_cons; [apply IH; lia|].
      rewrite E, last_last.
      replace (n - k)%nat with (S (n - S k)) by lia.
      apply prev_perm_boundary.
Qed.

(** For every value of an [int], [reserve_int] is [reserve] on either of
    the two vectors. *)
Lemma reserve_int_spec (k : Z) :
  - 2 ^ 31 <= k < 2 ^ 31 ->
  reserve sizeof_int k = reserve_int k /\
  reserve sizeof_cpp_int k = reserve_int k.
Proof.
  intros Hk.
  assert (Hmod : k mod 2 ^ 64 = if k <? 0 then k + 2 ^ 64 else k).
  { destruct (Z.ltb_spec k 0).
    - symmetry. apply (Z.mod_unique k (2 ^ 64) (-1)); lia.
    - apply Z.mod_small. lia. }
  unfold reserve, reserve_int. rewrite Hmod.
  change (max_size sizeof_int) with 2305843009213693951.
  change (max_size sizeof_cpp_int) with 288230376151711743.
  destruct (Z.ltb_spec k 0); split;
    match goal with
    | |- (if ?a >? ?b then _ else _) = _ => destruct (Z.gtb_spec a b)
    end; try reflexivity; lia.
Qed.

(** ** The loop of [find_valid_constant] follows the enumeration *)

Section SearchRefinement.

Variable check : list Z -> list Z -> list Frac -> result (bool * list Frac).
Variables (xs_full ys_full : list Z) (n : nat).
Hypothesis Hxs : length xs_full = n.
Hypothesis Hys : length ys_full = n.

Lemma reserve_int_ok (k : Z) : 0 <= k -> reserve_int k = Ok tt.
Proof.
  intros Hk. unfold reserve_int.
  destruct (Z.ltb_spec k 0); [lia | reflexivity].
Qed.

Lemma search_loop_chain (k : Z) : 0 <= k -> forall ms m tried fuel,
  chain_to None (m :: ms) ->
  (length (m :: ms) <= fuel)%nat ->
  Forall (fun m => length m = n) (m :: ms) ->
  search_loop check fuel xs_full ys_full n k m tried
  = first_accepted check xs_full ys_full (m :: ms) tried.
Proof.
  intros Hk.
  induction ms as [|m' ms IH]; intros m tried fuel Hc Hfuel Hlen;
    (destruct fuel as [|fuel]; [simpl in Hfuel; lia|]);
    cbn [search_loop first_accepted];
    rewrite (reserve_int_ok k Hk); cbn [bind];
    rewrite (select_ok xs_full ys_full m n (Forall_inv Hlen) Hxs Hys);
    cbn [bind fst snd];
    destruct (check (pick m xs_full) (pick m ys_full) []) as [[b cs]|e];
    cbn [bind fst snd]; try reflexivity;
    destruct b; try reflexivity; unfold prev_permutation.
  - cbn [chain_to] in Hc. rewrite Hc. reflexivity.
  - destruct Hc as [Hm Hc]. rewrite Hm.
    apply IH; [exact Hc | simpl in *; lia | exact (Forall_inv_tail Hlen)].
Qed.

Lemma find_valid_constant_with_spec (k : Z) :
  0 <= k ->
  find_valid_constant_with check xs_full ys_full k
  = first_accepted check xs_full ys_full (masks n (Z.to_nat k)) [].
Proof.
  intros Hk. unfold find_valid_constant_with. rewrite Hxs.
  destruct (Z.gtb_spec k (Z.of_nat n)) as [Hgt|Hle].
  - rewrite masks_gt by lia. reflexivity.
  - rewrite choose_init by lia. cbn [bind]. rewrite sort_desc_mask.
    destruct (masks_hd n (Z.to_nat k) ltac:(lia)) as (rest & E).
    pose proof (masks_chain n (Z.to_nat k) ltac:(lia)) as Hc.
    pose proof (masks_length n (Z.to_nat k)) as Hl.
    assert (Hall : Forall (fun m => length m = n) (masks n (Z.to_nat k))).
    { apply Forall_forall. intros m Hm. apply masks_is_mask in Hm. apply Hm. }
    rewrite E in Hc, Hl, Hall |- *.
    apply search_loop_chain; [exact Hk | exact Hc | lia | exact Hall].
Qed.

End SearchRefinement.

Lemma first_accepted_cases
  (check : list Z -> list Z -> list Frac -> result (bool * list Frac))
  (xs ys : list Z) (ms : list (list Z)) :
  (forall m, In m ms ->
     exists b cs, check (pick m xs) (pick m ys) [] = Ok (b, cs) /\
                  (b = true -> cs <> [])) ->
  forall tried,
  (exists pre m post c0 cs,
     ms = pre ++ m :: post /\
     (forall m', In m' pre ->
        exists cs', check (pick m' xs) (pick m' ys) [] = Ok (false, cs')) /\
     check (pick m xs) (pick m ys) [] = Ok (true, c0 :: cs) /\
     first_accepted check xs ys ms tried
     = Ok (MkSearch (tried ++ pre ++ [m]) (Some (num c0)))) \/
  ((forall m, In m ms ->
      exists cs', check (pick m xs) (pick m ys) [] = Ok (false, cs')) /\
   first_accepted check xs ys ms tried = Ok (MkSearch (tried ++ ms) None)).
Proof.
  induction ms as [|m ms IH]; intros Hcheck tried.
  - right. split; [intros m []|]. simpl. rewrite app_nil_r. reflexivity.
  - destruct (Hcheck m (or_introl eq_refl)) as (b & cs & E & Hb).
    destruct b.
    + left. destruct cs as [|c0 cs]; [exfalso; apply Hb; reflexivity|].
      exists [], m, ms, c0, cs. split; [reflexivity|].
      split; [intros m' []|]. split; [exact E|].
      cbn [first_accepted]. rewrite E. reflexivity.
    + destruct (IH (fun m' H => Hcheck m' (or_intror H)) (tried ++ [m]))
        as [(pre & m1 & post & c0 & cs1 & Ems & Hpre & E1 & Er)|[Hall Er]].
      * left. exists (m :: pre), m1, post, c0, cs1.
        split; [rewrite Ems; reflexivity|]. split; [|split; [exact E1|]].
        -- intros m' [<-|Hm']; [exists cs; exact E | apply Hpre, Hm'].
        -- cbn [first_accepted]. rewrite E. cbn [bind fst].
           rewrite Er, <- app_assoc. reflexivity.
      * right. split.
        -- intros m' [<-|Hm']; [exists cs; exact E | apply Hall, Hm'].
        -- cbn [first_accepted]. rewrite E. cbn [bind fst].
           rewrite Er, <- app_assoc. reflexivity.
Qed.

Lemma pick_ones (mask : list Z) : forall xs,
  length xs = length mask -> length (pick mask xs) = ones mask.
Proof.
  unfold ones. induction mask as [|m mask IH]; intros [|x xs] H;
    try discriminate; [reflexivity|].
  simpl in *. destruct (m =? 0); simpl; rewrite IH by lia; reflexivity.
Qed.

(** ** The order of the enumeration *)

Lemma StronglySorted_app {A : Type} (R : A -> A -> Prop) (l1 l2 : list A) :
  StronglySorted R l1 -> StronglySorted R l2 ->
  (forall a b, In a l1 -> In b l2 -> R a b) ->
  StronglySorted R (l1 ++ l2).
Proof.
  induction l1 as [|a l1 IH]; intros H1 H2 H; [exact H2|].
  inversion H1 as [|? ? Hs Hf]; subst. simpl. constructor.
  - apply IH; [exact Hs | exact H2 | intros; apply H; simpl; auto].
  - apply Forall_app. split; [exact Hf|].
    apply Forall_forall. intros b Hb. apply H; simpl; auto.
Qed.

Lemma StronglySorted_map_cons (x : Z) (l : list (list Z)) :
  StronglySorted selects_first l ->
  StronglySorted selects_first (map (cons x) l).
Proof.
  induction 1 as [|m l Hs IH Hf]; simpl; constructor; [exact IH|].
  apply Forall_map. revert Hf. apply Forall_impl.
  intros m' Hm'. apply selects_later, Hm'.
Qed.

Lemma masks_sorted (n : nat) : forall k,
  StronglySorted selects_first (masks n k).
Proof.
  induction n as [|n IH]; intros k.
  - destruct k; simpl; repeat constructor.
  - cbn [masks]. apply StronglySorted_app.
    + destruct k; [constructor | apply StronglySorted_map_cons, IH].
    + apply StronglySorted_map_cons, IH.
    + intros a b Ha Hb. destruct k as [|k]; [destruct Ha|].
      apply in_map_iff in Ha. destruct Ha as (a' & <- & _).
      apply in_map_iff in Hb. destruct Hb as (b' & <- & _).
      apply selects_here. lia.
Qed.

(** ** Reconstruction of the constant term *)

Lemma masks_full (n : nat) : masks n n = [repeat 1 n].
Proof.
  induction n as [|n IH]; [reflexivity|].
  cbn [masks]. rewrite IH, (masks_gt n (S n)) by lia. reflexivity.
Qed.

Lemma interpolate_with_exact (rej : Frac -> bool) (cs xs : list Z)
  (out0 : list Frac) :
  length xs = length cs -> NoDup xs ->
  exists b out,
    interpolate_and_check_with rej xs (map (eval_poly cs) xs) out0
    = Ok (b, out) /\
    length out = length cs /\
    (forall i, (i < length cs)%nat -> nth i out Frac0 = MkFrac (nth i cs 0) 1) /\
    (b = true <->
     forall i, (i < length cs)%nat -> rej (MkFrac (nth i cs 0) 1) = false).
Proof.
  intros Hlen Hnd.
  destruct (solve_vandermonde_exact cs xs (eq_sym Hlen) Hnd)
    as (out & E & Hl & Hout).
  destruct (interpolate_and_check_with_ok rej xs (map (eval_poly cs) xs) out0)
    as (r & E' & Hr); [apply length_map|].
  rewrite E in E'. injection E' as <-.
  destruct Hr as (_ & _ & b & Eb & Hb).
  exists b, out. split; [exact Eb|]. rewrite <- Hlen.
  split; [exact Hl|]. split; [exact Hout|].
  rewrite Hb. split; intros H i Hi.
  - rewrite <- Hout by exact Hi. apply H, Hi.
  - rewrite Hout by exact Hi. apply H, Hi.
Qed.

(** On pairwise distinct abscissas a subset is accepted exactly when
    its points lie on a polynomial of degree below [k] with integer
    coefficients. *)
Lemma accepts_iff_integer_polynomial (xs ys : list Z) (out0 : list Frac) :
  length ys = length xs -> NoDup xs ->
  ((exists out, interpolate_and_check xs ys out0 = Ok (true, out)) <->
   (exists cs, length cs = length xs /\ map (eval_poly cs) xs = ys)).
Proof.
  intros Hlen Hnd. split.
  - intros [out E].
    destruct (solve_vandermonde_regular xs ys Hlen Hnd)
      as (fs & Es & Hl & Hwf & Hsolves & _).
    destruct (interpolate_and_check_with_ok rejected xs ys out0 Hlen)
      as (r & E' & Hr).
    rewrite Es in E'. injection E' as <-.
    destruct Hr as (_ & _ & b & Eb & Hb).
    unfold interpolate_and_check in E. rewrite Eb in E.
    injection E as -> _.
    assert (Hint : forall j, (j < length xs)%nat ->
              toQc (nth j fs Frac0) = ZtoQc (nth j (map num fs) 0)).
    { intros j Hj. change 0 with (num Frac0). rewrite map_nth.
      pose proof (proj1 Hb eq_refl j Hj) as Hrej.
      unfold rejected, isInteger in Hrej.
      apply negb_false_iff, Z.eqb_eq in Hrej.
      unfold toQc. rewrite Hrej, ZtoQc_1. field. apply Q_apart_0_1. }
    exists (map num fs). split; [rewrite length_map; exact Hl|].
    apply (nth_ext _ _ 0 0); [rewrite length_map; congruence|].
    intros r Hr. rewrite length_map in Hr.
    rewrite (nth_indep (map (eval_poly (map num fs)) xs) 0
               (eval_poly (map num fs) 0)) by (rewrite length_map; exact Hr).
    rewrite map_nth. apply ZtoQc_inj. rewrite <- (Hsolves r Hr).
    unfold eval_poly. rewrite eval_poly_from_Qc, length_map, Hl.
    apply sumQc_ext. intros j Hj. rewrite Hint by exact Hj. reflexivity.
  - intros (cs & Hcs & <-).
    destruct (interpolate_with_exact rejected cs xs out0 (eq_sym Hcs) Hnd)
      as (b & out & E & _ & _ & Hb).
    exists out. unfold interpolate_and_check. rewrite E.
    assert (b = true) as -> by (apply Hb; intros i Hi; reflexivity).
    reflexivity.
Qed.

(** C1. For every threshold [k >= 1], every polynomial with integer
    coefficients [c_0 .. c_(k-1)] and every choice of [k] pairwise distinct
    abscissas, the search on the [k] points of the polynomial at these
    abscissas with threshold [k] succeeds, after one attempt, with [c_0]. *)
Theorem exact_reconstruction (cs xs : list Z) :
  (1 <= length cs)%nat -> length xs = length cs -> NoDup xs ->
  find_valid_constant xs (map (eval_poly cs) xs) (Z.of_nat (length cs))
  = Ok (MkSearch [repeat 1 (length cs)] (Some (nth 0 cs 0))).
Proof.
  intros Hk Hlen Hnd. unfold find_valid_constant.
  rewrite (find_valid_constant_with_spec _ xs _ (length cs) Hlen)
    by first [rewrite length_map; exact Hlen | lia].
  rewrite Nat2Z.id, masks_full. cbn [first_accepted].
  rewrite <- Hlen at 1 2. rewrite pick_all.
  rewrite <- (length_map (eval_poly cs) xs) at 1. rewrite pick_all.
  destruct (interpolate_with_exact rejected cs xs [] Hlen Hnd)
    as (b & out & E & Hl & Hout & Hb).
  unfold interpolate_and_check. rewrite E. cbn [bind fst snd].
  assert (b = true) as -> by (apply Hb; intros i Hi; reflexivity).
  rewrite (vat_nth out 0 Frac0) by lia. cbn [bind].
  rewrite Hout by lia. reflexivity.
Qed.

(** The older variant reconstructs the constant term only of polynomials
    whose coefficients are all positive. *)
Lemma original_reconstruction (cs xs : list Z) :
  (1 <= length cs)%nat -> length xs = length cs -> NoDup xs ->
  Original.find_valid_constant xs (map (eval_poly cs) xs)
    (Z.of_nat (length cs))
  = Ok (MkSearch [repeat 1 (length cs)]
          (if forallb (fun c => 0 <? c) cs then Some (nth 0 cs 0) else None)).
Proof.
  intros Hk Hlen Hnd. unfold Original.find_valid_constant.
  rewrite (find_valid_constant_with_spec _ xs _ (length cs) Hlen)
    by first [rewrite length_map; exact Hlen | lia].
  rewrite Nat2Z.id, masks_full. cbn [first_accepted].
  rewrite <- Hlen at 1 2. rewrite pick_all.
  rewrite <- (length_map (eval_poly cs) xs) at 1. rewrite pick_all.
  destruct (interpolate_with_exact Original.rejected cs xs [] Hlen Hnd)
    as (b & out & E & Hl & Hout & Hb).
  unfold Original.interpolate_and_check. rewrite E. cbn [bind fst snd].
  assert (Hall : b = forallb (fun c => 0 <? c) cs).
  { apply eq_true_iff_eq. rewrite Hb, forallb_forall. split.
    - intros H c Hc. destruct (In_nth cs c 0 Hc) as (i & Hi & <-).
      specialize (H i Hi). unfold Original.rejected in H. simpl in H. lia.
    - intros H i Hi. specialize (H (nth i cs 0) (nth_In cs 0 Hi)).
      unfold Original.rejected. simpl. lia. }
  rewrite <- Hall. destruct b; [|reflexivity].
  rewrite (vat_nth out 0 Frac0) by lia. cbn [bind].
  rewrite Hout by lia. reflexivity.
Qed.

(** ** The search as a whole *)

Lemma interpolate_on_mask (rej : Frac -> bool) (xs ys : list Z) (k : nat)
  (m : list Z) :
  length ys = length xs -> (1 <= k)%nat -> is_mask (length xs) k m ->
  exists b cs,
    interpolate_and_check_with rej (pick m xs) (pick m ys) [] = Ok (b, cs) /\
    (b = true -> cs <> []).
Proof.
  intros Hlen Hk (Hm & _ & Ho).
  assert (Hp : length (pick m xs) = k)
    by (rewrite pick_ones by congruence; exact Ho).
  assert (Hpl : length (pick m ys) = length (pick m xs))
    by (apply pick_length; congruence).
  destruct (interpolate_and_check_with_ok rej (pick m xs) (pick m ys) [] Hpl)
    as ([cs|] & _ & H).
  - destruct H as (Hl & _ & b & E & _). exists b, cs. split; [exact E|].
    intros _ ->. simpl in Hl. lia.
  - exists false, []. split; [exact H | discriminate].
Qed.

(** C2. [find_valid_constant] tries the subsets of [k] of the [n] points
    in the order of [masks n k]: there are [C(n,k)] of them, they are
    exactly the masks of length [n] with [k] ones, and they come in
    lexicographic order of the selected positions. The search is the one
    that goes through this list and stops at the first subset that
    validates: either the subsets before some subset are all refused, this
    one is accepted, nothing after it is examined and the result is the
    numerator of its constant coefficient; or every subset is examined and
    refused and the function returns [false]. *)
Theorem search_is_first_accepted (xs ys : list Z) (k : Z) :
  length ys = length xs -> 1 <= k <= Z.of_nat (length xs) ->
  let n := length xs in
  let ms := masks n (Z.to_nat k) in
  find_valid_constant xs ys k = first_accepted interpolate_and_check xs ys ms []
  /\ length ms = binomial n (Z.to_nat k)
  /\ (forall m, In m ms <-> is_mask n (Z.to_nat k) m)
  /\ StronglySorted selects_first ms
  /\ ((exists pre m post c0 cs,
         ms = pre ++ m :: post /\
         (forall m', In m' pre ->
            exists cs', interpolate_and_check (pick m' xs) (pick m' ys) []
                        = Ok (false, cs')) /\
         interpolate_and_check (pick m xs) (pick m ys) [] = Ok (true, c0 :: cs) /\
         find_valid_constant xs ys k
         = Ok (MkSearch (pre ++ [m]) (Some (num c0))))
      \/
      ((forall m, In m ms ->
          exists cs', interpolate_and_check (pick m xs) (pick m ys) []
                      = Ok (false, cs')) /\
       find_valid_constant xs ys k = Ok (MkSearch ms None))).
Proof.
  intros Hlen Hk n ms.
  assert (Hspec : find_valid_constant xs ys k
                  = first_accepted interpolate_and_check xs ys ms []).
  { unfold find_valid_constant.
    apply (find_valid_constant_with_spec _ xs ys n eq_refl Hlen). lia. }
  split; [exact Hspec|]. split; [apply masks_length|].
  split; [apply masks_is_mask|]. split; [apply masks_sorted|].
  rewrite Hspec.
  apply (first_accepted_cases interpolate_and_check xs ys ms).
  intros m Hm. apply (interpolate_on_mask rejected xs ys (Z.to_nat k) m Hlen);
    [lia | apply masks_is_mask, Hm].
Qed.

(** With fewer points than the threshold the search returns [false] at
    once, without a single attempt. *)
Lemma too_few_points_no_attempt
  (check : list Z -> list Z -> list Frac -> result (bool * list Frac))
  (xs ys : list Z) (k : Z) :
  Z.of_nat (length xs) < k ->
  find_valid_constant_with check xs ys k = Ok (MkSearch [] None).
Proof.
  intros Hk. unfold find_valid_constant_with.
  destruct (Z.gtb_spec k (Z.of_nat (length xs))); [reflexivity | lia].
Qed.

(** ** The examples of the specification *)

(** C9, as the specification has it, does not hold: the polynomial
    [x^2 + x + 1] does not pass through [(2,6)] and the search on
    [{(1,3),(2,6),(3,11)}] does not return 1; the polynomial
    [x^2 + 2x + 2] does not pass through [(2,8)] and the search on
    [{(1,5),(2,8),(3,13),(4,20)}] does not return 2. *)
Lemma spec_examples_name_wrong_polynomials :
  eval_poly [1; 1; 1] 2 <> 6 /\
  (forall tried,
     find_valid_constant [1; 2; 3] [3; 6; 11] 3
     <> Ok (MkSearch tried (Some 1))) /\
  eval_poly [2; 2; 1] 2 <> 8 /\
  (forall tried,
     find_valid_constant [1; 2; 3; 4] [5; 8; 13; 20] 3
     <> Ok (MkSearch tried (Some 2))).
Proof.
  assert (E1 : find_valid_constant [1; 2; 3] [3; 6; 11] 3
               = Ok (MkSearch [[1; 1; 1]] (Some 2))) by (vm_compute; reflexivity).
  assert (E2 : find_valid_constant [1; 2; 3; 4] [5; 8; 13; 20] 3
               = Ok (MkSearch [[1; 1; 1; 0]] (Some 4))) by (vm_compute; reflexivity).
  split; [|split; [|split]].
  - vm_compute. discriminate.
  - intros tried H. rewrite E1 in H. discriminate.
  - vm_compute. discriminate.
  - intros tried H. rewrite E2 in H. discriminate.
Qed.

(** C9, amended. The points [{(1,3),(2,6),(3,11)}] lie on [x^2 + 2] and the
    search with threshold 3 returns 2; of the points
    [{(1,5),(2,8),(3,13),(4,20)}] the subset [{(1,5),(2,8),(3,13)}], the
    first in the order of the enumeration, lies on [x^2 + 4] and the search
    with threshold 3 accepts it, without trying another one, and returns
    4. *)
Theorem spec_examples_amended :
  map (eval_poly [2; 0; 1]) [1; 2; 3] = [3; 6; 11] /\
  find_valid_constant [1; 2; 3] [3; 6; 11] 3
  = Ok (MkSearch [[1; 1; 1]] (Some 2)) /\
  hd [] (masks 4 3) = [1; 1; 1; 0] /\
  pick [1; 1; 1; 0] [1; 2; 3; 4] = [1; 2; 3] /\
  pick [1; 1; 1; 0] [5; 8; 13; 20] = [5; 8; 13] /\
  map (eval_poly [4; 0; 1]) [1; 2; 3] = [5; 8; 13] /\
  find_valid_constant [1; 2; 3; 4] [5; 8; 13; 20] 3
  = Ok (MkSearch [[1; 1; 1; 0]] (Some 4)).
Proof. repeat split; vm_compute; reflexivity. Qed.

(** ** The two acceptance policies *)

(** C10. The two variants of [interpolate_and_check] are not the same
    function: on the points [(1,2),(2,2)], which lie on the constant
    polynomial 2, code.cpp accepts and the older variant refuses. And
    this shows in the search: among the points [(1,2),(2,2),(3,4)] with
    threshold 2 two subsets validate for code.cpp, which accepts the first
    and returns 2, while the older variant refuses the first (its
    coefficient of [x] is 0), accepts the second and returns 1. *)
Theorem variants_differ :
  (exists xs ys out0,
     interpolate_and_check xs ys out0
     <> Original.interpolate_and_check xs ys out0) /\
  (exists xs ys k m1 m2 r1 r2,
     m1 <> m2 /\ r1 <> r2 /\
     (exists cs, interpolate_and_check (pick m1 xs) (pick m1 ys) []
                 = Ok (true, cs)) /\
     (exists cs, interpolate_and_check (pick m2 xs) (pick m2 ys) []
                 = Ok (true, cs)) /\
     find_valid_constant xs ys k = Ok (MkSearch [m1] (Some r1)) /\
     Original.find_valid_constant xs ys k = Ok (MkSearch [m1; m2] (Some r2))).
Proof.
  split.
  - exists [1; 2], [2; 2], []. vm_compute. discriminate.
  - exists [1; 2; 3], [2; 2; 4], 2, [1; 1; 0], [1; 0; 1], 2, 1.
    split; [discriminate|]. split; [discriminate|].
    split; [eexists; vm_compute; reflexivity|].
    split; [eexists; vm_compute; reflexivity|].
    split; vm_compute; reflexivity.
Qed.

(** ** Requests and batches *)

Lemma digits_loop_total (n : nat) : forall t s,
  0 <= t < 2 ^ Z.of_nat n -> exists s', digits_loop (S n) t s = Ok s'.
Proof.
  induction n as [|n IH]; intros t s Ht.
  - assert (t = 0) by (simpl in Ht; lia). subst t. eexists. reflexivity.
  - cbn [digits_loop]. destruct (Z.gtb_spec t 0) as [Hpos|_].
    + apply IH. rewrite Nat2Z.inj_succ, Z.pow_succ_r in Ht by lia.
      split; [apply Z.quot_pos; lia|].
      apply Z.quot_lt_upper_bound; lia.
    + eexists. reflexivity.
Qed.

(** The conversion to decimal digits always returns. *)
Lemma cpp_int_to_string_total (v : Z) : exists s, cpp_int_to_string v = Ok s.
Proof.
  unfold cpp_int_to_string. destruct (v =? 0); [eexists; reflexivity|].
  set (t := if v <? 0 then - v else v).
  assert (Ht : 0 <= t) by (subst t; destruct (Z.ltb_spec v 0); lia).
  destruct (digits_loop_total (S (Z.to_nat (Z.log2 t))) t EmptyString)
    as (s & E).
  - split; [exact Ht|].
    rewrite Nat2Z.inj_succ, Z2Nat.id by apply Z.log2_nonneg.
    destruct (Z.eq_dec t 0) as [->|Hne]; [reflexivity|].
    apply Z.log2_spec. lia.
  - rewrite E. cbn [bind]. eexists. reflexivity.
Qed.

Lemma string_app_nil_r (s : string) : (s ++ EmptyString)%string = s.
Proof.
  induction s as [|c s IH]; [reflexivity|]. cbn [String.append].
  rewrite IH. reflexivity.
Qed.

Lemma string_app_assoc (s t u : string) :
  ((s ++ t) ++ u)%string = (s ++ t ++ u)%string.
Proof.
  induction s as [|c s IH]; [reflexivity|]. cbn [String.append].
  rewrite IH. reflexivity.
Qed.

(** A batch of requests none of which throws is answered line by line. *)
Lemma main_loop_no_exception (objects : list string) :
  Forall (fun obj => exists r, solve_one_json_string obj = Ok r) objects ->
  forall out anyPrinted,
  exists lines code,
    main_loop objects out anyPrinted
    = MkRun (out ++ String.concat EmptyString lines) (Ok code) /\
    length lines = length objects.
Proof.
  induction 1 as [|obj objects [r Hr] _ IH]; intros out anyPrinted.
  - exists [], (if anyPrinted then 0 else 1). cbn [main_loop String.concat].
    split; [|reflexivity]. rewrite string_app_nil_r. reflexivity.
  - cbn [main_loop]. rewrite Hr. destruct r as [cstr|].
    + destruct (IH (out ++ cstr ++ newline)%string true)
        as (lines & code & E & Hl).
      exists ((cstr ++ newline)%string :: lines), code. rewrite E.
      split; [|simpl; lia]. f_equal.
      destruct lines; cbn [String.concat]; rewrite ?string_app_assoc;
        cbn [String.append]; rewrite ?string_app_nil_r; reflexivity.
    + destruct (IH (out ++ "ERROR" ++ newline)%string anyPrinted)
        as (lines & code & E & Hl).
      exists (("ERROR" ++ newline)%string :: lines), code. rewrite E.
      split; [|simpl; lia]. f_equal.
      destruct lines; cbn [String.concat]; rewrite ?string_app_assoc;
        cbn [String.append]; rewrite ?string_app_nil_r; reflexivity.
Qed.

(** C5 does not hold of the program. A request that is refused with
    [return false] is answered with the line [ERROR] and the batch goes
    on; but the exceptions of [parse_in_base_cpp] (a digit that the base
    does not have) and of [std::stoll] (a number that cannot be read) are
    caught nowhere: the run ends there, with nothing written for the bad
    request and the requests after it never looked at, although each of
    them on its own is answered. Not even the answer to a good request
    that came before the bad one reaches the standard output: it is in
    the buffer of [cout], which is lost with the run. *)
Theorem malformed_record_ends_the_batch :
  let good := json_request "1" "1" [json_share "1" "10" "5"] in
  let empty := "{}"%string in
  let bad_digit := json_request "1" "1" [json_share "1" "2" "12"] in
  let bad_number := json_request "x" "1" [json_share "1" "10" "5"] in
  main good = MkRun ("5" ++ newline) (Ok 0) /\
  main (empty ++ good) = MkRun ("ERROR" ++ newline ++ "5" ++ newline) (Ok 0) /\
  main (bad_digit ++ good)
  = MkRun EmptyString
          (Err (runtime_error "digit >= base in parse_in_base_cpp")) /\
  main (bad_number ++ good)
  = MkRun EmptyString (Err (invalid_argument "stoll")) /\
  main (good ++ bad_digit ++ good)
  = MkRun EmptyString
          (Err (runtime_error "digit >= base in parse_in_base_cpp")).
Proof. repeat split; vm_compute; reflexivity. Qed.

(** C6, as the specification has it, does not hold: the program has one
    failure outcome, [false] and the line [ERROR], for a request with
    fewer points than the threshold (here 2 points, threshold 4, no
    attempt) and for a request none of whose subsets is consistent (here
    the points [(1,0),(3,1)], threshold 2, one attempt, refused). *)
Lemma too_few_points_reported_like_no_subset :
  let few := json_request "2" "4"
               [json_share "1" "10" "1"; json_share "2" "10" "0"] in
  let inconsistent := json_request "3" "2"
               [json_share "1" "10" "0"; json_share "3" "10" "1"] in
  parse_points few 1 2 [] [] = Ok (Some ([1; 2], [1; 0])) /\
  parse_points inconsistent 1 3 [] [] = Ok (Some ([1; 3], [0; 1])) /\
  solve_points [1; 2] [1; 0] 4 = Ok ([], None) /\
  solve_points [1; 3] [0; 1] 2 = Ok ([[1; 1]], None) /\
  solve_one_json_string few = solve_one_json_string inconsistent /\
  main few = main inconsistent /\
  main few = MkRun ("ERROR" ++ newline) (Ok 1).
Proof. repeat split; vm_compute; reflexivity. Qed.

(** C6, amended. For every request whose list of points is shorter than
    the threshold, the program returns [false] at once - the outcome that
    it also has when no subset is consistent - and not one subset is
    tried: line 242 returns before the search is called, and the search
    itself, line 158, returns before its loop. *)
Theorem too_few_points_fail_fast (xs ys : list Z) (k : Z) :
  Z.of_nat (length xs) < 2 ^ 31 -> Z.of_nat (length xs) < k ->
  solve_points xs ys k = Ok ([], None) /\
  find_valid_constant xs ys k = Ok (MkSearch [] None).
Proof.
  intros Hint Hk. split.
  - unfold solve_points, to_int.
    replace ((Z.of_nat (length xs) + 2 ^ 31) mod 2 ^ 32 - 2 ^ 31)
      with (Z.of_nat (length xs)).
    + destruct (Z.ltb_spec (Z.of_nat (length xs)) k); [reflexivity | lia].
    + rewrite Z.mod_small by lia. ring.
  - apply too_few_points_no_attempt, Hk.
Qed.

(** ** The theorems at concrete inputs *)

(** The polynomial [4x^2 - 3] at the abscissas 2, 5 and 7. *)
Lemma exact_reconstruction_witness :
  find_valid_constant [2; 5; 7] (map (eval_poly [-3; 0; 4]) [2; 5; 7]) 3
  = Ok (MkSearch [[1; 1; 1]] (Some (-3))).
Proof.
  apply (exact_reconstruction [-3; 0; 4] [2; 5; 7]).
  - simpl. lia.
  - reflexivity.
  - repeat constructor; simpl; intuition lia.
Defined.

Lemma search_is_first_accepted_witness :
  find_valid_constant [1; 2; 3] [2; 2; 4] 2
  = first_accepted interpolate_and_check [1; 2; 3] [2; 2; 4] (masks 3 2) [].
Proof.
  destruct (search_is_first_accepted [1; 2; 3] [2; 2; 4] 2) as [H _].
  - reflexivity.
  - simpl. lia.
  - exact H.
Defined.

Lemma frac_always_reduced_witness :
  exists f, Frac_ctor 6 (-4) = Ok f /\
            Z.gcd (Z.abs (num f)) (den f) = 1 /\ 0 < den f.
Proof.
  destruct (proj1 frac_always_reduced 6 (-4)) as (f & E & Hg & Hd & _).
  - lia.
  - exists f. split; [exact E|]. split; [exact Hg | exact Hd].
Defined.

Lemma distinct_abscissas_never_singular_witness :
  exists cs b,
    solve_vandermonde [1; 3] [0; 1] = Ok (Some cs) /\
    interpolate_and_check [1; 3] [0; 1] [] = Ok (b, cs) /\
    length cs = length [1; 3] /\
    (forall e, DivisionByZero e ->
       interpolate_and_check [1; 3] [0; 1] [] <> Err e).
Proof.
  apply (distinct_abscissas_never_singular [1; 3] [0; 1] []).
  - reflexivity.
  - repeat constructor; simpl; intuition lia.
Defined.

Lemma too_few_points_fail_fast_witness :
  solve_points [1; 2] [1; 0] 4 = Ok ([], None) /\
  find_valid_constant [1; 2] [1; 0] 4 = Ok (MkSearch [] None).
Proof.
  apply (too_few_points_fail_fast [1; 2] [1; 0] 4); simpl; lia.
Defined.

(* ================================================================== *)
(** * Further properties of the code *)

(** ** The fraction type *)

(** X1. [gcd_abs] returns the greatest common divisor of the absolute
    values of its arguments, for all integers: Euclid's loop ends within
    the iterations that the embedding grants it. *)
Theorem gcd_abs_is_gcd (a b : Z) :
  gcd_abs a b = Ok (Z.gcd a b) /\
  (forall g, gcd_abs a b = Ok g ->
     0 <= g /\ (g | a) /\ (g | b) /\
     forall d, (d | a) -> (d | b) -> (d | g)).
Proof.
  split; [apply gcd_abs_spec|].
  intros g H. rewrite gcd_abs_spec in H. injection H as <-.
  split; [apply Z.gcd_nonneg|]. split; [apply Z.gcd_divide_l|].
  split; [apply Z.gcd_divide_r|]. intros d. apply Z.gcd_greatest.
Qed.

Lemma gcd_abs_is_gcd_witness :
  gcd_abs 12 (-18) = Ok 6 /\
  (forall g, gcd_abs 12 (-18) = Ok g ->
     0 <= g /\ (g | 12) /\ (g | -18) /\
     forall d, (d | 12) -> (d | -18) -> (d | g)).
Proof.
  apply (gcd_abs_is_gcd 12 (-18)).
Defined.

Lemma Frac_add_val (a b : Frac) :
  Frac_wf a -> Frac_wf b ->
  exists f, Frac_add a b = Ok f /\ Frac_wf f /\
            toQc f = (toQc a + toQc b)%Qc.
Proof.
  intros Ha Hb. unfold Frac_add.
  destruct (Frac_ctor_val (num a * den b + num b * den a) (den a * den b))
    as (f & E & Hwf & Hv); [apply Frac_wf_den_mul; assumption|].
  exists f. split; [exact E|]. split; [exact Hwf|].
  rewrite Hv. unfold toQc. rewrite ZtoQc_add, !ZtoQc_mul.
  pose proof (Frac_wf_den a Ha). pose proof (Frac_wf_den b Hb).
  field. split; assumption.
Qed.

(** X2. The four operators are exact: on fractions that satisfy the
    invariant they return, without an exception, the fraction whose value
    is the sum, the difference, the product and - for a divisor that is
    not zero - the quotient of the values of the operands. *)
Theorem frac_operators_exact (a b : Frac) :
  Frac_wf a -> Frac_wf b ->
  (exists f, Frac_add a b = Ok f /\ toQc f = (toQc a + toQc b)%Qc) /\
  (exists f, Frac_sub a b = Ok f /\ toQc f = (toQc a - toQc b)%Qc) /\
  (exists f, Frac_mul a b = Ok f /\ toQc f = (toQc a * toQc b)%Qc) /\
  (toQc b <> 0%Qc ->
   exists f, Frac_div a b = Ok f /\ toQc f = (toQc a / toQc b)%Qc).
Proof.
  intros Ha Hb. split; [|split; [|split]].
  - destruct (Frac_add_val a b Ha Hb) as (f & E & _ & Hv). eauto.
  - destruct (Frac_sub_val a b Ha Hb) as (f & E & _ & Hv). eauto.
  - destruct (Frac_mul_val a b Ha Hb) as (f & E & _ & Hv). eauto.
  - intros Hnz.
    assert (Hn : num b <> 0).
    { intros Hz. apply Hnz. apply toQc_zero_iff; assumption. }
    destruct (Frac_div_val a b Ha Hb Hn) as (f & E & _ & Hv). eauto.
Qed.

Lemma frac_operators_exact_witness :
  exists f, Frac_add (MkFrac 1 2) (MkFrac 1 3) = Ok f /\
            toQc f = (toQc (MkFrac 1 2) + toQc (MkFrac 1 3))%Qc.
Proof.
  apply (frac_operators_exact (MkFrac 1 2) (MkFrac 1 3));
    split; simpl; try lia; reflexivity.
Defined.

Lemma Frac_canonical (a b : Frac) :
  Frac_wf a -> Frac_wf b -> toQc a = toQc b -> a = b.
Proof.
  intros [Hda Hga] [Hdb Hgb] E.
  assert (Hx : num a * den b = num b * den a).
  { apply ZtoQc_inj. rewrite !ZtoQc_mul.
    assert (Ha : ZtoQc (den a) <> 0%Qc) by (apply ZtoQc_nonzero; lia).
    assert (Hb : ZtoQc (den b) <> 0%Qc) by (apply ZtoQc_nonzero; lia).
    unfold toQc in E.
    transitivity (ZtoQc (num a) / ZtoQc (den a) * (ZtoQc (den a) * ZtoQc (den b)))%Qc.
    - field. exact Ha.
    - rewrite E. field. exact Hb. }
  rewrite Z.gcd_abs_l in Hga, Hgb.
  assert (H1 : (den a | den b)).
  { apply (Z.gauss (den a) (num a) (den b)).
    - exists (num b). rewrite Hx. ring.
    - rewrite Z.gcd_comm. exact Hga. }
  assert (H2 : (den b | den a)).
  { apply (Z.gauss (den b) (num b) (den a)).
    - exists (num a). rewrite <- Hx. ring.
    - rewrite Z.gcd_comm. exact Hgb. }
  assert (Hd : den a = den b).
  { apply Z.divide_antisym_nonneg; try lia; assumption. }
  assert (Hn : num a = num b).
  { rewrite Hd in Hx. apply (Z.mul_reg_r _ _ (den b)); [lia | exact Hx]. }
  destruct a, b. simpl in *. subst. reflexivity.
Qed.

(** X3. The representation is canonical: two fractions that satisfy the
    invariant and stand for the same rational number are the same pair of
    numerator and denominator. *)
Theorem frac_equal_values_equal (a b : Frac) :
  Frac_wf a -> Frac_wf b -> (toQc a = toQc b <-> a = b).
Proof.
  intros Ha Hb. split; [apply Frac_canonical; assumption|].
  intros ->. reflexivity.
Qed.

Lemma frac_equal_values_equal_witness :
  toQc (MkFrac (-3) 4) = toQc (MkFrac (-3) 4) <-> MkFrac (-3) 4 = MkFrac (-3) 4.
Proof.
  apply (frac_equal_values_equal (MkFrac (-3) 4) (MkFrac (-3) 4));
    split; simpl; try lia; reflexivity.
Defined.

(** X4. The constructor normalises: a common non-zero factor of numerator
    and denominator, of either sign, does not change the fraction that it
    builds, and it gives back every fraction that satisfies the invariant
    when applied to that fraction's numerator and denominator. *)
Theorem frac_ctor_normal_form (n d c : Z) (f : Frac) :
  d <> 0 -> c <> 0 -> Frac_wf f ->
  Frac_ctor (n * c) (d * c) = Frac_ctor n d /\
  Frac_ctor (num f) (den f) = Ok f.
Proof.
  intros Hd Hc Hf. split.
  - destruct (Frac_ctor_val n d Hd) as (f1 & E1 & Hwf1 & Hv1).
    destruct (Frac_ctor_val (n * c) (d * c)) as (f2 & E2 & Hwf2 & Hv2);
      [nia|].
    rewrite E1, E2. f_equal. apply Frac_canonical; try assumption.
    rewrite Hv1, Hv2, !ZtoQc_mul.
    pose proof (ZtoQc_nonzero d Hd). pose proof (ZtoQc_nonzero c Hc).
    field. split; assumption.
  - destruct (Frac_ctor_val (num f) (den f)) as (f' & E & Hwf' & Hv);
      [destruct Hf; lia|].
    rewrite E. f_equal. apply Frac_canonical; assumption.
Qed.

Lemma frac_ctor_normal_form_witness :
  Frac_ctor (6 * -5) (4 * -5) = Frac_ctor 6 4 /\
  Frac_ctor (num (MkFrac 3 2)) (den (MkFrac 3 2)) = Ok (MkFrac 3 2).
Proof.
  apply (frac_ctor_normal_form 6 4 (-5) (MkFrac 3 2)); try lia.
  split; simpl; try lia; reflexivity.
Defined.

(** ** The solver *)

Lemma peval_sum (p : list Qc) (x : Qc) :
  peval p x = sumQc (length p) (fun j => (x ^ j * nth j p 0)%Qc).
Proof.
  induction p as [|c p IH]; [reflexivity|].
  cbn [peval length]. rewrite sumQc_shift, IH, <- sumQc_scale.
  cbn [nth]. f_equal; [simpl; ring|].
  apply sumQc_ext. intros j Hj. simpl. ring.
Qed.

Lemma nth_map_toQc (cs : list Frac) (j : nat) :
  (j < length cs)%nat -> nth j (map toQc cs) 0%Qc = toQc (nth j cs Frac0).
Proof.
  intros Hj. rewrite (nth_indep (map toQc cs) 0%Qc (toQc Frac0))
    by (rewrite length_map; exact Hj).
  apply map_nth.
Qed.

(** On pairwise distinct abscissas the coefficients that the elimination
    returns are those of the interpolating polynomial. *)
Lemma solve_vandermonde_interpolates (xs ys : list Z) :
  length ys = length xs -> NoDup xs ->
  exists cs, solve_vandermonde xs ys = Ok (Some cs) /\
    length cs = length xs /\
    (forall i, (i < length xs)%nat -> Frac_wf (nth i cs Frac0)) /\
    (forall r, (r < length xs)%nat ->
       peval (map toQc cs) (ZtoQc (nth r xs 0)) = ZtoQc (nth r ys 0)) /\
    (forall p : list Qc, length p = length xs ->
       (forall r, (r < length xs)%nat ->
          peval p (ZtoQc (nth r xs 0)) = ZtoQc (nth r ys 0)) ->
       p = map toQc cs).
Proof.
  intros Hlen Hnd.
  destruct (solve_vandermonde_regular xs ys Hlen Hnd)
    as (cs & E & Hl & Hwf & Hsolves & Huniq).
  exists cs. split; [exact E|]. split; [exact Hl|]. split; [exact Hwf|]. split.
  - intros r Hr. rewrite peval_sum, length_map, Hl, <- (Hsolves r Hr).
    apply sumQc_ext. intros j Hj. rewrite nth_map_toQc by lia. reflexivity.
  - intros p Hp Hval.
    apply (nth_ext _ _ 0%Qc 0%Qc); [rewrite length_map; congruence|].
    intros i Hi. rewrite nth_map_toQc by lia. symmetry.
    apply (Huniq (fun j => nth j p 0%Qc)); [|lia].
    intros r Hr. rewrite <- (Hval r Hr), peval_sum, Hp. reflexivity.
Qed.

(** X5. On pairwise distinct abscissas and arbitrary integer ordinates
    the elimination returns the interpolating polynomial: the [k]
    coefficients that come back, read as rationals, give a polynomial that
    takes the value [y_i] at every [x_i], and no other list of [k]
    rational coefficients does. *)
Theorem solver_interpolates (xs ys : list Z) :
  length ys = length xs -> NoDup xs ->
  exists cs, solve_vandermonde xs ys = Ok (Some cs) /\
    length cs = length xs /\
    (forall r, (r < length xs)%nat ->
       peval (map toQc cs) (ZtoQc (nth r xs 0)) = ZtoQc (nth r ys 0)) /\
    (forall p : list Qc, length p = length xs ->
       (forall r, (r < length xs)%nat ->
          peval p (ZtoQc (nth r xs 0)) = ZtoQc (nth r ys 0)) ->
       p = map toQc cs).
Proof.
  intros Hlen Hnd.
  destruct (solve_vandermonde_interpolates xs ys Hlen Hnd)
    as (cs & E & Hl & _ & Hsolves & Huniq).
  exists cs. split; [exact E|]. split; [exact Hl|].
  split; [exact Hsolves | exact Huniq].
Qed.

Lemma solver_interpolates_witness :
  exists cs, solve_vandermonde [1; 3] [0; 1] = Ok (Some cs) /\
    length cs = length [1; 3] /\
    (forall r, (r < length [1; 3])%nat ->
       peval (map toQc cs) (ZtoQc (nth r [1; 3] 0)) = ZtoQc (nth r [0; 1] 0)) /\
    (forall p : list Qc, length p = length [1; 3] ->
       (forall r, (r < length [1; 3])%nat ->
          peval p (ZtoQc (nth r [1; 3] 0)) = ZtoQc (nth r [0; 1] 0)) ->
       p = map toQc cs).
Proof.
  apply (solver_interpolates [1; 3] [0; 1]).
  - reflexivity.
  - repeat constructor; simpl; intuition lia.
Defined.

Lemma peval_plin (a x : Qc) (p : list Qc) : forall carry,
  peval (plin a carry p) x = (carry + (x - a) * peval p x)%Qc.
Proof.
  induction p as [|c p IH]; intros carry; cbn [plin peval].
  - ring.
  - rewrite IH. ring.
Qed.

Lemma plin_monic (a z : Qc) (q : list Qc) : forall carry,
  exists s, plin a carry (q ++ [z]) = s ++ [z] /\ length s = S (length q).
Proof.
  induction q as [|c q IH]; intros carry.
  - exists [(carry - a * z)%Qc]. split; reflexivity.
  - destruct (IH c) as (s & E & Hl).
    exists ((carry - a * c)%Qc :: s). cbn [app plin]. rewrite E.
    split; [reflexivity | simpl; lia].
Qed.

Lemma roots_poly_monic (l : list Qc) :
  exists q, roots_poly l = q ++ [1%Qc] /\ length q = length l.
Proof.
  induction l as [|a l (q & E & Hl)].
  - exists []. split; reflexivity.
  - cbn [roots_poly fold_right]. fold (roots_poly l). rewrite E.
    destruct (plin_monic a 1%Qc q 0%Qc) as (s & Es & Hs).
    exists s. split; [exact Es | simpl; lia].
Qed.

Lemma roots_poly_root (l : list Qc) (a : Qc) :
  In a l -> peval (roots_poly l) a = 0%Qc.
Proof.
  induction l as [|b l IH]; intros Ha; [destruct Ha|].
  cbn [roots_poly fold_right]. fold (roots_poly l). rewrite peval_plin.
  destruct Ha as [->|Ha]; [ring|]. rewrite (IH Ha). ring.
Qed.

(** With a repeated abscissa some non-zero vector is sent to zero by the
    Vandermonde matrix: the coefficients of the product of the [X - x]
    over the abscissas, one copy of the repeated one left out. *)
Lemma vandermonde_repeated (xs : list Z) (M : QMatrix) :
  ~ NoDup xs ->
  (forall r j, (r < length xs)%nat -> (j < length xs)%nat ->
     M r j = Qcpower (ZtoQc (nth r xs 0)) j) ->
  exists v : nat -> Qc,
    (exists j, (j < length xs)%nat /\ v j <> 0%Qc) /\
    forall r, (r < length xs)%nat -> dot (length xs) M r v = 0%Qc.
Proof.
  intros Hdup HM.
  destruct (not_NoDup (fun x y : Z => Z.eq_decidable x y) Hdup)
    as (a & l1 & l2 & l3 & Exs).
  set (xs' := l1 ++ a :: l2 ++ l3).
  assert (Hlen : length xs = S (length xs')).
  { rewrite Exs. unfold xs'. rewrite !length_app. cbn [length].
    rewrite !length_app. cbn [length]. lia. }
  assert (Hin : forall x, In x xs -> In x xs').
  { intros x. rewrite Exs. unfold xs'.
    rewrite !in_app_iff. cbn [In]. rewrite !in_app_iff. cbn [In]. tauto. }
  destruct (roots_poly_monic (map ZtoQc xs')) as (q & Eq & Hq).
  rewrite length_map in Hq.
  exists (fun j => nth j (roots_poly (map ZtoQc xs')) 0%Qc). split.
  - exists (length xs'). split; [lia|].
    rewrite Eq, <- Hq, nth_middle. apply Q_apart_0_1.
  - intros r Hr.
    transitivity (peval (roots_poly (map ZtoQc xs')) (ZtoQc (nth r xs 0))).
    + rewrite peval_sum, Eq, length_app, Hq. cbn [length].
      rewrite Nat.add_1_r, <- Hlen. unfold dot. apply sumQc_ext.
      intros j Hj. rewrite HM by assumption. reflexivity.
    + apply roots_poly_root, in_map, Hin, nth_In, Hr.
Qed.

Lemma step_kernel (k col sel : nat) (M : QMatrix) (v : nat -> Qc) :
  (col < k)%nat -> (col <= sel < k)%nat -> M sel col <> 0%Qc ->
  reduced_upto k col M ->
  (forall r, (r < k)%nat -> dot k M r v = 0%Qc) ->
  forall r, (r < k)%nat -> dot k (q_step col col sel M) r v = 0%Qc.
Proof.
  intros Hcol Hsel Hp Hred Hv.
  assert (HS : forall r, (r < k)%nat -> dot k (q_swap sel col M) r v = 0%Qc).
  { intros r Hr. rewrite step_dot_swap. apply Hv.
    apply swap_index_lt; assumption. }
  assert (Hpiv : dot k (q_step col col sel M) col v = 0%Qc).
  { rewrite (step_dot_pivot k col sel M Hcol Hsel Hp Hred), (HS col Hcol).
    field. rewrite (step_pivot k col sel M Hcol Hsel). exact Hp. }
  intros r Hr. destruct (Nat.eq_dec r col) as [->|Hne]; [exact Hpiv|].
  rewrite (step_dot_other k col sel M Hcol Hsel Hp Hred r v Hne).
  rewrite Hpiv, (HS r Hr). ring.
Qed.

Lemma gauss_loop_singular (k : nat) : forall cnt col A,
  (col + cnt = k)%nat -> mx_wf k A -> reduced_upto k col (mxq A) ->
  (exists v : nat -> Qc,
     (exists j, (j < k)%nat /\ v j <> 0%Qc) /\
     forall r, (r < k)%nat -> dot k (mxq A) r v = 0%Qc) ->
  gauss_loop k col col cnt A = Ok None.
Proof.
  induction cnt as [|cnt IH]; intros col A Hk Hwf Hred (v & (j & Hj & Hvj) & Hv).
  - exfalso. assert (col = k) by lia. subst col. apply Hvj.
    rewrite <- (Hv j Hj). unfold dot.
    rewrite (sumQc_delta k j) by
      (try exact Hj; intros i Hi Hne; rewrite Hred by assumption;
       unfold delta; nat_cases; ring).
    rewrite Hred by assumption. unfold delta. rewrite Nat.eqb_refl. ring.
  - cbn [gauss_loop].
    destruct (gauss_step_ok k col A Hwf ltac:(lia))
      as [(sel & A1 & Hsel & Hp & E1 & Hwf1 & H1)|[E1 _]];
      rewrite E1; cbn [bind]; [|reflexivity].
    apply IH; [lia | exact Hwf1 | |].
    + apply (reduced_upto_ext k (S col) A1 _ ltac:(lia) H1).
      apply step_reduced; try assumption; lia.
    + exists v. split; [exists j; split; assumption|].
      intros r Hr.
      rewrite (dot_ext k (q_step col col sel (mxq A)) (mxq A1) r v)
        by (intros c Hc; apply H1; lia).
      apply step_kernel; try assumption; lia.
Qed.

(** With an abscissa that occurs twice the elimination comes to a column
    without a pivot. *)
Lemma solve_vandermonde_repeated (xs ys : list Z) :
  length ys = length xs -> ~ NoDup xs -> solve_vandermonde xs ys = Ok None.
Proof.
  intros Hlen Hdup. unfold solve_vandermonde.
  destruct (build_matrix_ok xs ys Hlen) as (A & EA & Hwf & HA).
  rewrite EA. cbn [bind]. rewrite Nat.sub_0_r, Nat.min_id.
  rewrite (gauss_loop_singular (length xs) (length xs) 0%nat A eq_refl Hwf);
    [reflexivity | intros r j Hr Hj; lia |].
  apply (vandermonde_repeated xs); [exact Hdup|].
  intros r j Hr Hj. apply HA; assumption.
Qed.

(** ** Acceptance of a subset *)

(** C3. For a subset of [k] points with pairwise distinct abscissas - the
    subsets on which the elimination is not singular -
    [interpolate_and_check] of code.cpp returns, with the [k] solved
    coefficients in [out_coeff]: fractions in lowest terms that are the
    coefficients of the one polynomial of degree below [k] through the
    points. It returns [true] exactly when every one of them has
    denominator 1, that is, exactly when every one of them is an integer,
    that is, exactly when the points lie on a polynomial of degree below
    [k] with integer coefficients; a single coefficient that is not an
    integer makes it return [false]. A subset in which an abscissa occurs
    twice, the singular case, is refused with [out_coeff] untouched. *)
Theorem accepts_iff_all_integer (xs ys : list Z) (out0 : list Frac) :
  length ys = length xs ->
  (NoDup xs ->
   exists b cs,
     interpolate_and_check xs ys out0 = Ok (b, cs) /\
     length cs = length xs /\
     (forall i, (i < length xs)%nat -> Frac_wf (nth i cs Frac0)) /\
     (forall r, (r < length xs)%nat ->
        peval (map toQc cs) (ZtoQc (nth r xs 0)) = ZtoQc (nth r ys 0)) /\
     (forall p : list Qc, length p = length xs ->
        (forall r, (r < length xs)%nat ->
           peval p (ZtoQc (nth r xs 0)) = ZtoQc (nth r ys 0)) ->
        p = map toQc cs) /\
     (b = true <->
      forall i, (i < length xs)%nat -> den (nth i cs Frac0) = 1) /\
     (b = true <->
      forall i, (i < length xs)%nat ->
        exists z, toQc (nth i cs Frac0) = ZtoQc z) /\
     (b = true <->
      exists zs, length zs = length xs /\ map (eval_poly zs) xs = ys) /\
     ((exists i, (i < length xs)%nat /\
         forall z, toQc (nth i cs Frac0) <> ZtoQc z) -> b = false)) /\
  (~ NoDup xs -> interpolate_and_check xs ys out0 = Ok (false, out0)).
Proof.
  intros Hlen. split.
  - intros Hnd.
    destruct (solve_vandermonde_interpolates xs ys Hlen Hnd)
      as (cs & E & Hl & Hwf & Hsolves & Huniq).
    destruct (check_decides_integrality xs ys out0 Hlen) as (r & E' & Hr).
    rewrite E in E'. injection E' as <-.
    destruct Hr as (_ & b & Eb & H1 & H2 & H3).
    exists b, cs. split; [exact Eb|]. split; [exact Hl|].
    split; [exact Hwf|]. split; [exact Hsolves|]. split; [exact Huniq|].
    split; [exact H1|]. split; [exact H2|]. split; [|exact H3].
    pose proof (accepts_iff_integer_polynomial xs ys out0 Hlen Hnd) as Hpoly.
    rewrite <- Hpoly. rewrite Eb. split.
    + intros ->. exists cs. reflexivity.
    + intros [out Eout]. injection Eout as -> _. reflexivity.
  - intros Hdup. unfold interpolate_and_check, interpolate_and_check_with.
    rewrite (solve_vandermonde_repeated xs ys Hlen Hdup). reflexivity.
Qed.

Lemma accepts_iff_all_integer_witness :
  exists b cs,
    interpolate_and_check [1; 3] [0; 1] [] = Ok (b, cs) /\
    length cs = length [1; 3] /\
    (forall i, (i < length [1; 3])%nat -> Frac_wf (nth i cs Frac0)) /\
    (forall r, (r < length [1; 3])%nat ->
       peval (map toQc cs) (ZtoQc (nth r [1; 3] 0))
       = ZtoQc (nth r [0; 1] 0)) /\
    (forall p : list Qc, length p = length [1; 3] ->
       (forall r, (r < length [1; 3])%nat ->
          peval p (ZtoQc (nth r [1; 3] 0)) = ZtoQc (nth r [0; 1] 0)) ->
       p = map toQc cs) /\
    (b = true <->
     forall i, (i < length [1; 3])%nat -> den (nth i cs Frac0) = 1) /\
    (b = true <->
     forall i, (i < length [1; 3])%nat ->
       exists z, toQc (nth i cs Frac0) = ZtoQc z) /\
    (b = true <->
     exists zs, length zs = length [1; 3] /\
                map (eval_poly zs) [1; 3] = [0; 1]) /\
    ((exists i, (i < length [1; 3])%nat /\
        forall z, toQc (nth i cs Frac0) <> ZtoQc z) -> b = false).
Proof.
  apply (proj1 (accepts_iff_all_integer [1; 3] [0; 1] [] eq_refl)).
  repeat constructor; simpl; intuition lia.
Defined.

(** X6. A subset in which an abscissa occurs twice is always refused, by
    the [return false] of the singular branch and without an exception:
    the elimination comes to a column without a pivot, whatever the
    ordinates are. This holds for both variants of the acceptance test. *)
Theorem repeated_abscissa_is_singular
  (xs ys : list Z) (out0 : list Frac) :
  length ys = length xs -> ~ NoDup xs ->
  solve_vandermonde xs ys = Ok None /\
  interpolate_and_check xs ys out0 = Ok (false, out0) /\
  Original.interpolate_and_check xs ys out0 = Ok (false, out0).
Proof.
  intros Hlen Hdup.
  pose proof (solve_vandermonde_repeated xs ys Hlen Hdup) as E.
  split; [exact E|].
  unfold interpolate_and_check, Original.interpolate_and_check,
    interpolate_and_check_with.
  rewrite E. split; reflexivity.
Qed.

Lemma repeated_abscissa_is_singular_witness :
  solve_vandermonde [2; 5; 2] [1; 1; 1] = Ok None /\
  interpolate_and_check [2; 5; 2] [1; 1; 1] [] = Ok (false, []) /\
  Original.interpolate_and_check [2; 5; 2] [1; 1; 1] [] = Ok (false, []).
Proof.
  apply (repeated_abscissa_is_singular [2; 5; 2] [1; 1; 1] []).
  - reflexivity.
  - intros H. inversion H as [|x l Hnotin _]. apply Hnotin. simpl. auto.
Defined.

(** ** The search *)

Lemma first_accepted_prefix
  (check : list Z -> list Z -> list Frac -> result (bool * list Frac))
  (xs ys : list Z) (ms : list (list Z)) : forall tried r,
  first_accepted check xs ys ms tried = Ok r ->
  exists rest, attempts r = tried ++ rest.
Proof.
  induction ms as [|m ms IH]; intros tried r H.
  - injection H as <-. exists []. simpl. rewrite app_nil_r. reflexivity.
  - cbn [first_accepted] in H.
    destruct (check (pick m xs) (pick m ys) []) as [[b cs]|e];
      cbn [bind fst snd] in H; [|discriminate].
    destruct b.
    + destruct (vat cs 0) as [c|e]; cbn [bind] in H; [|discriminate].
      injection H as <-. exists [m]. reflexivity.
    + destruct (IH _ _ H) as (rest & E). exists (m :: rest).
      rewrite E, <- app_assoc. reflexivity.
Qed.

(** X7. For every list of points - an abscissa may occur twice - and
    every threshold [k >= 1] the search returns: no exception is thrown,
    no vector is read past its end and the loop over the rearrangements
    ends. The subsets it has tried are an initial part of the enumeration,
    and all of it when the search fails. This holds for both variants of
    the acceptance test. *)
Theorem search_always_returns (xs ys : list Z) (k : Z) :
  length ys = length xs -> 1 <= k ->
  (exists r rest,
     find_valid_constant xs ys k = Ok r /\
     masks (length xs) (Z.to_nat k) = attempts r ++ rest /\
     (constant_out r = None -> rest = [])) /\
  (exists r rest,
     Original.find_valid_constant xs ys k = Ok r /\
     masks (length xs) (Z.to_nat k) = attempts r ++ rest /\
     (constant_out r = None -> rest = [])).
Proof.
  intros Hlen Hk.
  assert (H : forall rej, exists r rest,
    find_valid_constant_with (interpolate_and_check_with rej) xs ys k = Ok r /\
    masks (length xs) (Z.to_nat k) = attempts r ++ rest /\
    (constant_out r = None -> rest = [])).
  { intros rej.
    rewrite (find_valid_constant_with_spec _ xs ys (length xs) eq_refl Hlen)
      by lia.
    destruct (first_accepted_cases (interpolate_and_check_with rej) xs ys
                (masks (length xs) (Z.to_nat k))) with (tried := @nil (list Z))
      as [(pre & m & post & c0 & cs & Ems & _ & _ & E)|[_ E]].
    - intros m Hm.
      apply (interpolate_on_mask rej xs ys (Z.to_nat k) m Hlen);
        [lia | apply masks_is_mask, Hm].
    - rewrite E. eexists. exists post. split; [reflexivity|].
      cbn [attempts constant_out app]. split; [|discriminate].
      rewrite Ems, <- app_assoc. reflexivity.
    - rewrite E. eexists. exists []. split; [reflexivity|].
      cbn [attempts app]. rewrite app_nil_r. split; reflexivity. }
  split; [exact (H rejected) | exact (H Original.rejected)].
Qed.

Lemma search_always_returns_witness :
  exists r rest,
    find_valid_constant [1; 1; 2] [5; 6; 7] 2 = Ok r /\
    masks (length [1; 1; 2]) (Z.to_nat 2) = attempts r ++ rest /\
    (constant_out r = None -> rest = []).
Proof.
  apply (search_always_returns [1; 1; 2] [5; 6; 7] 2); [reflexivity | lia].
Defined.

Lemma masks_zero (n : nat) : masks n 0 = [repeat 0 n].
Proof.
  induction n as [|n IH]; [reflexivity|].
  cbn [masks app]. rewrite IH. reflexivity.
Qed.

Lemma pick_none (n : nat) : forall l, pick (repeat 0 n) l = [].
Proof.
  induction n as [|n IH]; intros [|x l]; try reflexivity.
  cbn [repeat pick]. cbn [Z.eqb]. apply IH.
Qed.

(** X8. A threshold that is not positive is outside what
    [find_valid_constant] can take, and the function never answers it.
    With [k = 0] the one subset it tries is the empty one, which
    [interpolate_and_check] accepts with an empty coefficient vector, and
    [coeffs[0]] is then read past the end of that vector. With [k < 0]
    the first [xs.reserve(k)] of line 167 throws [std::length_error]
    before any subset is tried. This holds for both variants.
    ([solve_one_json_string] returns before the call when [k <= 0].) *)
Theorem nonpositive_threshold_never_answers (xs ys : list Z) (k : Z) :
  length ys = length xs ->
  (k = 0 ->
   find_valid_constant xs ys k = Err undefined_behaviour /\
   Original.find_valid_constant xs ys k = Err undefined_behaviour) /\
  (k < 0 ->
   find_valid_constant xs ys k = Err (length_error "vector::reserve") /\
   Original.find_valid_constant xs ys k = Err (length_error "vector::reserve")).
Proof.
  intros Hlen. split.
  - intros ->.
    unfold find_valid_constant, Original.find_valid_constant.
    rewrite !(find_valid_constant_with_spec _ xs ys (length xs) eq_refl Hlen)
      by lia.
    cbn [Z.to_nat]. rewrite masks_zero. cbn [first_accepted].
    rewrite !pick_none. split; reflexivity.
  - intros Hk.
    assert (H : forall check,
      find_valid_constant_with check xs ys k
      = Err (length_error "vector::reserve")).
    { intros check. unfold find_valid_constant_with.
      destruct (Z.gtb_spec k (Z.of_nat (length xs))) as [Hgt|_]; [lia|].
      replace (Z.to_nat k) with 0%nat by lia.
      cbn [for_loop bind]. rewrite binomial_0. cbn [search_loop].
      unfold reserve_int. destruct (Z.ltb_spec k 0) as [_|]; [|lia].
      reflexivity. }
    split; apply H.
Qed.

Lemma nonpositive_threshold_never_answers_witness :
  (0 = 0 ->
   find_valid_constant [1; 2] [3; 4] 0 = Err undefined_behaviour /\
   Original.find_valid_constant [1; 2] [3; 4] 0 = Err undefined_behaviour) /\
  (-1 < 0 ->
   find_valid_constant [1; 2] [3; 4] (-1)
   = Err (length_error "vector::reserve") /\
   Original.find_valid_constant [1; 2] [3; 4] (-1)
   = Err (length_error "vector::reserve")).
Proof.
  split.
  - apply (nonpositive_threshold_never_answers [1; 2] [3; 4] 0). reflexivity.
  - apply (nonpositive_threshold_never_answers [1; 2] [3; 4] (-1)). reflexivity.
Defined.

Lemma pick_In (mask : list Z) : forall l x, In x (pick mask l) -> In x l.
Proof.
  induction mask as [|m mask IH]; intros [|y l] x H;
    try (exfalso; exact H).
  cbn [pick] in H. destruct (m =? 0); [right; apply IH, H|].
  destruct H as [<-|H]; [left; reflexivity | right; apply IH, H].
Qed.

Lemma pick_NoDup (mask : list Z) : forall l, NoDup l -> NoDup (pick mask l).
Proof.
  induction mask as [|m mask IH]; intros [|y l] H; try constructor.
  inversion H as [|? ? Hnotin Hl]; subst. cbn [pick].
  destruct (m =? 0); [apply IH, Hl|].
  constructor; [|apply IH, Hl]. intros Hin. apply Hnotin.
  apply (pick_In mask), Hin.
Qed.

(** What an accepted subset is accepted for: the numerators returned are
    the coefficients of an integer polynomial through the points. *)
Lemma accepted_polynomial (xs ys : list Z) (out0 out : list Frac) :
  length ys = length xs -> NoDup xs ->
  interpolate_and_check xs ys out0 = Ok (true, out) ->
  length out = length xs /\ map (eval_poly (map num out)) xs = ys.
Proof.
  intros Hlen Hnd E.
  destruct (solve_vandermonde_regular xs ys Hlen Hnd)
    as (fs & Es & Hl & Hwf & Hsolves & _).
  destruct (interpolate_and_check_with_ok rejected xs ys out0 Hlen)
    as (r & E' & Hr).
  rewrite Es in E'. injection E' as <-.
  destruct Hr as (_ & _ & b & Eb & Hb).
  unfold interpolate_and_check in E. rewrite Eb in E.
  injection E as -> ->. split; [exact Hl|].
  assert (Hint : forall j, (j < length xs)%nat ->
            toQc (nth j out Frac0) = ZtoQc (nth j (map num out) 0)).
  { intros j Hj. change 0 with (num Frac0). rewrite map_nth.
    pose proof (proj1 Hb eq_refl j Hj) as Hrej.
    unfold rejected, isInteger in Hrej.
    apply negb_false_iff, Z.eqb_eq in Hrej.
    unfold toQc. rewrite Hrej, ZtoQc_1. field. apply Q_apart_0_1. }
  apply (nth_ext _ _ 0 0); [rewrite length_map; congruence|].
  intros r Hr. rewrite length_map in Hr.
  rewrite (nth_indep (map (eval_poly (map num out)) xs) 0
             (eval_poly (map num out) 0)) by (rewrite length_map; exact Hr).
  rewrite map_nth. apply ZtoQc_inj. rewrite <- (Hsolves r Hr).
  unfold eval_poly. rewrite eval_poly_from_Qc, length_map, Hl.
  apply sumQc_ext. intros j Hj. rewrite Hint by exact Hj. reflexivity.
Qed.

(** X9. With pairwise distinct abscissas and a threshold [1 <= k <= n]
    the search is sound and complete. When it returns a constant, some
    [k] of the points lie on a polynomial of degree below [k] with
    integer coefficients whose constant term is that constant; when it
    returns [false], no [k] of the points lie on such a polynomial. *)
Theorem search_sound_and_complete (xs ys : list Z) (k : Z) :
  length ys = length xs -> NoDup xs -> 1 <= k <= Z.of_nat (length xs) ->
  (forall tried c,
     find_valid_constant xs ys k = Ok (MkSearch tried (Some c)) ->
     exists m cs,
       is_mask (length xs) (Z.to_nat k) m /\ length cs = Z.to_nat k /\
       map (eval_poly cs) (pick m xs) = pick m ys /\ nth 0 cs 0 = c) /\
  (forall tried,
     find_valid_constant xs ys k = Ok (MkSearch tried None) ->
     forall m cs,
       is_mask (length xs) (Z.to_nat k) m -> length cs = Z.to_nat k ->
       map (eval_poly cs) (pick m xs) <> pick m ys).
Proof.
  intros Hlen Hnd Hk.
  assert (Hpick : forall m, is_mask (length xs) (Z.to_nat k) m ->
            length (pick m ys) = length (pick m xs) /\
            NoDup (pick m xs) /\ length (pick m xs) = Z.to_nat k).
  { intros m (Hm & _ & Ho). split; [apply pick_length; congruence|].
    split; [apply pick_NoDup, Hnd|].
    rewrite pick_ones by congruence. exact Ho. }
  unfold find_valid_constant.
  rewrite (find_valid_constant_with_spec _ xs ys (length xs) eq_refl Hlen)
    by lia.
  destruct (first_accepted_cases interpolate_and_check xs ys
              (masks (length xs) (Z.to_nat k))) with (tried := @nil (list Z))
    as [(pre & m & post & c0 & fs & Ems & _ & Em & E)|[Hall E]].
  - intros m Hm.
    apply (interpolate_on_mask rejected xs ys (Z.to_nat k) m Hlen);
      [lia | apply masks_is_mask, Hm].
  - rewrite E. split; [|intros tried H; discriminate].
    intros tried c H. injection H as _ <-.
    assert (Hmask : is_mask (length xs) (Z.to_nat k) m).
    { apply masks_is_mask. rewrite Ems. apply in_elt. }
    destruct (Hpick m Hmask) as (Hl & Hn & Hlk).
    destruct (accepted_polynomial _ _ _ _ Hl Hn Em) as [Hlo Hpoly].
    exists m, (map num (c0 :: fs)). split; [exact Hmask|].
    split; [rewrite length_map; congruence|]. split; [exact Hpoly | reflexivity].
  - rewrite E. split; [intros tried c H; discriminate|].
    intros tried _ m cs Hmask Hcs Hpoly.
    destruct (Hpick m Hmask) as (Hl & Hn & Hlk).
    destruct (Hall m (proj2 (masks_is_mask _ _ _) Hmask)) as (cs' & Ecs').
    destruct (proj2 (accepts_iff_integer_polynomial (pick m xs) (pick m ys) []
                       Hl Hn)) as (out & Eout).
    + exists cs. split; [congruence | exact Hpoly].
    + rewrite Eout in Ecs'. discriminate.
Qed.

Lemma search_sound_and_complete_witness :
  (forall tried c,
     find_valid_constant [1; 2; 3] [2; 2; 4] 2 = Ok (MkSearch tried (Some c)) ->
     exists m cs,
       is_mask (length [1; 2; 3]) (Z.to_nat 2) m /\ length cs = Z.to_nat 2 /\
       map (eval_poly cs) (pick m [1; 2; 3]) = pick m [2; 2; 4] /\
       nth 0 cs 0 = c) /\
  (forall tried,
     find_valid_constant [1; 2; 3] [2; 2; 4] 2 = Ok (MkSearch tried None) ->
     forall m cs,
       is_mask (length [1; 2; 3]) (Z.to_nat 2) m -> length cs = Z.to_nat 2 ->
       map (eval_poly cs) (pick m [1; 2; 3]) <> pick m [2; 2; 4]).
Proof.
  refine (search_sound_and_complete [1; 2; 3] [2; 2; 4] 2 _ _ _).
  - reflexivity.
  - repeat constructor; simpl; intuition lia.
  - simpl. lia.
Defined.

(** ** The two acceptance policies, compared *)

Lemma check_coeffs_weaker (rej1 rej2 : Frac -> bool) (out : list Frac) :
  (forall f, rej2 f = false -> rej1 f = false) ->
  forall cnt i, check_coeffs rej2 out i cnt = Ok true ->
                check_coeffs rej1 out i cnt = Ok true.
Proof.
  intros Hrej. induction cnt as [|cnt IH]; intros i H; [reflexivity|].
  cbn [check_coeffs] in *. destruct (vat out i) as [f|e]; [|discriminate].
  cbn [bind] in *. destruct (rej2 f) eqn:E2; [discriminate|].
  rewrite (Hrej f E2). apply IH, H.
Qed.

Lemma original_accepted_is_accepted (xs ys : list Z) (out0 cs : list Frac) :
  Original.interpolate_and_check xs ys out0 = Ok (true, cs) ->
  interpolate_and_check xs ys out0 = Ok (true, cs).
Proof.
  unfold Original.interpolate_and_check, interpolate_and_check,
    interpolate_and_check_with.
  destruct (solve_vandermonde xs ys) as [[out|]|e]; cbn [bind];
    try discriminate.
  intros H.
  destruct (check_coeffs Original.rejected out 0 (length xs)) as [b|e] eqn:E;
    cbn [bind] in H; [|discriminate].
  injection H as -> ->.
  rewrite (check_coeffs_weaker rejected Original.rejected cs); [reflexivity| |exact E].
  intros f Hf. unfold Original.rejected in Hf. unfold rejected.
  destruct (negb (isInteger f)); [discriminate | reflexivity].
Qed.

Lemma first_accepted_weaker
  (ch1 ch2 : list Z -> list Z -> list Frac -> result (bool * list Frac))
  (xs ys : list Z) (ms : list (list Z)) :
  (forall m, In m ms ->
     exists b cs, ch1 (pick m xs) (pick m ys) [] = Ok (b, cs) /\
                  (b = true -> cs <> [])) ->
  (forall m cs, ch2 (pick m xs) (pick m ys) [] = Ok (true, cs) ->
                ch1 (pick m xs) (pick m ys) [] = Ok (true, cs)) ->
  forall tried t2 c2,
  first_accepted ch2 xs ys ms tried = Ok (MkSearch t2 (Some c2)) ->
  exists t1 c1 rest,
    first_accepted ch1 xs ys ms tried = Ok (MkSearch t1 (Some c1)) /\
    t2 = t1 ++ rest.
Proof.
  induction ms as [|m ms IH]; intros H1 Hmono tried t2 c2 H2;
    [discriminate|].
  destruct (H1 m (or_introl eq_refl)) as (b1 & cs1 & E1 & Hb1).
  destruct (first_accepted_prefix ch2 xs ys (m :: ms) tried _ H2)
    as (rest2 & Erest2). cbn [attempts] in Erest2.
  cbn [first_accepted] in *. rewrite E1. cbn [bind fst snd].
  destruct b1.
  - destruct cs1 as [|c cs1]; [exfalso; apply Hb1; reflexivity|].
    destruct (ch2 (pick m xs) (pick m ys) []) as [[b2 cs2]|e] eqn:E2;
      cbn [bind fst snd] in H2; [|discriminate].
    destruct b2.
    + destruct (vat cs2 0) as [c'|e]; cbn [bind] in H2; [|discriminate].
      injection H2 as <- _. exists (tried ++ [m]), (num c), [].
      split; [reflexivity | rewrite app_nil_r; reflexivity].
    + destruct (first_accepted_prefix ch2 xs ys ms _ _ H2) as (rest & Er).
      cbn [attempts] in Er. exists (tried ++ [m]), (num c), rest.
      split; [reflexivity | exact Er].
  - destruct (ch2 (pick m xs) (pick m ys) []) as [[b2 cs2]|e] eqn:E2;
      cbn [bind fst snd] in H2; [|discriminate].
    destruct b2.
    + rewrite (Hmono m cs2 E2) in E1. discriminate.
    + apply (IH (fun m' Hm' => H1 m' (or_intror Hm')) Hmono _ _ _ H2).
Qed.

(** X10. The policy of the older variant is the stricter one. Whatever
    subset it accepts, code.cpp accepts with the same coefficients; and
    whenever its search returns a constant, the search of code.cpp
    returns a constant as well, after the same attempts or fewer. *)
Theorem original_policy_is_stricter (xs ys : list Z) (k : Z) :
  length ys = length xs -> 1 <= k ->
  (forall sx sy out0 cs,
     Original.interpolate_and_check sx sy out0 = Ok (true, cs) ->
     interpolate_and_check sx sy out0 = Ok (true, cs)) /\
  (forall t2 c2,
     Original.find_valid_constant xs ys k = Ok (MkSearch t2 (Some c2)) ->
     exists t1 c1 rest,
       find_valid_constant xs ys k = Ok (MkSearch t1 (Some c1)) /\
       t2 = t1 ++ rest).
Proof.
  intros Hlen Hk. split; [apply original_accepted_is_accepted|].
  unfold Original.find_valid_constant, find_valid_constant.
  rewrite !(find_valid_constant_with_spec _ xs ys (length xs) eq_refl Hlen)
    by lia.
  apply first_accepted_weaker.
  - intros m Hm.
    apply (interpolate_on_mask rejected xs ys (Z.to_nat k) m Hlen);
      [lia | apply masks_is_mask, Hm].
  - intros m cs. apply original_accepted_is_accepted.
Qed.

Lemma original_policy_is_stricter_witness :
  (forall sx sy out0 cs,
     Original.interpolate_and_check sx sy out0 = Ok (true, cs) ->
     interpolate_and_check sx sy out0 = Ok (true, cs)) /\
  (forall t2 c2,
     Original.find_valid_constant [1; 2; 3] [2; 2; 4] 2
     = Ok (MkSearch t2 (Some c2)) ->
     exists t1 c1 rest,
       find_valid_constant [1; 2; 3] [2; 2; 4] 2 = Ok (MkSearch t1 (Some c1)) /\
       t2 = t1 ++ rest).
Proof.
  refine (original_policy_is_stricter [1; 2; 3] [2; 2; 4] 2 _ _);
    [reflexivity | lia].
Defined.

(** ** Digits in and out *)

Lemma list_ascii_of_string_app (a b : string) :
  list_ascii_of_string (a ++ b)
  = (list_ascii_of_string a ++ list_ascii_of_string b)%list.
Proof.
  induction a as [|c a IH]; [reflexivity|]. cbn. rewrite IH. reflexivity.
Qed.

Lemma string_of_list_ascii_app (l1 l2 : list ascii) :
  string_of_list_ascii (l1 ++ l2)
  = (string_of_list_ascii l1 ++ string_of_list_ascii l2)%string.
Proof.
  induction l1 as [|c l1 IH]; [reflexivity|]. cbn. rewrite IH. reflexivity.
Qed.

Lemma string_rev_app (a b : string) :
  string_rev (a ++ b) = (string_rev b ++ string_rev a)%string.
Proof.
  unfold string_rev.
  rewrite list_ascii_of_string_app, rev_app_distr, string_of_list_ascii_app.
  reflexivity.
Qed.

Lemma string_rev_involutive (s : string) : string_rev (string_rev s) = s.
Proof.
  unfold string_rev.
  rewrite list_ascii_of_string_of_list_ascii, rev_involutive.
  apply string_of_list_ascii_of_string.
Qed.

Lemma parse_in_base_loop_app (base : Z) (a b : string) : forall v,
  parse_in_base_loop base (a ++ b) v
  = (v' <- parse_in_base_loop base a v ;; parse_in_base_loop base b v').
Proof.
  induction a as [|c a IH]; intros v; [reflexivity|].
  cbn [String.append parse_in_base_loop].
  destruct (parse_digit base v c) as [v'|e]; cbn [bind]; [apply IH | reflexivity].
Qed.

Lemma parse_decimal_digit (v d : Z) :
  0 <= d < 10 ->
  parse_digit 10 v (ascii_of_nat (48 + Z.to_nat d)) = Ok (v * 10 + d).
Proof.
  intros Hd.
  assert (H : d = 0 \/ d = 1 \/ d = 2 \/ d = 3 \/ d = 4 \/ d = 5 \/ d = 6 \/
              d = 7 \/ d = 8 \/ d = 9) by lia.
  repeat (destruct H as [->|H]; [reflexivity|]). subst d. reflexivity.
Qed.

Lemma digits_loop_spec : forall fuel t s s',
  0 <= t -> digits_loop fuel t s = Ok s' ->
  exists ds, s' = (s ++ ds)%string /\
             parse_in_base_loop 10 (string_rev ds) 0 = Ok t.
Proof.
  induction fuel as [|fuel IH]; intros t s s' Ht H; [discriminate|].
  cbn [digits_loop] in H. destruct (Z.gtb_spec t 0) as [Hpos|Hz].
  - destruct (IH _ _ _ (Z.quot_pos t 10 Ht ltac:(lia)) H) as (ds & E & Hp).
    exists (String (ascii_of_nat (48 + Z.to_nat (Z.rem t 10))) ds).
    split; [rewrite E, string_app_assoc; reflexivity|].
    change (String ?c ds) with (String c EmptyString ++ ds)%string.
    rewrite string_rev_app, parse_in_base_loop_app, Hp. cbn [bind].
    change (string_rev (String ?c EmptyString)) with (String c EmptyString).
    cbn [parse_in_base_loop].
    pose proof (Z.rem_bound_pos t 10 Ht ltac:(lia)) as Hr.
    rewrite parse_decimal_digit by exact Hr. cbn [bind]. f_equal.
    pose proof (Z.quot_rem' t 10). lia.
  - injection H as <-. exists EmptyString.
    split; [rewrite string_app_nil_r; reflexivity|].
    assert (t = 0) by lia. subst t. reflexivity.
Qed.

Lemma decimal_of_positive (t : Z) :
  0 < t ->
  exists ds, digits_loop (S (S (Z.to_nat (Z.log2 t)))) t EmptyString = Ok ds /\
             cpp_int_to_string t = Ok (string_rev ds) /\
             parse_in_base_loop 10 (string_rev ds) 0 = Ok t.
Proof.
  intros Ht.
  destruct (digits_loop_total (S (Z.to_nat (Z.log2 t))) t EmptyString)
    as (ds & E).
  { split; [lia|].
    rewrite Nat2Z.inj_succ, Z2Nat.id by apply Z.log2_nonneg.
    apply Z.log2_spec. lia. }
  exists ds. split; [exact E|].
  destruct (digits_loop_spec _ t _ _ (Z.lt_le_incl _ _ Ht) E)
    as (ds' & Eds & Hp).
  cbn [String.append] in Eds. subst ds'. split; [|exact Hp].
  unfold cpp_int_to_string.
  destruct (Z.eqb_spec t 0) as [|_]; [lia|].
  destruct (Z.ltb_spec t 0) as [|_]; [lia|].
  rewrite E. reflexivity.
Qed.

Lemma decimal_reads_back (v : Z) :
  0 <= v ->
  exists s, cpp_int_to_string v = Ok s /\ parse_in_base_cpp s 10 = Ok v.
Proof.
  intros Hv. destruct (Z.eq_dec v 0) as [->|Hne].
  - exists "0"%string. split; reflexivity.
  - destruct (decimal_of_positive v ltac:(lia)) as (ds & _ & E & Hp).
    exists (string_rev ds). split; [exact E | exact Hp].
Qed.

(** X11. Writing and reading decimal digits are inverse to each other on
    the naturals: [cpp_int_to_string] returns for every [v >= 0] a string
    that [parse_in_base_cpp] reads in base 10 as [v]. For [v < 0] it
    returns the string of [-v] behind a minus sign, which
    [parse_in_base_cpp] refuses as an invalid digit. *)
Theorem decimal_round_trip (v : Z) :
  (0 <= v ->
   exists s, cpp_int_to_string v = Ok s /\ parse_in_base_cpp s 10 = Ok v) /\
  (v < 0 ->
   exists s, cpp_int_to_string (- v) = Ok s /\
             cpp_int_to_string v = Ok ("-" ++ s)%string /\
             parse_in_base_cpp ("-" ++ s) 10
             = Err (runtime_error "invalid digit: -")).
Proof.
  split; [apply decimal_reads_back|].
  intros Hv. destruct (decimal_of_positive (- v) ltac:(lia)) as (ds & Ed & E & Hp).
  exists (string_rev ds). split; [exact E|]. split; [|reflexivity].
  unfold cpp_int_to_string.
  destruct (Z.eqb_spec v 0) as [|_]; [lia|].
  destruct (Z.ltb_spec v 0) as [_|]; [|lia].
  rewrite Ed. cbn [bind]. rewrite string_rev_app. reflexivity.
Qed.

Lemma decimal_round_trip_witness :
  exists s, cpp_int_to_string 1203 = Ok s /\ parse_in_base_cpp s 10 = Ok 1203.
Proof. apply (proj1 (decimal_round_trip 1203)). lia. Defined.

(** ** Digit strings in any base *)

Lemma parse_digit_inv (base v w : Z) (c : ascii) :
  parse_digit base v c = Ok w ->
  (isspace c = true /\ w = v) \/
  (isspace c = false /\
   exists d, 0 <= d < base /\ w = v * base + d /\
             forall v', parse_digit base v' c = Ok (v' * base + d)).
Proof.
  unfold parse_digit. destruct (isspace c).
  - intros H. injection H as <-. left. split; reflexivity.
  - intros H. right. split; [reflexivity|].
    set (n := Z.of_nat (nat_of_ascii c)) in *.
    destruct (if (48 <=? n) && (n <=? 57) then Ok (n - 48)
              else if (97 <=? n) && (n <=? 122) then Ok (n - 97 + 10)
              else if (65 <=? n) && (n <=? 90) then Ok (n - 65 + 10)
              else Err (runtime_error ("invalid digit: " ++ String c EmptyString)))
      as [d|e]; cbn [bind] in *; [|discriminate].
    destruct (Z.ltb_spec d 0); [discriminate|].
    destruct (Z.geb_spec d base); cbn [orb] in *; [discriminate|].
    injection H as <-. exists d. split; [lia|]. split; reflexivity.
Qed.

Lemma parse_in_base_loop_shift (base : Z) (s : string) : forall v1 v2 r,
  parse_in_base_loop base s v1 = Ok r ->
  parse_in_base_loop base s v2
  = Ok (r + (v2 - v1) * base ^ Z.of_nat (digit_count s)).
Proof.
  induction s as [|c s IH]; intros v1 v2 r H.
  - injection H as <-. cbn. f_equal. ring.
  - cbn [parse_in_base_loop digit_count] in *.
    destruct (parse_digit base v1 c) as [w|e] eqn:E; cbn [bind] in H;
      [|discriminate].
    destruct (parse_digit_inv _ _ _ _ E) as [[Hsp ->]|(Hsp & d & Hd & -> & Hall)].
    + assert (E2 : parse_digit base v2 c = Ok v2)
        by (unfold parse_digit; rewrite Hsp; reflexivity).
      rewrite E2, Hsp. cbn [bind]. apply (IH _ _ _ H).
    + rewrite Hall, Hsp. cbn [bind]. rewrite (IH _ (v2 * base + d) _ H).
      f_equal. rewrite Nat2Z.inj_succ, Z.pow_succ_r by lia. ring.
Qed.

Lemma parse_in_base_loop_bound (base : Z) (s : string) : forall v0 r,
  0 <= v0 -> parse_in_base_loop base s v0 = Ok r ->
  v0 * base ^ Z.of_nat (digit_count s) <= r
  < (v0 + 1) * base ^ Z.of_nat (digit_count s).
Proof.
  induction s as [|c s IH]; intros v0 r Hv0 H.
  - injection H as <-. cbn. lia.
  - cbn [parse_in_base_loop digit_count] in *.
    destruct (parse_digit base v0 c) as [w|e] eqn:E; cbn [bind] in H;
      [|discriminate].
    destruct (parse_digit_inv _ _ _ _ E) as [[Hsp ->]|(Hsp & d & Hd & -> & _)];
      rewrite Hsp.
    + apply IH; assumption.
    + specialize (IH (v0 * base + d) r ltac:(nia) H).
      rewrite Nat2Z.inj_succ, Z.pow_succ_r by lia.
      assert (Hp : 0 <= base ^ Z.of_nat (digit_count s))
        by (apply Z.pow_nonneg; lia).
      nia.
Qed.

(** X12. [parse_in_base_cpp] reads positional notation: the value of a
    digit string lies between 0 and [base] to the number of its digits,
    and the value of two digit strings one after the other is the value
    of the first, times [base] to the number of digits of the second,
    plus the value of the second. *)
Theorem parse_in_base_positional (base : Z) (a b : string) (va vb : Z) :
  parse_in_base_cpp a base = Ok va ->
  parse_in_base_cpp b base = Ok vb ->
  0 <= vb < base ^ Z.of_nat (digit_count b) /\
  parse_in_base_cpp (a ++ b) base
  = Ok (va * base ^ Z.of_nat (digit_count b) + vb).
Proof.
  unfold parse_in_base_cpp. intros Ha Hb. split.
  - pose proof (parse_in_base_loop_bound base b 0 vb ltac:(lia) Hb). lia.
  - rewrite parse_in_base_loop_app, Ha. cbn [bind].
    rewrite (parse_in_base_loop_shift base b 0 va vb Hb). f_equal. ring.
Qed.

Lemma parse_in_base_positional_witness :
  0 <= 5 < 16 ^ Z.of_nat (digit_count "05") /\
  parse_in_base_cpp ("fF" ++ "05") 16
  = Ok (255 * 16 ^ Z.of_nat (digit_count "05") + 5).
Proof.
  apply (parse_in_base_positional 16 "fF" "05" 255 5); reflexivity.
Defined.

Lemma parse_spaces (base : Z) (ws : string) :
  string_forallb isspace ws = true ->
  forall v, parse_in_base_loop base ws v = Ok v.
Proof.
  induction ws as [|c ws IH]; intros H v; [reflexivity|].
  cbn [string_forallb] in H. apply andb_true_iff in H. destruct H as [Hc Hws].
  cbn [parse_in_base_loop]. unfold parse_digit. rewrite Hc. cbn [bind].
  apply IH, Hws.
Qed.

Lemma parse_digit_toupper (base v : Z) (c : ascii) :
  parse_digit base v (toupper c) = parse_digit base v c.
Proof.
  destruct c as [[] [] [] [] [] [] [] []]; reflexivity.
Qed.

(** X13. [parse_in_base_cpp] ignores white space wherever it stands in
    the digit string, and it does not distinguish a lower-case digit from
    the upper-case one: the result, value or exception, is the same. *)
Theorem parse_in_base_spaces_and_case (base : Z) (a ws b : string) :
  string_forallb isspace ws = true ->
  parse_in_base_cpp (a ++ ws ++ b) base = parse_in_base_cpp (a ++ b) base /\
  parse_in_base_cpp (string_map toupper a) base = parse_in_base_cpp a base.
Proof.
  intros Hws. unfold parse_in_base_cpp. split.
  - rewrite !parse_in_base_loop_app.
    destruct (parse_in_base_loop base a 0) as [v|e]; cbn [bind]; [|reflexivity].
    rewrite parse_in_base_loop_app, (parse_spaces base ws Hws). reflexivity.
  - generalize 0. induction a as [|c a IH]; intros v; [reflexivity|].
    cbn [string_map parse_in_base_loop]. rewrite parse_digit_toupper.
    destruct (parse_digit base v c); cbn [bind]; [apply IH | reflexivity].
Qed.

Lemma parse_in_base_spaces_and_case_witness :
  parse_in_base_cpp ("1f" ++ "  " ++ "a0") 16
  = parse_in_base_cpp ("1f" ++ "a0") 16 /\
  parse_in_base_cpp (string_map toupper "1f") 16 = parse_in_base_cpp "1f" 16.
Proof.
  apply (parse_in_base_spaces_and_case 16 "1f" "  " "a0"). reflexivity.
Defined.

(** ** Splitting the input into objects *)

Lemma string_length_app (a b : string) :
  String.length (a ++ b) = (String.length a + String.length b)%nat.
Proof.
  induction a as [|c a IH]; [reflexivity|]. cbn. rewrite IH. reflexivity.
Qed.

Lemma substring_skip (pre s : string) (n m : nat) :
  substring (String.length pre + n) m (pre ++ s) = substring n m s.
Proof.
  induction pre as [|c pre IH]; [reflexivity|]. cbn. exact IH.
Qed.

Lemma substring_prefix (o rest : string) :
  substring 0 (String.length o) (o ++ rest) = o.
Proof.
  induction o as [|c o IH].
  - destruct rest; reflexivity.
  - cbn. rewrite IH. reflexivity.
Qed.

Section Split.

Variable input : string.





End Split.



(** ** A run of the program *)







(** ** Trimming *)

Lemma skip_spaces_app (ws x : string) :
  string_forallb isspace ws = true ->
  skip_while isspace (ws ++ x) = skip_while isspace x.
Proof.
  induction ws as [|c ws IH]; intros H; [reflexivity|].
  cbn [string_forallb] in H. apply andb_true_iff in H. destruct H as [Hc Hws].
  cbn [String.append skip_while]. rewrite Hc. apply IH, Hws.
Qed.

Lemma skip_clean (x : string) :
  starts_clean x = true -> skip_while isspace x = x.
Proof.
  destruct x as [|c x]; [reflexivity|]. cbn [starts_clean skip_while].
  intros H. apply negb_true_iff in H. rewrite H. reflexivity.
Qed.

Lemma string_forallb_list (p : ascii -> bool) (s : string) :
  string_forallb p s = forallb p (list_ascii_of_string s).
Proof.
  induction s as [|c s IH]; [reflexivity|]. cbn. rewrite IH. reflexivity.
Qed.

Lemma string_forallb_rev (p : ascii -> bool) (s : string) :
  string_forallb p s = true -> string_forallb p (string_rev s) = true.
Proof.
  rewrite !string_forallb_list. unfold string_rev.
  rewrite list_ascii_of_string_of_list_ascii, !forallb_forall.
  intros H c Hc. apply H, in_rev, Hc.
Qed.

(** X17. [trim] takes away the white space around a text and nothing
    else: of a text that neither begins nor ends with white space, with
    white space before and after it, it leaves exactly that text. *)
Theorem trim_removes_surrounding_space (pre mid post : string) :
  string_forallb isspace pre = true ->
  string_forallb isspace post = true ->
  starts_clean mid = true -> starts_clean (string_rev mid) = true ->
  trim (pre ++ mid ++ post) = mid.
Proof.
  intros Hpre Hpost Hhead Htail. unfold trim.
  rewrite (skip_spaces_app pre _ Hpre).
  destruct mid as [|c mid].
  - cbn [String.append].
    rewrite <- (string_app_nil_r post), (skip_spaces_app post _ Hpost).
    reflexivity.
  - assert (E : skip_while isspace (String c mid ++ post)
                = (String c mid ++ post)%string)
      by (apply skip_clean; exact Hhead).
    rewrite E, string_rev_app.
    rewrite (skip_spaces_app _ _ (string_forallb_rev _ _ Hpost)).
    rewrite (skip_clean _ Htail). apply string_rev_involutive.
Qed.

Lemma trim_removes_surrounding_space_witness :
  trim ("  " ++ "-12 3" ++ " ") = "-12 3"%string.
Proof.
  apply (trim_removes_surrounding_space "  " "-12 3" " "); reflexivity.
Defined.

(** ** Finding keys and values in the text *)

Lemma index_skip (pre s key : string) (n : nat) :
  index (String.length pre + n) key (pre ++ s)
  = option_map (Nat.add (String.length pre)) (index n key s).
Proof.
  induction pre as [|c pre IH].
  - cbn. destruct (index n key s); reflexivity.
  - cbn [String.length String.append Nat.add index]. rewrite IH.
    destruct (index n key s); reflexivity.
Qed.

Lemma index_char_first (c : ascii) (a rest : string) :
  char_free c a = true ->
  index 0 (String c EmptyString) (a ++ String c rest) = Some (String.length a).
Proof.
  induction a as [|x a IH]; intros H.
  - cbn. destruct (ascii_dec c c) as [_|Hne]; [|contradiction].
    destruct rest; reflexivity.
  - cbn [char_free string_forallb] in H. apply andb_true_iff in H.
    destruct H as [Hx Ha]. apply negb_true_iff, Ascii.eqb_neq in Hx.
    cbn [String.append index prefix String.length].
    destruct (ascii_dec c x) as [->|_]; [contradiction|].
    rewrite (IH Ha). reflexivity.
Qed.

Lemma index_char_none (c : ascii) (a : string) : forall n,
  char_free c a = true -> index n (String c EmptyString) a = None.
Proof.
  induction a as [|x a IH]; intros n H.
  - destruct n; reflexivity.
  - cbn [char_free string_forallb] in H. apply andb_true_iff in H.
    destruct H as [Hx Ha]. apply negb_true_iff, Ascii.eqb_neq in Hx.
    destruct n as [|n]; cbn [index prefix].
    + destruct (ascii_dec c x) as [->|_]; [contradiction|].
      rewrite (IH 0%nat Ha). reflexivity.
    + rewrite (IH n Ha). reflexivity.
Qed.

Lemma index_char_after (c : ascii) (pre a rest : string) :
  char_free c a = true ->
  index (String.length pre) (String c EmptyString) (pre ++ a ++ String c rest)
  = Some (String.length pre + String.length a)%nat.
Proof.
  intros H. rewrite <- (Nat.add_0_r (String.length pre)) at 1.
  rewrite index_skip, (index_char_first c a rest H). reflexivity.
Qed.

Lemma index_char_missing (c : ascii) (pre a : string) :
  char_free c a = true ->
  index (String.length pre) (String c EmptyString) (pre ++ a) = None.
Proof.
  intros H. rewrite <- (Nat.add_0_r (String.length pre)).
  rewrite index_skip, (index_char_none c a 0%nat H). reflexivity.
Qed.

(** X18. [parse_quoted_after_key] returns the text between the first two
    double quotes that follow the first colon at or after the given
    position. Without a colon from that position on, without a double
    quote after the colon, or with only one, it throws the [runtime_error]
    that names what is missing. *)
Theorem parse_quoted_after_key_extracts
  (pre key gap body rest : string) :
  char_free ":" key = true -> char_free "034" gap = true ->
  char_free "034" body = true ->
  parse_quoted_after_key
    (pre ++ key ++ ":" ++ gap ++ dquote ++ body ++ dquote ++ rest)
    (String.length pre) = Ok body /\
  parse_quoted_after_key (pre ++ key) (String.length pre)
  = Err (runtime_error "invalid json structure (str)") /\
  parse_quoted_after_key (pre ++ key ++ ":" ++ gap) (String.length pre)
  = Err (runtime_error "invalid json: missing opening quote") /\
  parse_quoted_after_key (pre ++ key ++ ":" ++ gap ++ dquote ++ body)
    (String.length pre)
  = Err (runtime_error "invalid json: missing closing quote").
Proof.
  intros Hkey Hgap Hbody. unfold parse_quoted_after_key, dquote.
  assert (Hcolon : forall t,
    index (String.length pre) ":" (pre ++ key ++ ":" ++ t)
    = Some (String.length pre + String.length key)%nat)
    by (intros t; apply (index_char_after ":" pre key t Hkey)).
  assert (Hp : S (String.length pre + String.length key)
               = String.length (pre ++ key ++ ":"))
    by (rewrite !string_length_app; cbn; lia).
  assert (Hopen : forall t,
    index (String.length (pre ++ key ++ ":")) (String "034" EmptyString)
          (pre ++ key ++ ":" ++ gap ++ String "034" EmptyString ++ t)
    = Some (String.length (pre ++ key ++ ":") + String.length gap)%nat).
  { intros t. change (String "034" EmptyString ++ t)%string with (String "034" t).
    rewrite <- (index_char_after "034" (pre ++ key ++ ":") gap t Hgap).
    rewrite !string_app_assoc. reflexivity. }
  assert (Hq : S (String.length (pre ++ key ++ ":") + String.length gap)
               = String.length (pre ++ key ++ ":" ++ gap ++ String "034" EmptyString))
    by (rewrite !string_length_app; cbn; lia).
  split; [|split; [|split]].
  - rewrite Hcolon, Hp, Hopen, Hq.
    replace (pre ++ key ++ ":" ++ gap ++ String "034" EmptyString
             ++ body ++ String "034" EmptyString ++ rest)%string
      with ((pre ++ key ++ ":" ++ gap ++ String "034" EmptyString)
            ++ body ++ String "034" rest)%string
      by (rewrite !string_app_assoc; reflexivity).
    rewrite (index_char_after "034" _ body rest Hbody).
    rewrite Nat.add_comm, Nat.add_sub.
    rewrite <- (Nat.add_0_r (String.length _)) at 1.
    rewrite substring_skip. rewrite substring_prefix. reflexivity.
  - rewrite (index_char_missing ":" pre key Hkey). reflexivity.
  - rewrite Hcolon, Hp.
    replace (pre ++ key ++ ":" ++ gap)%string
      with ((pre ++ key ++ ":") ++ gap)%string
      by (rewrite !string_app_assoc; reflexivity).
    rewrite (index_char_missing "034" _ gap Hgap). reflexivity.
  - rewrite Hcolon, Hp, Hopen, Hq.
    replace (pre ++ key ++ ":" ++ gap ++ String "034" EmptyString ++ body)%string
      with ((pre ++ key ++ ":" ++ gap ++ String "034" EmptyString) ++ body)%string
      by (rewrite !string_app_assoc; reflexivity).
    rewrite (index_char_missing "034" _ body Hbody). reflexivity.
Qed.

Lemma parse_quoted_after_key_extracts_witness :
  parse_quoted_after_key
    ("{ " ++ quoted "base" ++ ":" ++ " " ++ dquote ++ "16" ++ dquote ++ " }")
    (String.length "{ ") = Ok "16"%string.
Proof.
  apply (parse_quoted_after_key_extracts "{ " (quoted "base") " " "16" " }");
    reflexivity.
Defined.

Lemma substring_all (t : string) : forall m,
  (String.length t <= m)%nat -> substring 0 m t = t.
Proof.
  induction t as [|c t IH]; intros m Hm.
  - destruct m; reflexivity.
  - destruct m as [|m]; [simpl in Hm; lia|].
    cbn. rewrite IH by (simpl in Hm; lia). reflexivity.
Qed.

Lemma substring_tail (pre tail : string) :
  substring (String.length pre) (String.length (pre ++ tail)) (pre ++ tail)
  = tail.
Proof.
  rewrite <- (Nat.add_0_r (String.length pre)) at 1.
  rewrite substring_skip. apply substring_all.
  rewrite string_length_app. lia.
Qed.

Lemma take_while_app (p : ascii -> bool) (a b : string) :
  string_forallb p a = true -> stops p b = true ->
  take_while p (a ++ b) = a.
Proof.
  induction a as [|c a IH]; intros Ha Hb.
  - destruct b as [|c b]; [reflexivity|]. cbn in *.
    apply negb_true_iff in Hb. rewrite Hb. reflexivity.
  - cbn [string_forallb] in Ha. apply andb_true_iff in Ha.
    destruct Ha as [Hc Ha]. cbn [String.append take_while].
    rewrite Hc, (IH Ha Hb). reflexivity.
Qed.

Lemma number_char_not_space (c : ascii) :
  number_char c = true -> isspace c = false.
Proof.
  destruct c as [[] [] [] [] [] [] [] []]; intros H;
    first [reflexivity | discriminate H].
Qed.

Lemma number_text_clean (num : string) :
  string_forallb number_char num = true -> starts_clean num = true.
Proof.
  destruct num as [|c num]; [reflexivity|]. cbn [string_forallb starts_clean].
  intros H. apply andb_true_iff in H. destruct H as [Hc _].
  rewrite (number_char_not_space c Hc). reflexivity.
Qed.

Lemma trim_number_text (num : string) :
  string_forallb number_char num = true -> trim num = num.
Proof.
  intros H. unfold trim.
  rewrite (skip_clean num (number_text_clean num H)).
  rewrite (skip_clean _ (number_text_clean _ (string_forallb_rev _ _ H))).
  apply string_rev_involutive.
Qed.

(** X19. [parse_small_int_after_key] reads the number behind the first
    colon at or after the given position: it passes over the white space
    after the colon and hands to [std::stoll] exactly the run of signs
    and digits that follows. When no sign or digit follows it throws
    what [std::stoll] throws on the empty string, and without a colon the
    [runtime_error] of line 51. *)
Theorem parse_small_int_after_key_reads_number
  (pre key ws num rest : string) :
  char_free ":" key = true -> string_forallb isspace ws = true ->
  string_forallb number_char num = true ->
  stops isspace (num ++ rest) = true -> stops number_char rest = true ->
  parse_small_int_after_key (pre ++ key ++ ":" ++ ws ++ num ++ rest)
                            (String.length pre)
  = stoll num /\
  (num = EmptyString ->
   parse_small_int_after_key (pre ++ key ++ ":" ++ ws ++ num ++ rest)
                             (String.length pre)
   = Err (invalid_argument "stoll")) /\
  parse_small_int_after_key (pre ++ key) (String.length pre)
  = Err (runtime_error "invalid json structure (int)").
Proof.
  intros Hkey Hws Hnum Hstop Hrest.
  assert (Hmain :
    parse_small_int_after_key (pre ++ key ++ ":" ++ ws ++ num ++ rest)
                              (String.length pre) = stoll num).
  { unfold parse_small_int_after_key.
    assert (Hcolon :
      index (String.length pre) ":" (pre ++ key ++ ":" ++ ws ++ num ++ rest)
      = Some (String.length pre + String.length key)%nat)
      by apply (index_char_after ":" pre key (ws ++ num ++ rest) Hkey).
    rewrite Hcolon.
    set (s := (pre ++ key ++ ":" ++ ws ++ num ++ rest)%string).
    assert (E1 : s = ((pre ++ key ++ ":") ++ ws ++ num ++ rest)%string)
      by (unfold s; rewrite !string_app_assoc; reflexivity).
    assert (E2 : s = ((pre ++ key ++ ":" ++ ws) ++ num ++ rest)%string)
      by (unfold s; rewrite !string_app_assoc; reflexivity).
    assert (Hp : skip_spaces s (S (String.length pre + String.length key))
                 = String.length (pre ++ key ++ ":" ++ ws)).
    { unfold skip_spaces.
      replace (S (String.length pre + String.length key))
        with (String.length (pre ++ key ++ ":"))
        by (rewrite !string_length_app; cbn; lia).
      rewrite E1 at 1 2. rewrite substring_tail.
      rewrite (take_while_app isspace ws _ Hws Hstop).
      rewrite !string_length_app. cbn [String.length]. lia. }
    rewrite Hp.
    assert (Hq : skip_number s (String.length (pre ++ key ++ ":" ++ ws))
                 = (String.length (pre ++ key ++ ":" ++ ws)
                    + String.length num)%nat).
    { unfold skip_number. rewrite E2 at 1 2. rewrite substring_tail.
      fold number_char.
      rewrite (take_while_app number_char num rest Hnum Hrest). reflexivity. }
    rewrite Hq, Nat.add_comm, Nat.add_sub.
    rewrite E2. rewrite <- (Nat.add_0_r (String.length _)) at 1.
    rewrite substring_skip, substring_prefix.
    rewrite (trim_number_text num Hnum). reflexivity. }
  split; [exact Hmain|]. split.
  - intros Hempty. rewrite Hmain, Hempty. reflexivity.
  - unfold parse_small_int_after_key.
    rewrite (index_char_missing ":" pre key Hkey). reflexivity.
Qed.

Lemma parse_small_int_after_key_reads_number_witness :
  parse_small_int_after_key
    ("{" ++ quoted "k" ++ ":" ++ "  " ++ "-12" ++ ", x") (String.length "{")
  = stoll "-12".
Proof.
  apply (parse_small_int_after_key_reads_number "{" (quoted "k") "  " "-12" ", x");
    reflexivity.
Defined.

(** ** From the points to the printed constant *)

(** X20. Once the points are read, nothing throws: for lists of points
    and thresholds in the range of [int], [solve_points] returns. When it
    returns a string, the search has returned a constant with exactly the
    attempts reported, the string is the decimal writing of that
    constant, and - the constant not being negative - it reads back as
    the constant. *)
Theorem solve_points_returns (xs ys : list Z) (k : Z) :
  length ys = length xs -> Z.of_nat (length xs) < 2 ^ 31 ->
  1 <= k < 2 ^ 31 ->
  exists tried r,
    solve_points xs ys k = Ok (tried, r) /\
    forall s, r = Some s ->
      exists c,
        find_valid_constant xs ys k = Ok (MkSearch tried (Some c)) /\
        cpp_int_to_string c = Ok s /\
        (0 <= c -> parse_in_base_cpp s 10 = Ok c).
Proof.
  intros Hlen Hn Hk. unfold solve_points.
  assert (Ek : to_int k = k)
    by (unfold to_int; rewrite Z.mod_small by lia; ring).
  assert (En : to_int (Z.of_nat (length xs)) = Z.of_nat (length xs))
    by (unfold to_int; rewrite Z.mod_small by lia; ring).
  rewrite Ek, En.
  destruct (Z.ltb_spec (Z.of_nat (length xs)) k) as [_|_].
  { exists [], None. split; [reflexivity | intros s H; discriminate]. }
  assert (Hret : exists r, find_valid_constant xs ys k = Ok r).
  { unfold find_valid_constant.
    rewrite (find_valid_constant_with_spec _ xs ys (length xs) eq_refl Hlen)
      by lia.
    destruct (first_accepted_cases interpolate_and_check xs ys
                (masks (length xs) (Z.to_nat k))) with (tried := @nil (list Z))
      as [(pre & m & post & c0 & cs & _ & _ & _ & E)|[_ E]].
    - intros m Hm.
      apply (interpolate_on_mask rejected xs ys (Z.to_nat k) m Hlen);
        [lia | apply masks_is_mask, Hm].
    - rewrite E. eexists. reflexivity.
    - rewrite E. eexists. reflexivity. }
  destruct Hret as ([tried [c|]] & E); rewrite E; cbn [bind constant_out attempts].
  - destruct (cpp_int_to_string_total c) as (s & Es). rewrite Es. cbn [bind].
    exists tried, (Some s). split; [reflexivity|].
    intros s' H. injection H as <-. exists c.
    split; [reflexivity|]. split; [exact Es|].
    intros Hc. destruct (decimal_reads_back c Hc) as (s' & Es' & Hp).
    rewrite Es in Es'. injection Es' as <-. exact Hp.
  - exists tried, None. split; [reflexivity | intros s H; discriminate].
Qed.

Lemma solve_points_returns_witness :
  exists tried r,
    solve_points [1; 2; 3] [3; 6; 11] 3 = Ok (tried, r) /\
    forall s, r = Some s ->
      exists c,
        find_valid_constant [1; 2; 3] [3; 6; 11] 3
        = Ok (MkSearch tried (Some c)) /\
        cpp_int_to_string c = Ok s /\
        (0 <= c -> parse_in_base_cpp s 10 = Ok c).
Proof.
  apply (solve_points_returns [1; 2; 3] [3; 6; 11] 3);
    [reflexivity | simpl; lia | simpl; lia].
Defined.

Lemma pick_first (n m : nat) (l1 l2 : list Z) :
  length l1 = n -> length l2 = m ->
  pick (repeat 1 n ++ repeat 0 m) (l1 ++ l2) = l1.
Proof.
  intros <- <-. induction l1 as [|x l1 IH].
  - cbn [length repeat app]. apply pick_none.
  - cbn [length repeat app pick]. cbn [Z.eqb]. rewrite IH. reflexivity.
Qed.

(** X21. When the first [k] points lie on a polynomial of degree below
    [k] with integer coefficients and their abscissas are pairwise
    distinct, the search returns the constant term of that polynomial
    after one attempt, whatever the points after them are. *)
Theorem leading_points_decide (cs xs1 xs2 ys2 : list Z) :
  (1 <= length cs)%nat -> length xs1 = length cs -> NoDup xs1 ->
  length ys2 = length xs2 ->
  find_valid_constant (xs1 ++ xs2) (map (eval_poly cs) xs1 ++ ys2)
                      (Z.of_nat (length cs))
  = Ok (MkSearch [repeat 1 (length xs1) ++ repeat 0 (length xs2)]
                 (Some (nth 0 cs 0))).
Proof.
  intros Hk Hlen Hnd Hlen2. unfold find_valid_constant.
  rewrite (find_valid_constant_with_spec _ _ _ (length (xs1 ++ xs2)) eq_refl)
    by first [rewrite !length_app, length_map; lia | lia].
  rewrite Nat2Z.id.
  destruct (masks_hd (length (xs1 ++ xs2)) (length cs)) as (rest & E);
    [rewrite length_app; lia|].
  rewrite E. cbn [first_accepted].
  replace (length (xs1 ++ xs2) - length cs)%nat with (length xs2)
    by (rewrite length_app; lia).
  rewrite <- Hlen.
  rewrite (pick_first (length xs1) (length xs2) xs1 xs2 eq_refl eq_refl).
  rewrite (pick_first (length xs1) (length xs2) (map (eval_poly cs) xs1) ys2
             (length_map _ _) Hlen2).
  destruct (interpolate_with_exact rejected cs xs1 [] Hlen Hnd)
    as (b & out & Eo & Hl & Hout & Hb).
  unfold interpolate_and_check. rewrite Eo. cbn [bind fst snd].
  assert (b = true) as -> by (apply Hb; intros i Hi; reflexivity).
  rewrite (vat_nth out 0 Frac0) by lia. cbn [bind].
  rewrite Hout by lia. reflexivity.
Qed.

Lemma leading_points_decide_witness :
  find_valid_constant ([1; 2] ++ [3; 4]) (map (eval_poly [7; -2]) [1; 2] ++ [0; 99])
                      (Z.of_nat (length [7; -2]))
  = Ok (MkSearch [repeat 1 (length [1; 2]) ++ repeat 0 (length [3; 4])]
                 (Some (nth 0 [7; -2] 0))).
Proof.
  apply (leading_points_decide [7; -2] [1; 2] [3; 4] [0; 99]).
  - simpl. lia.
  - reflexivity.
  - repeat constructor; simpl; intuition lia.
  - reflexivity.
Defined.

(** ** Inverse operations on fractions *)

(** X22. On fractions that satisfy the invariant, subtraction undoes
    addition and division undoes multiplication, to the very pair of
    numerator and denominator; a fraction minus itself is [0/1] and a
    non-zero fraction divided by itself is [1/1], which is what the
    elimination relies on when it normalises the pivot row. *)
Theorem frac_inverse_operations (a b : Frac) :
  Frac_wf a -> Frac_wf b ->
  (s <- Frac_add a b ;; Frac_sub s b) = Ok a /\
  Frac_sub a a = Ok (MkFrac 0 1) /\
  (num b <> 0 ->
   (p <- Frac_mul a b ;; Frac_div p b) = Ok a /\
   Frac_div b b = Ok (MkFrac 1 1)).
Proof.
  intros Ha Hb.
  assert (H01 : Frac_wf (MkFrac 0 1)) by (split; reflexivity).
  assert (H11 : Frac_wf (MkFrac 1 1)) by (split; reflexivity).
  split; [|split].
  - destruct (Frac_add_val a b Ha Hb) as (s & Es & Hs & Vs).
    rewrite Es. cbn [bind].
    destruct (Frac_sub_val s b Hs Hb) as (d & Ed & Hd & Vd).
    rewrite Ed. f_equal. apply Frac_canonical; try assumption.
    rewrite Vd, Vs. ring.
  - destruct (Frac_sub_val a a Ha Ha) as (d & Ed & Hd & Vd).
    rewrite Ed. f_equal. apply Frac_canonical; try assumption.
    rewrite Vd. unfold toQc at 3. cbn [num den]. rewrite ZtoQc_0, ZtoQc_1.
    field. apply Q_apart_0_1.
  - intros Hn.
    assert (Hbq : toQc b <> 0%Qc).
    { intros E. apply Hn. apply toQc_zero_iff; assumption. }
    split.
    + destruct (Frac_mul_val a b Ha Hb) as (p & Ep & Hp & Vp).
      rewrite Ep. cbn [bind].
      destruct (Frac_div_val p b Hp Hb Hn) as (q & Eq & Hq & Vq).
      rewrite Eq. f_equal. apply Frac_canonical; try assumption.
      rewrite Vq, Vp. field. exact Hbq.
    + destruct (Frac_div_val b b Hb Hb Hn) as (q & Eq & Hq & Vq).
      rewrite Eq. f_equal. apply Frac_canonical; try assumption.
      rewrite Vq. unfold toQc at 3. cbn [num den]. rewrite ZtoQc_1.
      field. split; [apply Q_apart_0_1 | exact Hbq].
Qed.

Lemma frac_inverse_operations_witness :
  (s <- Frac_add (MkFrac 1 2) (MkFrac (-2) 3) ;; Frac_sub s (MkFrac (-2) 3))
  = Ok (MkFrac 1 2).
Proof.
  refine (proj1 (frac_inverse_operations (MkFrac 1 2) (MkFrac (-2) 3) _ _));
    split; reflexivity.
Defined.
